(** * obfuscate.h: a shallow embedding of the injection-construction engine

    The header builds, at compile time, a nested pair of functions
    [injection]/[surjection] for every obfuscated literal or variable.  The
    template recursion is embedded as ordinary recursive functions over [Z];
    every fixed-width unsigned value is a [Z] reduced modulo [2^bits], doubles
    are IEEE binary64 values of [SpecFloat], and a failed [assert] or
    [static_assert] is [None]. *)

From Stdlib Require Import ZArith List Bool Lia.
From Stdlib Require Import Strings.Byte.
From Stdlib Require Import Floats.SpecFloat.
Import ListNotations.

Local Open Scope Z_scope.

(** ** Fixed-width integers *)

(** The unsigned types the engine is instantiated at. *)
Inductive UInt : Type := uint8_t | uint16_t | uint32_t | uint64_t.

Definition sizeof (T : UInt) : Z :=
  match T with uint8_t => 1 | uint16_t => 2 | uint32_t => 4 | uint64_t => 8 end.

Definition bits (T : UInt) : Z := sizeof T * 8.

(** [obf_half_size_int<T>::value_type]; there is no specialisation for the
    one-byte type. *)
Definition obf_half_size_int (T : UInt) : option UInt :=
  match T with
  | uint8_t => None
  | uint16_t => Some uint8_t
  | uint32_t => Some uint16_t
  | uint64_t => Some uint32_t
  end.

(** Conversion to an unsigned type of [w] bits. *)
Definition wrap (w : Z) (z : Z) : Z := z mod 2 ^ w.

(** Conversion to [T]. *)
Definition to (T : UInt) (z : Z) : Z := wrap (bits T) z.

(** The value of an arithmetic expression over operands of type [T] before it is
    converted back: operands narrower than [int] are promoted and the result is
    exact, the wider types compute modulo [2^bits]. *)
Definition arith (T : UInt) (z : Z) : Z :=
  if bits T <? 32 then z else to T z.

(** [T(-1)] *)
Definition max_value (T : UInt) : Z := to T (-1).

(** [size_t] and [OBFSEED] are 64-bit, [OBFCYCLES] is [int32_t]. *)
Definition size_t (z : Z) : Z := wrap 64 z.
Definition OBFSEED (z : Z) : Z := wrap 64 z.
Definition size_t_minus1 : Z := size_t (-1).

(** [OBFCYCLES(n)] of an integer: the low 32 bits, read as signed.  It is also
    what a sum, difference or product of two [OBFCYCLES] is in the compiled
    code when the exact result does not fit. *)
Definition int32_t (z : Z) : Z :=
  let w := wrap 32 z in if w <? 2 ^ 31 then w else w - 2 ^ 32.

(** ** Seeds and the cost model *)

(** [obf_exp_cycles(exp)]; [ret] is an [OBFCYCLES], so every product is
    reduced to 32 bits. *)
Definition obf_exp_cycles (exp : Z) : Z :=
  if exp <? 0 then 0
  else
    let '(ret, exp) :=
      if Z.odd exp then (int32_t (1 * 3), exp - 1) else (1, exp) in
    let exp := Z.shiftr exp 1 in
    Nat.iter (Z.to_nat exp) (fun ret => int32_t (ret * 10)) ret.

(** One round of the loop body of [obf_compile_time_prng]. *)
Definition lcg_step (ret : Z) : Z :=
  OBFSEED (6364136223846793005 * ret + 1442695040888963407).

(** [obf_compile_time_prng(seed, iteration)]; the function asserts
    [iteration > 0], and every caller passes a positive count. *)
Definition obf_compile_time_prng (seed : Z) (iteration : positive) : Z :=
  Pos.iter lcg_step seed iteration.

(** [*p] for a [char] (signed with this compiler). *)
Definition char_value (b : byte) : Z :=
  let n := Z.of_N (Byte.to_N b) in
  if n <? 128 then n else n - 256.

(** The loop [for (p = file; *p; ++p)]: [file] holds the bytes in memory, the
    terminating NUL is the end of the list or the first zero byte. *)
Fixpoint djb2_loop (file : list byte) (ret : Z) : Z :=
  match file with
  | [] => ret
  | b :: rest =>
      if Byte.eqb b x00 then ret
      else djb2_loop rest (OBFSEED ((Z.shiftl ret 5 + ret) + char_value b))
  end.

Definition obf_seed_from_file_line (OBFUSCATE_SEED : Z) (file : list byte) (line : Z) : Z :=
  let ret := Z.lxor OBFUSCATE_SEED (OBFSEED line) in
  obf_compile_time_prng (djb2_loop file ret) 1.

(** [obf_weak_random(seed, n)]: [(seed >> 32) % n]; a zero [n] is a division
    by zero. *)
Definition obf_weak_random (seed : Z) (n : Z) : option Z :=
  if n =? 0 then None else Some (Z.shiftr seed 32 mod n).

(** ** Option as the monad of compile-time failures *)

Definition bind {A B : Type} (m : option A) (f : A -> option B) : option B :=
  match m with Some a => f a | None => None end.

Notation "x <- m ;; k" := (bind m (fun x => k))
  (at level 61, m at next level, right associativity).
Notation "' pat <- m ;; k" := (bind m (fun x => let 'pat := x in k))
  (at level 61, pat pattern, m at next level, right associativity).
Notation "'assert!' b ;; k" := (if b then k else None)
  (at level 61, b at next level, right associativity).

(** ** Weighted choice *)

Definition sum_weights (weights : list Z) : Z :=
  fold_left (fun totalWeight w => size_t (totalWeight + w)) weights 0.

(** The second loop of [obf_random_from_list]; running off the end is
    [assert(false)]. *)
Fixpoint obf_random_from_list_walk (weights : list Z) (refWeight : Z) (i : nat)
  : option nat :=
  match weights with
  | [] => None
  | w :: rest =>
      if refWeight <? w then Some i
      else obf_random_from_list_walk rest (size_t (refWeight - w)) (S i)
  end.

Definition obf_random_from_list (seed : Z) (weights : list Z) : option nat :=
  let totalWeight := sum_weights weights in
  refWeight <- obf_weak_random seed totalWeight ;;
  assert! (refWeight <? totalWeight) ;;
  obf_random_from_list_walk weights refWeight 0.

(** ** The constants of a build *)

Fixpoint obf_find_idx_from (arr : list Z) (value : Z) (i : nat) : Z :=
  match arr with
  | [] => size_t_minus1
  | a :: rest => if a =? value then Z.of_nat i else obf_find_idx_from rest value (S i)
  end.

Definition obf_find_idx_in_array (arr : list Z) (value : Z) : Z :=
  obf_find_idx_from arr value 0.

(** [arr[i] = v] on an array held as a list. *)
Fixpoint array_set (arr : list Z) (i : nat) (v : Z) : list Z :=
  match arr, i with
  | [], _ => []
  | _ :: rest, O => v :: rest
  | a :: rest, S i' => a :: array_set rest i' v
  end.

Definition candidates : list Z := [3; 5; 7; 15; 25; 31].

Definition obf_const_x (seed : Z) (excluded : list Z) : option Z :=
  let weights :=
    fold_left
      (fun weights e =>
         let found := obf_find_idx_in_array candidates e in
         if found =? size_t_minus1 then weights
         else array_set weights (Z.to_nat found) 0)
      excluded [100; 100; 100; 100; 100; 100] in
  idx2 <- obf_random_from_list seed weights ;;
  nth_error candidates idx2.

Definition obf_random_const (seed : Z) (lst : list Z) : option Z :=
  i <- obf_weak_random seed (Z.of_nat (length lst)) ;;
  nth_error lst (Z.to_nat i).

(** ** Descriptors and strategy selection *)

Record ObfDescriptor : Type := {
  is_recursive : bool;
  min_cycles : Z;
  weight : Z
}.

(** The first loop of [obf_random_obf_from_list] from index [i] on:
    [(r_weights, nr_weights, sum_r, sum_nr)]. *)
Fixpoint obf_partition_weights (cycles : Z) (exclude_version : Z)
    (descr : list ObfDescriptor) (i : nat) : list Z * list Z * Z * Z :=
  match descr with
  | [] => ([], [], 0, 0)
  | d :: rest =>
      let '(r_weights, nr_weights, sum_r, sum_nr) :=
        obf_partition_weights cycles exclude_version rest (S i) in
      if negb (Z.of_nat i =? exclude_version) && (min_cycles d <=? cycles) then
        if is_recursive d then
          (weight d :: r_weights, 0 :: nr_weights, size_t (sum_r + weight d), sum_nr)
        else
          (0 :: r_weights, weight d :: nr_weights, sum_r, size_t (sum_nr + weight d))
      else (0 :: r_weights, 0 :: nr_weights, sum_r, sum_nr)
  end.

Definition obf_random_obf_from_list (seed : Z) (cycles : Z)
    (descr : list ObfDescriptor) (exclude_version : Z) : option nat :=
  let '(r_weights, nr_weights, sum_r, sum_nr) :=
    obf_partition_weights cycles exclude_version descr 0 in
  if negb (sum_r =? 0) then obf_random_from_list seed r_weights
  else
    assert! (0 <? sum_nr) ;;
    obf_random_from_list seed nr_weights.

(** ** Doubles *)

Definition double_of_Z (z : Z) : spec_float := binary_normalize 53 1024 z 0 false.
Definition double_mul : spec_float -> spec_float -> spec_float := SFmul 53 1024.
Definition double_div : spec_float -> spec_float -> spec_float := SFdiv 53 1024.
Definition double_add : spec_float -> spec_float -> spec_float := SFadd 53 1024.

(** Conversion of a double to an integer type discards the fraction; it is
    undefined for infinities and NaN. *)
Definition double_trunc (d : spec_float) : option Z :=
  match d with
  | S754_zero _ => Some 0
  | S754_finite s m e =>
      let a := if 0 <=? e then Z.pos m * 2 ^ e else Z.pos m / 2 ^ (- e) in
      Some (if s then - a else a)
  | _ => None
  end.

(** [OBFCYCLES(d)] of a double: undefined outside the range of the type. *)
Definition OBFCYCLES_of_double (d : spec_float) : option Z :=
  z <- double_trunc d ;;
  assert! ((- 2 ^ 31 <=? z) && (z <? 2 ^ 31)) ;;
  Some z.

Definition uint64_of_double (d : spec_float) : option Z :=
  z <- double_trunc d ;;
  assert! ((0 <=? z) && (z <? 2 ^ 64)) ;;
  Some z.

(** ** Budget splitting *)

(** The loop drawing the raw shares: [(ret, totalWeight)] from index [i] on. *)
Fixpoint obf_random_split_draw (seed : Z) (elements : list ObfDescriptor) (i : nat)
  : option (list Z) :=
  match elements with
  | [] => Some []
  | e :: rest =>
      r <- obf_weak_random (obf_compile_time_prng seed (Pos.of_succ_nat i)) (weight e) ;;
      ret <- obf_random_split_draw seed rest (S i) ;;
      Some (int32_t (int32_t r + 1) :: ret)
  end.

Fixpoint obf_random_split_scale (q : spec_float) (ret : list Z) : option (list Z) :=
  match ret with
  | [] => Some []
  | r :: rest =>
      r' <- OBFCYCLES_of_double (double_mul (double_of_Z r) q) ;;
      rest' <- obf_random_split_scale q rest ;;
      Some (r' :: rest')
  end.

(** [obf_random_split]; [leftovers] is an [OBFCYCLES], so every difference is
    reduced to 32 bits. *)
Definition obf_random_split (seed : Z) (cycles : Z) (elements : list ObfDescriptor)
  : option (list Z) :=
  let leftovers := fold_left (fun l e => int32_t (l - min_cycles e)) elements cycles in
  assert! (0 <=? leftovers) ;;
  ret <- obf_random_split_draw seed elements 0 ;;
  let totalWeight := sum_weights ret in
  let q := double_div (double_of_Z leftovers) (double_of_Z totalWeight) in
  ret <- obf_random_split_scale q ret ;;
  let totalWeight2 := sum_weights ret in
  assert! (int32_t totalWeight2 <=? leftovers) ;;
  Some ret.

(** ** The rough square root *)

(** [obf_compile_time_approximation] at [T = uint64_t]; falling out of the
    loop returns nothing. *)
Fixpoint obf_compile_time_approximation (x : Z) (xref yref : list Z) : option Z :=
  match xref, yref with
  | x0 :: xref', y0 :: yref' =>
      match xref', yref' with
      | x1 :: _, y1 :: _ =>
          if (x0 <=? x) && (x <? x1) then
            uint64_of_double
              (double_add (double_of_Z y0)
                 (double_div
                    (double_mul (double_of_Z (wrap 64 (x - x0)))
                                (double_of_Z (wrap 64 (y1 - y0))))
                    (double_of_Z (wrap 64 (x1 - x0)))))
          else obf_compile_time_approximation x xref' yref'
      | _, _ => None
      end
  | _, _ => None
  end.

Definition sqrt_xref : list Z :=
  0 :: map (fun i => let x := wrap 64 (Z.shiftl 1 (Z.of_nat i - 1)) in wrap 64 (x * x))
           (seq 1 63).
Definition sqrt_yref : list Z :=
  0 :: map (fun i => wrap 64 (Z.shiftl 1 (Z.of_nat i - 1))) (seq 1 63).

Definition obf_sqrt_very_rough_approximation (x0 : Z) : option Z :=
  obf_compile_time_approximation x0 sqrt_xref sqrt_yref.

(** ** Contexts *)

Inductive Context : Type :=
| ObfZeroLiteralContext
| ObfLiteralContext (seed cycles : Z)
| ObfVarContext (seed cycles : Z).

Definition calc_cycles (ctx : Context) (inj surj : Z) : Z :=
  match ctx with
  | ObfVarContext _ _ => inj + surj
  | _ => surj
  end.

Definition literal_cycles (ctx : Context) : Z :=
  match ctx with
  | ObfVarContext _ _ => 50
  | _ => 0
  end.

(** The context of [Context::literal<T, C, seed>::type]. *)
Definition literal_context (ctx : Context) : Context :=
  match ctx with
  | ObfVarContext seed _ => ObfLiteralContext seed 50
  | _ => ObfZeroLiteralContext
  end.

(** [ObfRecursiveContext<T, Context, seed, cycles>]. *)
Definition recursive_context_type (ctx : Context) (seed cycles : Z) : Context :=
  match ctx with
  | ObfZeroLiteralContext => ObfZeroLiteralContext
  | ObfLiteralContext _ _ => ObfLiteralContext (obf_compile_time_prng seed 1) cycles
  | ObfVarContext _ _ => ObfVarContext seed cycles
  end.

Definition side_context_type (ctx : Context) (seed cycles : Z) : Context :=
  match ctx with
  | ObfZeroLiteralContext => ObfZeroLiteralContext
  | ObfLiteralContext _ _ => ObfLiteralContext (obf_compile_time_prng seed 2) cycles
  | ObfVarContext _ _ => ObfVarContext seed cycles
  end.

Definition obf_literal_context_version0_descr : ObfDescriptor :=
  {| is_recursive := false; min_cycles := 0; weight := 1 |}.
Definition obf_literal_context_version1_descr : ObfDescriptor :=
  {| is_recursive := true; min_cycles := 6; weight := 100 |}.
Definition obf_literal_context_version2_descr : ObfDescriptor :=
  {| is_recursive := true; min_cycles := 20; weight := 100 |}.
Definition obf_literal_context_version3_descr : ObfDescriptor :=
  {| is_recursive := true; min_cycles := 10; weight := 100 |}.
Definition obf_literal_context_version4_descr : ObfDescriptor :=
  {| is_recursive := true; min_cycles := 100; weight := 100 |}.

Definition ObfLiteralContext_descr : list ObfDescriptor :=
  [ obf_literal_context_version0_descr; obf_literal_context_version1_descr;
    obf_literal_context_version2_descr; obf_literal_context_version3_descr;
    obf_literal_context_version4_descr ].

Definition ObfLiteralContext_which (seed cycles : Z) : option nat :=
  obf_random_obf_from_list (obf_compile_time_prng seed 1) cycles
    ObfLiteralContext_descr size_t_minus1.

(** The constants of [ObfLiteralContext_version<4, T, seed>]. *)
Record Version4 : Type := {
  MOD : Z; CC : Z; MUL1 : Z; DELTA : Z; MUL2 : Z; DELTAMOD : Z; MUL3 : Z; CC0 : Z
}.

Definition next_c (T : UInt) (k : Version4) (c : Z) : Z :=
  to T (arith T (c + DELTA k) mod DELTAMOD k).

Fixpoint test_n_iterations (T : UInt) (k : Version4) (x : Z) (n : nat) : bool :=
  (x mod MOD k =? CC k) &&
  match n with
  | O => true
  | S n' =>
      let newC := next_c T k x in
      (newC mod MOD k =? CC k) && test_n_iterations T k newC n'
  end.

(** [obf_aliased_zero(x, y)] over a memory of cells. *)
Definition store (mem : Z -> Z) (p v : Z) : Z -> Z :=
  fun a => if a =? p then v else mem a.

Definition obf_aliased_zero (mem : Z -> Z) (x y : Z) : Z :=
  let mem := store mem x 0 in
  let mem := store mem y 1 in
  mem x.

(** The shared mutable state read at run time: the byte [obf_peb[2]] and the
    static members [c] of the literal contexts of versions 1 and 4, one per
    instantiation [<T, seed>]. *)
Record World : Type := {
  obf_peb_2 : Z;
  c_version1 : UInt -> Z -> Z;
  c_version4 : UInt -> Z -> Z
}.

Definition UInt_eqb (a b : UInt) : bool := sizeof a =? sizeof b.

Definition set_c_version4 (w : World) (T : UInt) (seed : Z) (v : Z) : World :=
  {| obf_peb_2 := obf_peb_2 w;
     c_version1 := c_version1 w;
     c_version4 := fun T' seed' =>
       if UInt_eqb T' T && (seed' =? seed) then v else c_version4 w T' seed' |}.

(** Values of a [return_type]: a scalar, or the two lanes of version 5. *)
Inductive Rep : Type :=
| scalar (v : Z)
| lanes (lo hi : Rep).

Definition as_scalar (r : Rep) : Z :=
  match r with scalar v => v | lanes _ _ => 0 end.

(** [*reinterpret_cast<T*>(&r)] for an [r] that fills [w] bits: the member
    [lo] comes first in memory. *)
Fixpoint flatten (w : Z) (r : Rep) : Z :=
  match r with
  | scalar v => v
  | lanes lo hi => flatten (w / 2) lo + 2 ^ (w / 2) * flatten (w / 2) hi
  end.

(** ** Version 4: the inverse of an odd number modulo [2^bits] *)

Fixpoint obf_mul_inverse_loop (fuel : nat) (T : UInt) (mod_ num x lastx y lasty : Z)
  : option Z :=
  match fuel with
  | O => None
  | S fuel' =>
      if num =? 0 then Some lasty
      else
        let q := mod_ / num in
        let temp1 := mod_ mod num in
        let mod_ := num in
        let num := temp1 in
        let temp2 := x in
        let x := to T (lastx - to T (q * x)) in
        let lastx := temp2 in
        let temp3 := y in
        let y := to T (lasty - to T (q * y)) in
        let lasty := temp3 in
        obf_mul_inverse_loop fuel' T mod_ num x lastx y lasty
  end.

(** The [while] loop is run on a budget of [2 * bits + 2] rounds, which it never
    exhausts (see [obf_mul_inverse_loop_total]). *)
Definition obf_mul_inverse_mod2n (T : UInt) (num : Z) : option Z :=
  assert! (negb (Z.land num 1 =? 0)) ;;
  let num0 := num in
  let x := 0 in
  let lastx := 1 in
  let y := 1 in
  let lasty := 0 in
  let mod_ := 0 in
  if num =? to T (mod_ - 1) then Some num
  else
    let q := to T (to T (to T (mod_ - num) / num) + 1) in
    let temp1 := to T (arith T (to T (to T (mod_ - 2) mod num) + 2) mod num) in
    let mod_ := num in
    let num := temp1 in
    let temp2 := x in
    let x := to T (lastx - to T (q * x)) in
    let lastx := temp2 in
    let temp3 := y in
    let y := to T (lasty - to T (q * y)) in
    let lasty := temp3 in
    lasty <- obf_mul_inverse_loop (Z.to_nat (2 * bits T + 2)) T mod_ num x lastx y lasty ;;
    assert! (to T (num0 * lasty) =? to T 1) ;;
    Some lasty.

(** ** Version 2: the randomized polynomial *)

Fixpoint obf_randomized_polynomial_function_helper
    (fuel : nat) (T : UInt) (seed cycles : Z) (x0 x : Z) : Z :=
  match fuel with
  | O => x
  | S fuel' =>
      if cycles =? 0 then x
      else if cycles <? 3 then to T (x + x0)
      else
        match obf_random_from_list (obf_compile_time_prng seed 1) [100; 100] with
        | Some (S _) =>
            obf_randomized_polynomial_function_helper fuel' T
              (obf_compile_time_prng seed 2) (cycles - 3) x0 (to T (x * x0))
        | _ =>
            obf_randomized_polynomial_function_helper fuel' T
              (obf_compile_time_prng seed 3) (cycles - 1) x0 (to T (x + x0))
        end
  end.

Definition obf_randomized_function (T : UInt) (seed cycles : Z) (x : Z) : Z :=
  obf_randomized_polynomial_function_helper (S (Z.to_nat cycles)) T seed cycles x x.

(** ** The strategy tree *)

(** One constructor per specialisation [obf_injection_version<which, ...>],
    holding its [constexpr] members and the nested injections. *)
Inductive Injection : Type :=
| version0 (ctx : Context)
| version1 (C : Z) (RecursiveInjection : Injection)
| version2 (seed_f cycles_f : Z) (RecursiveInjection : Injection)
| version3 (LoInjection HiInjection RecursiveInjection : Injection)
| version4 (C CINV : Z) (literal RecursiveInjection : Injection)
| version5 (RecursiveInjectionLo RecursiveInjectionHi : Injection).

(** [sizeof(Injection::return_type)] *)
Fixpoint sizeof_return_type (T : UInt) (inj : Injection) : Z :=
  match inj with
  | version0 _ => sizeof T
  | version1 _ r | version2 _ _ r | version3 _ _ r | version4 _ _ _ r =>
      sizeof_return_type T r
  | version5 lo hi =>
      match obf_half_size_int T with
      | Some halfT => sizeof_return_type halfT lo + sizeof_return_type halfT hi
      | None => 0
      end
  end.

(** [*reinterpret_cast<Injection::return_type*>(&v)] for a [v] of [w] bits. *)
Fixpoint unflatten (w : Z) (inj : Injection) (v : Z) : Rep :=
  match inj with
  | version0 _ => scalar v
  | version1 _ r | version2 _ _ r | version3 _ _ r | version4 _ _ _ r =>
      unflatten w r v
  | version5 lo hi =>
      lanes (unflatten (w / 2) lo (v mod 2 ^ (w / 2)))
            (unflatten (w / 2) hi (v / 2 ^ (w / 2)))
  end.

(** ** What a build fixes *)

Section Build.

(** The build seed. *)
Variable OBFUSCATE_SEED : Z.

(** [obf_gen_const<T>(seed)] is called by the rolling-counter context, and the
    header does not define it: it is a parameter of the model. *)
Variable obf_gen_const : UInt -> Z -> Z.

(** Whether [OBFUSCATE_DEBUG_DISABLE_ANTI_DEBUG] is defined, and the value of
    [OBF_COMPILE_TIME_TESTS]. *)
Variable OBFUSCATE_DEBUG_DISABLE_ANTI_DEBUG : bool.
Variable OBF_COMPILE_TIME_TESTS : nat.

Definition OBF_CONST_A : option Z :=
  obf_const_x
    (obf_compile_time_prng (Z.lxor OBFUSCATE_SEED 0xcec4b8ea4b89a1a9) 1) [].

Definition OBF_CONST_B : option Z :=
  a <- OBF_CONST_A ;;
  obf_const_x
    (obf_compile_time_prng (Z.lxor OBFUSCATE_SEED 0x5eec23716fa1d0aa) 1) [a].

Definition OBF_CONST_C : option Z :=
  a <- OBF_CONST_A ;;
  b <- OBF_CONST_B ;;
  obf_const_x
    (obf_compile_time_prng (Z.lxor OBFUSCATE_SEED 0xfb2de18f982a2d55) 1) [a; b].

(** The array [{ OBF_CONST_A, OBF_CONST_B, OBF_CONST_C }]. *)
Definition OBF_CONSTS : option (list Z) :=
  a <- OBF_CONST_A ;;
  b <- OBF_CONST_B ;;
  c <- OBF_CONST_C ;;
  Some [a; b; c].

(** *** Leaf contexts *)

Definition ObfLiteralContext_version4 (T : UInt) (seed : Z) : option Version4 :=
  let PREMODRNDCONST := to T (obf_gen_const T (obf_compile_time_prng seed 1)) in
  let PREMODMASK := to T (arith T (Z.shiftl 1 (sizeof T * 4)) - 1) in
  let PREMOD := Z.land PREMODRNDCONST PREMODMASK in
  let MOD := if PREMOD =? 0 then 100 else PREMOD in
  CC <- obf_weak_random (obf_compile_time_prng seed 2) MOD ;;
  let MAXMUL1 := max_value T / MOD in
  MAXMUL1_ADJUSTED0 <- obf_sqrt_very_rough_approximation MAXMUL1 ;;
  assert! (MAXMUL1_ADJUSTED0 <? max_value T) ;;
  let MAXMUL1_ADJUSTED := to T MAXMUL1_ADJUSTED0 in
  MUL1 <- (if 2 <? MAXMUL1 then
             r <- obf_weak_random (obf_compile_time_prng seed 2) MAXMUL1_ADJUSTED ;;
             Some (to T (1 + r))
           else Some 1) ;;
  let DELTA := to T (MUL1 * MOD) in
  assert! (negb (MUL1 =? 0) && (DELTA / MUL1 =? MOD)) ;;
  assert! (negb (DELTA =? 0)) ;;
  let MAXMUL2 := max_value T / DELTA in
  MUL2 <- (if 2 <? MAXMUL2 then
             r <- obf_weak_random (obf_compile_time_prng seed 3) MAXMUL2 ;;
             Some (to T (1 + r))
           else Some 1) ;;
  let DELTAMOD := to T (MUL2 * MOD) in
  assert! (negb (MUL2 =? 0) && (DELTAMOD / MUL2 =? MOD)) ;;
  PREMUL3 <- obf_weak_random (obf_compile_time_prng seed 3) MUL2 ;;
  let MUL3 := if 0 <? PREMUL3 then PREMUL3 else 1 in
  assert! (negb (DELTAMOD =? 0)) ;;
  let CC0 := to T (arith T (CC + arith T (MUL3 * MOD)) mod DELTAMOD) in
  let k := {| MOD := MOD; CC := CC; MUL1 := MUL1; DELTA := DELTA; MUL2 := MUL2;
              DELTAMOD := DELTAMOD; MUL3 := MUL3; CC0 := CC0 |} in
  assert! (arith T (CC0 + DELTA) mod MOD =? CC) ;;
  assert! (test_n_iterations T k CC0 OBF_COMPILE_TIME_TESTS) ;;
  Some k.

(** [ObfLiteralContext_version<which, T, seed>] with its constants. *)
Inductive LiteralVersion : Type :=
| literal_version0
| literal_version1 (CC : Z)
| literal_version2
| literal_version3 (CC : Z)
| literal_version4 (k : Version4).

Definition ObfLiteralContext_CC (T : UInt) (seed : Z) : option Z :=
  consts <- OBF_CONSTS ;;
  CC <- obf_random_const (obf_compile_time_prng seed 1) consts ;;
  Some (to T CC).

Definition ObfLiteralContext_version (which : nat) (T : UInt) (seed : Z)
  : option LiteralVersion :=
  match which with
  | 0%nat => Some literal_version0
  | 1%nat => CC <- ObfLiteralContext_CC T seed ;; Some (literal_version1 CC)
  | 2%nat => Some literal_version2
  | 3%nat => CC <- ObfLiteralContext_CC T seed ;; Some (literal_version3 CC)
  | 4%nat => k <- ObfLiteralContext_version4 T seed ;; Some (literal_version4 k)
  | _ => None
  end.

(** [ObfLiteralContext<T, seed, cycles>::WhichType] *)
Definition WhichType (T : UInt) (seed cycles : Z) : option LiteralVersion :=
  which <- ObfLiteralContext_which seed cycles ;;
  ObfLiteralContext_version which T seed.

Definition version_context_cycles (v : LiteralVersion) : Z :=
  match v with
  | literal_version0 => min_cycles obf_literal_context_version0_descr
  | literal_version1 _ => min_cycles obf_literal_context_version1_descr
  | literal_version2 => min_cycles obf_literal_context_version2_descr
  | literal_version3 _ => min_cycles obf_literal_context_version3_descr
  | literal_version4 _ => min_cycles obf_literal_context_version4_descr
  end.

Definition context_cycles (T : UInt) (ctx : Context) : option Z :=
  match ctx with
  | ObfLiteralContext seed cycles =>
      v <- WhichType T seed cycles ;; Some (version_context_cycles v)
  | _ => Some 0
  end.

Definition version_final_injection (T : UInt) (v : LiteralVersion) (x : Z) : Z :=
  match v with
  | literal_version0 => x
  | literal_version1 CC => to T (x + CC)
  | literal_version2 => x
  | literal_version3 CC => to T (x + CC)
  | literal_version4 k => to T (x + CC k)
  end.

Definition version_final_surjection (T : UInt) (seed : Z) (v : LiteralVersion)
    (y : Z) (w : World) : Z * World :=
  match v with
  | literal_version0 => (y, w)
  | literal_version1 _ => (to T (y - c_version1 w T seed), w)
  | literal_version2 =>
      let z := obf_aliased_zero (fun _ => 0) 0 1 in
      (to T (y - z), w)
  | literal_version3 CC =>
      if OBFUSCATE_DEBUG_DISABLE_ANTI_DEBUG then (to T (y - CC), w)
      else (to T (y - CC * (1 + obf_peb_2 w)), w)
  | literal_version4 k =>
      let newC := next_c T k (c_version4 w T seed) in
      let w := set_c_version4 w T seed newC in
      (to T (y - c_version4 w T seed mod MOD k), w)
  end.

Definition final_injection (T : UInt) (ctx : Context) (x : Z) : Z :=
  match ctx with
  | ObfLiteralContext seed cycles =>
      match WhichType T seed cycles with
      | Some v => version_final_injection T v x
      | None => x
      end
  | _ => x
  end.

Definition final_surjection (T : UInt) (ctx : Context) (y : Z) (w : World)
  : Z * World :=
  match ctx with
  | ObfLiteralContext seed cycles =>
      match WhichType T seed cycles with
      | Some v => version_final_surjection T seed v y w
      | None => (y, w)
      end
  | _ => (y, w)
  end.

(** The statics as the program starts, for a given debug byte. *)
Definition initial_world (peb_2 : Z) : World :=
  {| obf_peb_2 := peb_2;
     c_version1 := fun T seed =>
       match ObfLiteralContext_CC T seed with Some CC => CC | None => 0 end;
     c_version4 := fun T seed =>
       match ObfLiteralContext_version4 T seed with Some k => CC0 k | None => 0 end |}.

(** *** Descriptors of the six injections *)

Definition own_min_cycles (ctx : Context) (cc : Z)
    (own_min_injection_cycles own_min_surjection_cycles : Z) : Z :=
  cc + calc_cycles ctx own_min_injection_cycles own_min_surjection_cycles.

Definition wide_only (T : UInt) (own_min : Z) : ObfDescriptor :=
  if 1 <? sizeof T then {| is_recursive := true; min_cycles := own_min; weight := 100 |}
  else {| is_recursive := false; min_cycles := 0; weight := 0 |}.

Definition obf_injection_version0_descr (ctx : Context) (cc : Z) : ObfDescriptor :=
  {| is_recursive := false; min_cycles := own_min_cycles ctx cc 0 0; weight := 1 |}.
Definition obf_injection_version1_descr (ctx : Context) (cc : Z) : ObfDescriptor :=
  {| is_recursive := true; min_cycles := own_min_cycles ctx cc 1 1; weight := 100 |}.
Definition obf_injection_version2_descr (T : UInt) (ctx : Context) (cc : Z) : ObfDescriptor :=
  wide_only T (own_min_cycles ctx cc 7 7).
Definition obf_injection_version3_descr (T : UInt) (ctx : Context) (cc : Z) : ObfDescriptor :=
  wide_only T (own_min_cycles ctx cc 7 7).
Definition obf_injection_version4_descr (ctx : Context) (cc : Z) : ObfDescriptor :=
  {| is_recursive := true;
     min_cycles := own_min_cycles ctx cc (3 + literal_cycles ctx) 3;
     weight := 100 |}.
Definition obf_injection_version5_descr (T : UInt) (ctx : Context) (cc : Z) : ObfDescriptor :=
  wide_only T (own_min_cycles ctx cc 3 3).

(** [obf_injection<T, Context, ...>::descr]; [cc] is [Context::context_cycles]. *)
Definition obf_injection_descr (T : UInt) (ctx : Context) (cc : Z) : list ObfDescriptor :=
  [ obf_injection_version0_descr ctx cc;
    obf_injection_version1_descr ctx cc;
    obf_injection_version2_descr T ctx cc;
    obf_injection_version3_descr T ctx cc;
    obf_injection_version4_descr ctx cc;
    obf_injection_version5_descr T ctx cc ].

(** *** Running a strategy tree *)

Fixpoint surjection (T : UInt) (inj : Injection) (y : Rep) (w : World) : Z * World :=
  match inj with
  | version0 ctx => final_surjection T ctx (as_scalar y) w
  | version1 C RecursiveInjection =>
      let '(v, w) := surjection T RecursiveInjection y w in
      (to T (v - C), w)
  | version2 seed_f cycles_f RecursiveInjection =>
      match obf_half_size_int T with
      | Some halfT =>
          let halfTBits := bits halfT in
          let mask := to T (arith T (Z.shiftl 1 halfTBits) - 1) in
          let '(y, w) := surjection T RecursiveInjection y w in
          let hi := Z.shiftr y halfTBits in
          let lo := y in
          let z :=
            Z.land
              (arith T (hi - obf_randomized_function halfT seed_f cycles_f (to halfT lo)))
              mask in
          (to T (z + Z.shiftl lo halfTBits), w)
      | None => (0, w)
      end
  | version3 LoInjection HiInjection RecursiveInjection =>
      match obf_half_size_int T with
      | Some halfT =>
          let halfTBits := bits halfT in
          let '(y, w) := surjection T RecursiveInjection y w in
          let hi := to halfT (Z.shiftr y halfTBits) in
          let lo := to halfT y in
          let '(hi, w) := surjection halfT HiInjection (unflatten halfTBits HiInjection hi) w in
          let '(lo, w) := surjection halfT LoInjection (unflatten halfTBits LoInjection lo) w in
          (to T (hi + Z.shiftl lo halfTBits), w)
      | None => (0, w)
      end
  | version4 C CINV literal RecursiveInjection =>
      let '(v, w) := surjection T RecursiveInjection y w in
      (to T (v * C), w)
  | version5 RecursiveInjectionLo RecursiveInjectionHi =>
      match obf_half_size_int T, y with
      | Some halfT, lanes y_lo y_hi =>
          let halfTBits := bits halfT in
          let '(hi, w) := surjection halfT RecursiveInjectionHi y_hi w in
          let '(lo, w) := surjection halfT RecursiveInjectionLo y_lo w in
          (to T (lo + Z.shiftl hi halfTBits), w)
      | _, _ => (0, w)
      end
  end.

Fixpoint injection (T : UInt) (inj : Injection) (x : Z) (w : World) : Rep * World :=
  match inj with
  | version0 ctx => (scalar (final_injection T ctx x), w)
  | version1 C RecursiveInjection =>
      injection T RecursiveInjection (to T (x + C)) w
  | version2 seed_f cycles_f RecursiveInjection =>
      match obf_half_size_int T with
      | Some halfT =>
          let halfTBits := bits halfT in
          let mask := to T (arith T (Z.shiftl 1 halfTBits) - 1) in
          let lo := Z.shiftr x halfTBits in
          let hi :=
            to T (Z.land x mask
                  + obf_randomized_function halfT seed_f cycles_f (to halfT lo)) in
          injection T RecursiveInjection (to T (Z.shiftl hi halfTBits + lo)) w
      | None => (scalar 0, w)
      end
  | version3 LoInjection HiInjection RecursiveInjection =>
      match obf_half_size_int T with
      | Some halfT =>
          let halfTBits := bits halfT in
          let lo := to halfT (Z.shiftr x halfTBits) in
          let '(lo1, w) := injection halfT LoInjection lo w in
          let lo := flatten halfTBits lo1 in
          let hi := to halfT x in
          let '(hi1, w) := injection halfT HiInjection hi w in
          let hi := flatten halfTBits hi1 in
          injection T RecursiveInjection (to T (Z.shiftl hi halfTBits + lo)) w
      | None => (scalar 0, w)
      end
  | version4 C CINV literal RecursiveInjection =>
      let '(val, w) := injection T literal CINV w in
      let '(value, w) := surjection T literal val w in
      injection T RecursiveInjection (to T (x * value)) w
  | version5 RecursiveInjectionLo RecursiveInjectionHi =>
      match obf_half_size_int T with
      | Some halfT =>
          let halfTBits := bits halfT in
          let '(lo, w) := injection halfT RecursiveInjectionLo (to halfT x) w in
          let '(hi, w) :=
            injection halfT RecursiveInjectionHi (to halfT (Z.shiftr x halfTBits)) w in
          (lanes lo hi, w)
      | None => (scalar 0, w)
      end
  end.

(** *** Building the strategy tree: [obf_injection] *)

Definition split2 : list ObfDescriptor :=
  [ {| is_recursive := true; min_cycles := 0; weight := 100 |};
    {| is_recursive := true; min_cycles := 0; weight := 100 |} ].

Definition split3 : list ObfDescriptor :=
  [ {| is_recursive := true; min_cycles := 0; weight := 200 |};
    {| is_recursive := true; min_cycles := 0; weight := 100 |};
    {| is_recursive := true; min_cycles := 0; weight := 100 |} ].

(** [obf_random_split] over two siblings with the [static_assert] on the sum. *)
Definition split_two (seed cycles : Z) : option (Z * Z) :=
  splitCycles <- obf_random_split seed cycles split2 ;;
  match splitCycles with
  | [a; b] => assert! (a + b <=? cycles) ;; Some (a, b)
  | _ => None
  end.

Fixpoint obf_injection (fuel : nat) (T : UInt) (ctx : Context) (seed cycles : Z)
    (exclude_version : Z) : option Injection :=
  match fuel with
  | O => None
  | S fuel' =>
      cc <- context_cycles T ctx ;;
      which <- obf_random_obf_from_list (obf_compile_time_prng seed 1) cycles
                 (obf_injection_descr T ctx cc) exclude_version ;;
      match which with
      | 0%nat =>
          let availCycles := cycles - own_min_cycles ctx cc 0 0 in
          assert! (0 <=? availCycles) ;;
          Some (version0 ctx)
      | 1%nat =>
          let availCycles := cycles - own_min_cycles ctx cc 1 1 in
          assert! (0 <=? availCycles) ;;
          RecursiveInjection <-
            obf_injection fuel' T ctx (obf_compile_time_prng seed 1) (availCycles + cc) 1 ;;
          consts <- OBF_CONSTS ;;
          C <- obf_random_const (obf_compile_time_prng seed 2) (1 :: consts) ;;
          Some (version1 (to T C) RecursiveInjection)
      | 2%nat =>
          let availCycles := cycles - own_min_cycles ctx cc 7 7 in
          assert! (0 <=? availCycles) ;;
          '(cycles_f, cycles_rInj) <-
            split_two (obf_compile_time_prng seed 1) availCycles ;;
          RecursiveInjection <-
            obf_injection fuel' T ctx (obf_compile_time_prng seed 2) (cycles_rInj + cc)
              size_t_minus1 ;;
          halfT <- obf_half_size_int T ;;
          Some (version2 (obf_compile_time_prng seed 3) cycles_f RecursiveInjection)
      | 3%nat =>
          let availCycles := cycles - own_min_cycles ctx cc 7 7 in
          assert! (0 <=? availCycles) ;;
          halfT <- obf_half_size_int T ;;
          splitCycles <- obf_random_split (obf_compile_time_prng seed 1) availCycles split3 ;;
          match splitCycles with
          | [cycles_rInj; cycles_lo; cycles_hi] =>
              assert! (cycles_rInj + cycles_lo + cycles_hi <=? availCycles) ;;
              RecursiveInjection <-
                obf_injection fuel' T ctx (obf_compile_time_prng seed 2) (cycles_rInj + cc)
                  size_t_minus1 ;;
              '(cycles_loCtx, cycles_loInj) <-
                split_two (obf_compile_time_prng seed 2) cycles_lo ;;
              let LoContext :=
                side_context_type ctx (obf_compile_time_prng seed 3) cycles_loCtx in
              lo_cc <- context_cycles halfT LoContext ;;
              LoInjection <-
                obf_injection fuel' halfT LoContext (obf_compile_time_prng seed 4)
                  (cycles_loInj + lo_cc) size_t_minus1 ;;
              assert! (sizeof_return_type halfT LoInjection =? sizeof halfT) ;;
              '(cycles_hiCtx, cycles_hiInj) <-
                split_two (obf_compile_time_prng seed 5) cycles_hi ;;
              let HiContext :=
                side_context_type ctx (obf_compile_time_prng seed 6) cycles_hiCtx in
              hi_cc <- context_cycles halfT HiContext ;;
              HiInjection <-
                obf_injection fuel' halfT HiContext (obf_compile_time_prng seed 7)
                  (cycles_hiInj + hi_cc) size_t_minus1 ;;
              assert! (sizeof_return_type halfT HiInjection =? sizeof halfT) ;;
              Some (version3 LoInjection HiInjection RecursiveInjection)
          | _ => None
          end
      | 4%nat =>
          let availCycles :=
            cycles - own_min_cycles ctx cc (3 + literal_cycles ctx) 3 in
          assert! (0 <=? availCycles) ;;
          RecursiveInjection <-
            obf_injection fuel' T ctx (obf_compile_time_prng seed 1) (availCycles + cc) 4 ;;
          consts <- OBF_CONSTS ;;
          C <- obf_random_const (obf_compile_time_prng seed 2) consts ;;
          let C := to T C in
          assert! (Z.land C 1 =? 1) ;;
          CINV <- obf_mul_inverse_mod2n T C ;;
          assert! (to T (C * CINV) =? to T 1) ;;
          literal <-
            obf_injection fuel' T (literal_context ctx)
              (obf_compile_time_prng (obf_compile_time_prng seed 3) 1)
              (literal_cycles ctx) size_t_minus1 ;;
          Some (version4 C CINV literal RecursiveInjection)
      | 5%nat =>
          let availCycles := cycles - own_min_cycles ctx cc 3 3 in
          assert! (0 <=? availCycles) ;;
          halfT <- obf_half_size_int T ;;
          '(cycles_lo, cycles_hi) <-
            split_two (obf_compile_time_prng seed 1) availCycles ;;
          '(cycles_loCtx, cycles_loInj) <-
            split_two (obf_compile_time_prng seed 2) cycles_lo ;;
          let RecursiveLoContext :=
            recursive_context_type ctx (obf_compile_time_prng seed 3) cycles_loCtx in
          lo_cc <- context_cycles halfT RecursiveLoContext ;;
          RecursiveInjectionLo <-
            obf_injection fuel' halfT RecursiveLoContext (obf_compile_time_prng seed 4)
              (cycles_loInj + lo_cc) size_t_minus1 ;;
          '(cycles_hiCtx, cycles_hiInj) <-
            split_two (obf_compile_time_prng seed 5) cycles_hi ;;
          let RecursiveHiContext :=
            recursive_context_type ctx (obf_compile_time_prng seed 6) cycles_hiCtx in
          hi_cc <- context_cycles halfT RecursiveHiContext ;;
          RecursiveInjectionHi <-
            obf_injection fuel' halfT RecursiveHiContext (obf_compile_time_prng seed 7)
              (cycles_hiInj + hi_cc) size_t_minus1 ;;
          Some (version5 RecursiveInjectionLo RecursiveInjectionHi)
      | _ => None
      end
  end.

(** *** Literals and variables *)

(** An integral type [T_]: its unsigned counterpart and its signedness. *)
Record IntType : Type := { make_unsigned : UInt; is_signed : bool }.

(** Conversion to [T_]. *)
Definition to_T_ (T_ : IntType) (z : Z) : Z :=
  let u := to (make_unsigned T_) z in
  if is_signed T_ && (2 ^ (bits (make_unsigned T_) - 1) <=? u)
  then u - 2 ^ bits (make_unsigned T_)
  else u.

(** [obf_literal<T_, C_, seed, cycles>::Injection] and its context. *)
Definition obf_literal_Context (seed cycles : Z) : Context :=
  ObfLiteralContext (obf_compile_time_prng seed 1) cycles.

Definition obf_literal_Injection (fuel : nat) (T_ : IntType) (seed cycles : Z)
  : option Injection :=
  obf_injection fuel (make_unsigned T_) (obf_literal_Context seed cycles)
    (obf_compile_time_prng seed 2) cycles size_t_minus1.

(** [obf_var<T_, seed, cycles>::Injection] and its context. *)
Definition obf_var_Context (seed cycles : Z) : Context :=
  ObfVarContext (obf_compile_time_prng seed 1) cycles.

Definition obf_var_Injection (fuel : nat) (T_ : IntType) (seed cycles : Z)
  : option Injection :=
  obf_injection fuel (make_unsigned T_) (obf_var_Context seed cycles)
    (obf_compile_time_prng seed 2) cycles size_t_minus1.

(** An [obf_var] is its member [val]; [Inj] is the tree of its [Injection]. *)
Definition obf_var_construct (T_ : IntType) (Inj : Injection) (t : Z) (w : World)
  : Rep * World :=
  injection (make_unsigned T_) Inj (to (make_unsigned T_) t) w.

Definition obf_var_assign (T_ : IntType) (Inj : Injection) (this : Rep) (t : Z) (w : World)
  : Rep * World :=
  injection (make_unsigned T_) Inj (to (make_unsigned T_) t) w.

Definition obf_var_value (T_ : IntType) (Inj : Injection) (this : Rep) (w : World)
  : Z * World :=
  let '(u, w) := surjection (make_unsigned T_) Inj this w in
  (to_T_ T_ u, w).

(** [operator++(int)]: the returned copy, the variable afterwards, the world. *)
Definition obf_var_post_increment (T_ : IntType) (Inj : Injection) (this : Rep) (w : World)
  : Rep * Rep * World :=
  let '(v, w) := obf_var_value T_ Inj this w in
  let '(ret, w) := obf_var_construct T_ Inj v w in
  let '(v, w) := obf_var_value T_ Inj this w in
  let '(this, w) := obf_var_assign T_ Inj this (to_T_ T_ (v + 1)) w in
  (ret, this, w).

(** [operator--(int)] *)
Definition obf_var_post_decrement (T_ : IntType) (Inj : Injection) (this : Rep) (w : World)
  : Rep * Rep * World :=
  let '(v, w) := obf_var_value T_ Inj this w in
  let '(ret, w) := obf_var_construct T_ Inj v w in
  let '(v, w) := obf_var_value T_ Inj this w in
  let '(this, w) := obf_var_assign T_ Inj this (to_T_ T_ (v + 1)) w in
  (ret, this, w).

End Build.

(** ** The pass-through variable of a build without a seed *)

(** An [obf_var_dbg<T>] is its member [val]. *)
Definition obf_var_dbg_construct (T : IntType) (t : Z) : Z := to_T_ T t.
Definition obf_var_dbg_assign (T : IntType) (this : Z) (t : Z) : Z := to_T_ T t.
Definition obf_var_dbg_value (T : IntType) (this : Z) : Z := this.

Definition obf_var_dbg_post_increment (T : IntType) (this : Z) : Z * Z :=
  let ret := obf_var_dbg_construct T (obf_var_dbg_value T this) in
  let this := obf_var_dbg_assign T this (obf_var_dbg_value T this + 1) in
  (ret, this).

Definition obf_var_dbg_post_decrement (T : IntType) (this : Z) : Z * Z :=
  let ret := obf_var_dbg_construct T (obf_var_dbg_value T this) in
  let this := obf_var_dbg_assign T this (obf_var_dbg_value T this + 1) in
  (ret, this).

(** ** The specification's wording of the site seed *)

(** The fold of one byte as the specification gives it,
    [acc = acc*33 + acc + byte]. *)
Definition spec_fold_byte (acc : Z) (b : byte) : Z :=
  OBFSEED (acc * 33 + acc + char_value b).

Definition spec_derive_site_seed (buildSeed : Z) (filePath : list byte) (line : Z) : Z :=
  lcg_step (fold_left spec_fold_byte filePath (Z.lxor buildSeed (OBFSEED line))).

(** ** Auxiliary notions for the selection *)

Definition Zsum (l : list Z) : Z := fold_right Z.add 0 l.

(** The condition under which the first loop of [obf_random_obf_from_list]
    records descriptor [i]. *)
Definition eligible (cycles exclude_version : Z) (i : nat) (d : ObfDescriptor) : bool :=
  negb (Z.of_nat i =? exclude_version) && (min_cycles d <=? cycles).

(** The weights the loop writes into [r_weights] ([rec = true]) and
    [nr_weights] ([rec = false]). *)
Fixpoint weights_of (rec : bool) (cycles exclude_version : Z)
    (descr : list ObfDescriptor) (i : nat) : list Z :=
  match descr with
  | [] => []
  | d :: rest =>
      (if eligible cycles exclude_version i d && Bool.eqb (is_recursive d) rec
       then weight d else 0)
      :: weights_of rec cycles exclude_version rest (S i)
  end.

(** ** The invariant of the rolling counter *)

(** The static member [c] of [ObfLiteralContext_version<4, T, seed>] stays
    below [DELTAMOD] and congruent to [CC] modulo [MOD]. *)
Definition counter_invariant (k : Version4) (c : Z) : Prop :=
  0 <= c < DELTAMOD k /\ c mod MOD k = CC k.

(** The constants of [ObfLiteralContext_version<4, uint32_t, 1>] when
    [obf_gen_const] returns its seed. *)
Definition example_version4 : Version4 :=
  {| MOD := 124; CC := 67; MUL1 := 843; DELTA := 104532; MUL2 := 10969;
     DELTAMOD := 1360156; MUL3 := 4301; CC0 := 533391 |}.

(** ** Well-formed trees, their values, and the worlds they run in *)

Section Invariants.

Variable OBFUSCATE_SEED : Z.
Variable obf_gen_const : UInt -> Z -> Z.
Variable OBFUSCATE_DEBUG_DISABLE_ANTI_DEBUG : bool.
Variable OBF_COMPILE_TIME_TESTS : nat.

(** The instantiations a tree refers to do compile. *)
Fixpoint well_formed (T : UInt) (inj : Injection) : Prop :=
  match inj with
  | version0 ctx =>
      context_cycles OBFUSCATE_SEED obf_gen_const OBF_COMPILE_TIME_TESTS T ctx <> None
  | version1 _ r => well_formed T r
  | version2 _ _ r => obf_half_size_int T <> None /\ well_formed T r
  | version3 lo hi r =>
      match obf_half_size_int T with
      | Some halfT => well_formed halfT lo /\ well_formed halfT hi /\ well_formed T r
      | None => False
      end
  | version4 C CINV literal r =>
      to T (C * CINV) = 1 /\ 0 <= CINV < 2 ^ bits T /\
      well_formed T literal /\ well_formed T r
  | version5 lo hi =>
      match obf_half_size_int T with
      | Some halfT => well_formed halfT lo /\ well_formed halfT hi
      | None => False
      end
  end.

(** [r] is a value of [inj]'s [return_type] at type [T]. *)
Fixpoint fits (T : UInt) (inj : Injection) (r : Rep) : Prop :=
  match inj with
  | version0 _ => exists v, r = scalar v /\ 0 <= v < 2 ^ bits T
  | version1 _ i | version2 _ _ i | version3 _ _ i | version4 _ _ _ i => fits T i r
  | version5 lo hi =>
      match obf_half_size_int T, r with
      | Some halfT, lanes a b => fits halfT lo a /\ fits halfT hi b
      | _, _ => False
      end
  end.

(** The worlds a program can be in when no debugger is seen: the debug byte
    is zero (or the check is compiled out), the never-written static of every
    version 1 context holds its initial value, and every rolling counter is
    inside its invariant. *)
Definition world_ok (w : World) : Prop :=
  (OBFUSCATE_DEBUG_DISABLE_ANTI_DEBUG = true \/ obf_peb_2 w = 0) /\
  (forall T seed CC,
      ObfLiteralContext_CC OBFUSCATE_SEED T seed = Some CC ->
      c_version1 w T seed = CC) /\
  (forall T seed k,
      ObfLiteralContext_version4 obf_gen_const OBF_COMPILE_TIME_TESTS T seed = Some k ->
      counter_invariant k (c_version4 w T seed)).

End Invariants.

(** ** Two concrete instantiations *)

(** The tree of [obf_var<uint32_t, 1, 30>] in the build with seed
    0x0c7dfa61a867b125. *)
Definition example_var_tree : Injection :=
  version5
    (version1 3 (version0 (ObfVarContext 14673421054488193520 3)))
    (version1 15
       (version5 (version0 (ObfVarContext 14456408541175185048 1))
                 (version0 (ObfVarContext 13833615605184489617 0)))).

(** The tree of [obf_literal<uint32_t, C, 1, 10>] in the same build: the
    identity over a literal context whose leaf is the debugger-presence one. *)
Definition example_literal_tree : Injection :=
  version0 (ObfLiteralContext 7806831264735756412 10).

(** The tree of [obf_var<uint32_t, 12, 100>] in the same build: its
    multiplicative node (version 4) encodes with a literal whose leaf is the
    debugger-presence one. *)
Definition example_var_tree_100 : Injection :=
  version4 15 4008636143
    (version1 1
       (version3
          (version1 3 (version0 (ObfLiteralContext 7599438061022263592 1)))
          (version1 31 (version0 (ObfLiteralContext 16225104922564752481 9)))
          (version3
             (version0 (ObfLiteralContext 13544036832536885914 0))
             (version0 (ObfLiteralContext 8282020902820800123 0))
             (version1 3
                (version4 15 4008636143
                   (version0 ObfZeroLiteralContext)
                   (version0 (ObfLiteralContext 4025353432212273003 50)))))))
    (version1 15
       (version2 14333313465262302617 12
          (version2 14129914678855223923 0
             (version0 (ObfVarContext 4025353432212273003 100))))).

(** ** What a variable holds *)

(** The variable with member [this] holds the logical value [x]: [value()]
    returns [x] in every world without a debugger (and leaves such a world). *)
Definition obf_var_holds (OBFUSCATE_SEED : Z) (obf_gen_const : UInt -> Z -> Z)
    (OBFUSCATE_DEBUG_DISABLE_ANTI_DEBUG : bool) (OBF_COMPILE_TIME_TESTS : nat)
    (T_ : IntType) (Inj : Injection) (this : Rep) (x : Z) : Prop :=
  forall w,
    world_ok OBFUSCATE_SEED obf_gen_const OBFUSCATE_DEBUG_DISABLE_ANTI_DEBUG
      OBF_COMPILE_TIME_TESTS w ->
    exists w',
      obf_var_value OBFUSCATE_SEED obf_gen_const OBFUSCATE_DEBUG_DISABLE_ANTI_DEBUG
        OBF_COMPILE_TIME_TESTS T_ Inj this w = (x, w') /\
      world_ok OBFUSCATE_SEED obf_gen_const OBFUSCATE_DEBUG_DISABLE_ANTI_DEBUG
        OBF_COMPILE_TIME_TESTS w'.

Definition uint32 : IntType := {| make_unsigned := uint32_t; is_signed := false |}.

(** ** Auxiliary notions for the budget splitter *)

(** The raw shares the first loop of [obf_random_split] draws when no
    conversion overflows: sibling [i] gets [(prng(seed, i+1) >> 32) % weight + 1]. *)
Fixpoint raw_shares (seed : Z) (elements : list ObfDescriptor) (i : nat) : list Z :=
  match elements with
  | [] => []
  | e :: rest =>
      (Z.shiftr (obf_compile_time_prng seed (Pos.of_succ_nat i)) 32 mod weight e + 1)
      :: raw_shares seed rest (S i)
  end.

(** A double that is not a negative number. *)
Definition not_negative (d : spec_float) : Prop :=
  match d with
  | S754_finite s _ _ => s = false
  | _ => True
  end.

(** A sibling of a split: a descriptor with the given floor and weight. *)
Definition sibling (floor weight : Z) : ObfDescriptor :=
  {| is_recursive := true; min_cycles := floor; weight := weight |}.

(** No subtraction of the first loop of [obf_random_split] overflows: every
    value [leftovers] takes lies in the range of [OBFCYCLES]. *)
Fixpoint leftovers_fit (leftovers : Z) (elements : list ObfDescriptor) : Prop :=
  match elements with
  | [] => True
  | e :: rest =>
      - 2 ^ 31 <= leftovers - min_cycles e < 2 ^ 31 /\
      leftovers_fit (leftovers - min_cycles e) rest
  end.



(** ** Literals and the remaining operators of a variable *)

(** [v op t] as C++ computes it before the result is converted back to [T_]:
    operands below 32 bits are promoted to [int], unsigned operands of 32 or 64
    bits compute modulo [2^bits], and a signed result that does not fit is
    undefined. *)
Definition arith_T_ (T_ : IntType) (z : Z) : option Z :=
  let w := bits (make_unsigned T_) in
  if w <? 32 then
    assert! ((- 2 ^ 31 <=? z) && (z <? 2 ^ 31)) ;; Some z
  else if is_signed T_ then
    assert! ((- 2 ^ (w - 1) <=? z) && (z <? 2 ^ (w - 1))) ;; Some z
  else Some (to (make_unsigned T_) z).

Section Operators.

Variable OBFUSCATE_SEED : Z.
Variable obf_gen_const : UInt -> Z -> Z.
Variable OBFUSCATE_DEBUG_DISABLE_ANTI_DEBUG : bool.
Variable OBF_COMPILE_TIME_TESTS : nat.

(** An [obf_literal<T_, C_, seed, cycles>] is its member [val]; [value()]
    returns the unsigned [T]. *)
Definition obf_literal_construct (T_ : IntType) (Inj : Injection) (C_ : Z) (w : World)
  : Rep * World :=
  injection OBFUSCATE_SEED obf_gen_const OBFUSCATE_DEBUG_DISABLE_ANTI_DEBUG
    OBF_COMPILE_TIME_TESTS (make_unsigned T_) Inj (to (make_unsigned T_) C_) w.

Definition obf_literal_value (T_ : IntType) (Inj : Injection) (val : Rep) (w : World)
  : Z * World :=
  surjection OBFUSCATE_SEED obf_gen_const OBFUSCATE_DEBUG_DISABLE_ANTI_DEBUG
    OBF_COMPILE_TIME_TESTS (make_unsigned T_) Inj val w.

(** [*this = value() op t] for the result [f v] of the operation. *)
Definition obf_var_update (T_ : IntType) (Inj : Injection) (f : Z -> Z)
    (this : Rep) (w : World) : option (Rep * World) :=
  let '(v, w) :=
    obf_var_value OBFUSCATE_SEED obf_gen_const OBFUSCATE_DEBUG_DISABLE_ANTI_DEBUG
      OBF_COMPILE_TIME_TESTS T_ Inj this w in
  r <- arith_T_ T_ (f v) ;;
  Some (obf_var_assign OBFUSCATE_SEED obf_gen_const OBFUSCATE_DEBUG_DISABLE_ANTI_DEBUG
          OBF_COMPILE_TIME_TESTS T_ Inj this (to_T_ T_ r) w).

(** [operator++()], [operator--()], [operator+=], [operator-=], [operator*=]
    with an operand of type [T_]. *)
Definition obf_var_pre_increment (T_ : IntType) (Inj : Injection) :=
  obf_var_update T_ Inj (fun v => v + 1).
Definition obf_var_pre_decrement (T_ : IntType) (Inj : Injection) :=
  obf_var_update T_ Inj (fun v => v - 1).
Definition obf_var_add_assign (T_ : IntType) (Inj : Injection) (t : Z) :=
  obf_var_update T_ Inj (fun v => v + t).
Definition obf_var_sub_assign (T_ : IntType) (Inj : Injection) (t : Z) :=
  obf_var_update T_ Inj (fun v => v - t).
Definition obf_var_mul_assign (T_ : IntType) (Inj : Injection) (t : Z) :=
  obf_var_update T_ Inj (fun v => v * t).

(** [obf_var(obf_var<T2, seed2, cycles2> t)] and the assignment from another
    variable: [val = Injection::injection(T(T_(t.value())))]. *)
Definition obf_var_convert (T_ : IntType) (Inj : Injection)
    (T2 : IntType) (Inj2 : Injection) (t : Rep) (w : World) : Rep * World :=
  let '(v, w) :=
    obf_var_value OBFUSCATE_SEED obf_gen_const OBFUSCATE_DEBUG_DISABLE_ANTI_DEBUG
      OBF_COMPILE_TIME_TESTS T2 Inj2 t w in
  injection OBFUSCATE_SEED obf_gen_const OBFUSCATE_DEBUG_DISABLE_ANTI_DEBUG
    OBF_COMPILE_TIME_TESTS (make_unsigned T_) Inj
    (to (make_unsigned T_) (to_T_ T_ v)) w.

End Operators.

(** The pass-through variable: [operator++()], [operator--()] and the compound
    assignments with an operand of type [T]. *)
Definition obf_var_dbg_update (T : IntType) (f : Z -> Z) (this : Z) : option Z :=
  r <- arith_T_ T (f (obf_var_dbg_value T this)) ;;
  Some (obf_var_dbg_assign T this r).

(** ** Auxiliary notions for the added properties *)

(** The sum of the first [j] weights. *)
Definition prefix_weight (weights : list Z) (j : nat) : Z := Zsum (firstn j weights).

(** A literal context on a budget below 100 cycles, and a budget below 100
    cycles for the injection over it: the rolling-counter context, which costs
    100 cycles, is then out of reach here and in every nested context. *)
Definition no_rolling_counter (ctx : Context) (cycles : Z) : Prop :=
  match ctx with
  | ObfLiteralContext _ c => 0 <= c < 100 /\ cycles < 100
  | _ => True
  end.
(** * Properties *)

(** ** Fixed-width arithmetic *)

Lemma bits_cases (T : UInt) : bits T = 8 \/ bits T = 16 \/ bits T = 32 \/ bits T = 64.
Proof. destruct T; cbv; auto. Qed.

Lemma bits_pos (T : UInt) : 0 < bits T.
Proof. destruct T; reflexivity. Qed.

Lemma pow_bits_pos (T : UInt) : 0 < 2 ^ bits T.
Proof. apply Z.pow_pos_nonneg; [lia | pose proof (bits_pos T); lia]. Qed.

Lemma to_range (T : UInt) (z : Z) : 0 <= to T z < 2 ^ bits T.
Proof. unfold to, wrap. apply Z.mod_pos_bound, pow_bits_pos. Qed.

Lemma to_small (T : UInt) (z : Z) : 0 <= z < 2 ^ bits T -> to T z = z.
Proof. intros H. unfold to, wrap. now apply Z.mod_small. Qed.

Lemma to_to (T : UInt) (z : Z) : to T (to T z) = to T z.
Proof. unfold to, wrap. apply Z.mod_mod. pose proof (pow_bits_pos T); lia. Qed.

Lemma to_add_l (T : UInt) (a b : Z) : to T (to T a + b) = to T (a + b).
Proof. unfold to, wrap. apply Z.add_mod_idemp_l. pose proof (pow_bits_pos T); lia. Qed.

Lemma to_add_r (T : UInt) (a b : Z) : to T (a + to T b) = to T (a + b).
Proof. unfold to, wrap. apply Z.add_mod_idemp_r. pose proof (pow_bits_pos T); lia. Qed.

Lemma to_sub_l (T : UInt) (a b : Z) : to T (to T a - b) = to T (a - b).
Proof. unfold to, wrap. apply Zminus_mod_idemp_l. Qed.

Lemma to_sub_r (T : UInt) (a b : Z) : to T (a - to T b) = to T (a - b).
Proof. unfold to, wrap. apply Zminus_mod_idemp_r. Qed.

Lemma to_mul_l (T : UInt) (a b : Z) : to T (to T a * b) = to T (a * b).
Proof. unfold to, wrap. apply Z.mul_mod_idemp_l. pose proof (pow_bits_pos T); lia. Qed.

Lemma to_mul_r (T : UInt) (a b : Z) : to T (a * to T b) = to T (a * b).
Proof. unfold to, wrap. apply Z.mul_mod_idemp_r. pose proof (pow_bits_pos T); lia. Qed.

Lemma to_arith (T : UInt) (z : Z) : to T (arith T z) = to T z.
Proof. unfold arith. destruct (bits T <? 32); [reflexivity | apply to_to]. Qed.

Lemma max_value_eq (T : UInt) : max_value T = 2 ^ bits T - 1.
Proof. destruct T; reflexivity. Qed.

Lemma Some_inj {A : Type} (a b : A) : Some a = Some b -> a = b.
Proof. congruence. Qed.

Lemma to_wrap_once (T : UInt) (z : Z) :
  2 ^ bits T <= z < 2 * 2 ^ bits T -> to T z = z - 2 ^ bits T.
Proof.
  intros H. unfold to, wrap.
  rewrite <- (Z.mod_add z (-1) (2 ^ bits T)) by lia.
  apply Z.mod_small. lia.
Qed.

Lemma pow_half_bits (T : UInt) :
  0 <= sizeof T * 4 /\ 0 < 2 ^ (sizeof T * 4) /\
  2 * 2 ^ (sizeof T * 4) <= 2 ^ bits T /\ 200 < 2 ^ bits T.
Proof. destruct T; vm_compute; intuition discriminate. Qed.

(** ** The site seed *)

Lemma djb2_loop_fold (file : list byte) (ret : Z) :
  Forall (fun b => b <> x00) file ->
  djb2_loop file ret =
  fold_left (fun acc b => OBFSEED (33 * acc + char_value b)) file ret.
Proof.
  intros H. revert ret.
  induction H as [| b rest Hb _ IH]; intros ret; cbn [djb2_loop fold_left].
  - reflexivity.
  - destruct (Byte.eqb b x00) eqn:E.
    + apply Byte.byte_dec_bl in E. contradiction.
    + rewrite IH. f_equal. rewrite Z.shiftl_mul_pow2 by lia.
      f_equal. change (2 ^ 5) with 32. lia.
Qed.

(** C8 (as amended): the site seed is the build seed xor-ed with the line,
    folded over every byte of the path by [acc = (acc << 5) + acc + byte],
    that is [33 * acc + byte] modulo [2^64], and advanced by exactly one step
    of the linear congruential generator with multiplier 6364136223846793005
    and increment 1442695040888963407 modulo [2^64]. *)
Theorem obf_seed_from_file_line_djb2
    (OBFUSCATE_SEED : Z) (file : list byte) (line : Z) :
  Forall (fun b => b <> x00) file ->
  obf_seed_from_file_line OBFUSCATE_SEED file line =
  (6364136223846793005
   * fold_left (fun acc b => (33 * acc + char_value b) mod 2 ^ 64) file
       (Z.lxor OBFUSCATE_SEED (line mod 2 ^ 64))
   + 1442695040888963407) mod 2 ^ 64.
Proof.
  intros H. unfold obf_seed_from_file_line, obf_compile_time_prng.
  rewrite djb2_loop_fold by assumption. reflexivity.
Qed.

Lemma obf_seed_from_file_line_djb2_witness :
  Forall (fun b => b <> x00) [x6d; x2e; x68] /\
  obf_seed_from_file_line 1 [x6d; x2e; x68] 7 =
  (6364136223846793005
   * fold_left (fun acc b => (33 * acc + char_value b) mod 2 ^ 64) [x6d; x2e; x68]
       (Z.lxor 1 (7 mod 2 ^ 64))
   + 1442695040888963407) mod 2 ^ 64.
Proof.
  assert (H : Forall (fun b => b <> x00) [x6d; x2e; x68])
    by (repeat constructor; discriminate).
  split; [exact H | exact (obf_seed_from_file_line_djb2 1 [x6d; x2e; x68] 7 H)].
Defined.

(** C8 (as stated) fails: with build seed 1, path "a" and line 0 the code folds
    the byte into [33 * 1 + 97], the wording [acc*33 + acc + byte] into
    [34 * 1 + 97], and the two site seeds differ. *)
Lemma obf_seed_from_file_line_not_34 :
  obf_seed_from_file_line 1 [x61] 0 <> spec_derive_site_seed 1 [x61] 0.
Proof. vm_compute. discriminate. Qed.

(** ** The inverse modulo [2^bits] *)

Lemma to_congr_sub_mul (T : UInt) (a a' b b' q : Z) :
  to T a = to T a' -> to T b = to T b' ->
  to T (a - q * b) = to T (a' - q * b').
Proof.
  intros Ha Hb.
  rewrite <- (to_sub_l T a), <- (to_sub_r T _ (q * b)), <- (to_mul_r T q b).
  rewrite Ha, Hb.
  rewrite to_mul_r, to_sub_r, to_sub_l. reflexivity.
Qed.

Lemma euclid_step_halves (m n : Z) :
  0 < n < m -> 2 * (m mod n) < m.
Proof.
  intros H.
  pose proof (Z.mod_pos_bound m n ltac:(lia)) as Hr.
  pose proof (Z.div_mod m n ltac:(lia)) as Hd.
  assert (1 <= m / n) by (apply Z.div_le_lower_bound; lia).
  nia.
Qed.

(** The loop ends within its budget and keeps [lasty * num0 = mod] and
    [y * num0 = num] modulo [2^bits]; it stops at [mod = gcd = 1]. *)
Lemma obf_mul_inverse_loop_total (T : UInt) (num0 : Z) (fuel : nat) :
  forall mod_ num x lastx y lasty,
    0 <= num < mod_ ->
    mod_ * num < 2 ^ (Z.of_nat fuel - 1) ->
    Z.gcd mod_ num = 1 ->
    to T (lasty * num0) = to T mod_ ->
    to T (y * num0) = to T num ->
    exists inv,
      obf_mul_inverse_loop fuel T mod_ num x lastx y lasty = Some inv /\
      to T (inv * num0) = to T 1.
Proof.
  induction fuel as [| fuel IH]; intros mod_ num x lastx y lasty Hn Hf Hg Hl Hy.
  - exfalso. change (2 ^ (Z.of_nat 0 - 1)) with 0 in Hf. nia.
  - cbn [obf_mul_inverse_loop].
    destruct (Z.eqb_spec num 0) as [-> | Hnz].
    + exists lasty. split; [reflexivity |].
      rewrite Z.gcd_0_r, Z.abs_eq in Hg by lia. now rewrite Hl, Hg.
    + assert (Hn' : 0 < num < mod_) by lia.
      pose proof (Z.mod_pos_bound mod_ num ltac:(lia)) as Hr.
      pose proof (euclid_step_halves mod_ num Hn') as Hh.
      apply IH.
      * lia.
      * replace (Z.of_nat (S fuel) - 1) with (Z.of_nat fuel) in Hf by lia.
        destruct fuel as [| fuel'].
        { change (2 ^ Z.of_nat 0) with 1 in Hf. nia. }
        replace (Z.of_nat (S fuel') - 1) with (Z.of_nat fuel') by lia.
        replace (Z.of_nat (S fuel')) with (Z.of_nat fuel' + 1) in Hf by lia.
        rewrite Z.pow_add_r in Hf by lia. change (2 ^ 1) with 2 in Hf.
        nia.
      * rewrite Z.gcd_comm, Z.gcd_mod by lia. now rewrite Z.gcd_comm.
      * exact Hy.
      * rewrite to_mul_l.
        replace ((lasty - to T (mod_ / num * y)) * num0)
          with (lasty * num0 - to T (mod_ / num * y) * num0) by ring.
        rewrite <- (to_sub_r T _ (to T _ * num0)), to_mul_l.
        replace (mod_ / num * y * num0) with (mod_ / num * (y * num0)) by ring.
        rewrite to_sub_r.
        rewrite (to_congr_sub_mul T _ mod_ _ num (mod_ / num) Hl Hy).
        f_equal. rewrite Z.mod_eq by lia. ring.
Qed.

(** C2: for every odd [num] of an unsigned type [T] of 8, 16, 32 or 64 bits,
    [obf_mul_inverse_mod2n(num)] returns a value [inv] of that type with
    [T(num * inv) == T(1)], that is [num * inv = 1] modulo [2^bits]. *)
Theorem obf_mul_inverse_mod2n_correct (T : UInt) (num : Z) :
  0 <= num < 2 ^ bits T ->
  Z.odd num = true ->
  exists inv,
    obf_mul_inverse_mod2n T num = Some inv /\
    to T (num * inv) = to T 1 /\
    (num * inv) mod 2 ^ bits T = 1.
Proof.
  intros Hr Hodd.
  assert (Hone : to T 1 = 1) by (destruct T; reflexivity).
  enough (exists inv, obf_mul_inverse_mod2n T num = Some inv /\ to T (num * inv) = to T 1)
    as (inv & H1 & H2).
  { exists inv. repeat split; auto. unfold to, wrap in H2, Hone. congruence. }
  pose proof (pow_bits_pos T) as HM. pose proof (bits_pos T) as HW.
  assert (Hland : Z.land num 1 = 1).
  { change 1 with (Z.ones 1) at 1. rewrite Z.land_ones by lia.
    rewrite Zmod_odd, Hodd. reflexivity. }
  assert (Hnum0 : 0 < num).
  { destruct (Z.eq_dec num 0) as [-> |]; [discriminate | lia]. }
  assert (Heven : Z.even (2 ^ bits T) = true).
  { replace (bits T) with (1 + (bits T - 1)) by lia.
    rewrite Z.pow_add_r by lia. rewrite Z.even_mul. reflexivity. }
  assert (Hneg : forall k, 0 < k <= 2 ^ bits T -> to T (0 - k) = 2 ^ bits T - k).
  { intros k Hk. unfold to, wrap.
    replace (0 - k) with (2 ^ bits T - k + (-1) * 2 ^ bits T) by ring.
    rewrite Z.mod_add by lia. apply Z.mod_small. lia. }
  unfold obf_mul_inverse_mod2n. rewrite Hland. cbn [Z.eqb negb]. cbv zeta.
  rewrite (Hneg 1) by lia.
  destruct (Z.eqb_spec num (2 ^ bits T - 1)) as [-> | Hne].
  - exists (2 ^ bits T - 1). split; [reflexivity |].
    unfold to, wrap.
    replace ((2 ^ bits T - 1) * (2 ^ bits T - 1))
      with (1 + (2 ^ bits T - 2) * 2 ^ bits T) by ring.
    now rewrite Z.mod_add by lia.
  - assert (Hle : num <= 2 ^ bits T - 3).
    { destruct (Z.eq_dec num (2 ^ bits T - 2)) as [E |]; [| lia].
      exfalso. rewrite E in Hodd.
      replace (2 ^ bits T - 2) with (2 ^ bits T + 2 * (-1)) in Hodd by ring.
      rewrite Z.odd_add_mul_2, <- Z.negb_even, Heven in Hodd. discriminate. }
    assert (H256 : 256 <= 2 ^ bits T).
    { change 256 with (2 ^ 8). apply Z.pow_le_mono_r; [lia |].
      destruct (bits_cases T) as [-> | [-> | [-> | ->]]]; lia. }
    pose proof (Z.mod_pos_bound (2 ^ bits T - 2) num ltac:(lia)) as Hm2.
    pose proof (Z.mod_pos_bound (2 ^ bits T) num ltac:(lia)) as Hm.
    rewrite (Hneg 2) by lia. rewrite (Hneg num) by lia.
    rewrite (to_small T ((2 ^ bits T - 2) mod num)) by lia.
    assert (Ht1 : to T (arith T ((2 ^ bits T - 2) mod num + 2) mod num)
                  = 2 ^ bits T mod num).
    { assert (Ha : arith T ((2 ^ bits T - 2) mod num + 2)
                   = (2 ^ bits T - 2) mod num + 2).
      { unfold arith. destruct (bits T <? 32); [reflexivity |].
        apply to_small. lia. }
      rewrite Ha, Z.add_mod_idemp_l by lia.
      replace (2 ^ bits T - 2 + 2) with (2 ^ bits T) by ring.
      apply to_small. lia. }
    rewrite Ht1.
    assert (Hq : to T (to T ((2 ^ bits T - num) / num) + 1)
                 = to T (2 ^ bits T / num)).
    { rewrite to_add_l. f_equal.
      replace (2 ^ bits T - num) with (2 ^ bits T + (-1) * num) by ring.
      rewrite Z.div_add by lia. ring. }
    rewrite Hq.
    destruct (obf_mul_inverse_loop_total T num (Z.to_nat (2 * bits T + 2))
                num (2 ^ bits T mod num)
                (to T (1 - to T (to T (2 ^ bits T / num) * 0))) 0
                (to T (0 - to T (to T (2 ^ bits T / num) * 1))) 1)
      as (inv & Hloop & Hinv).
    + lia.
    + rewrite Z2Nat.id by lia.
      replace (2 * bits T + 2 - 1) with (bits T + bits T + 1) by ring.
      rewrite !Z.pow_add_r by lia. change (2 ^ 1) with 2. nia.
    + rewrite Z.gcd_comm, Z.gcd_mod by lia.
      apply Z.coprime_pow_r; [lia |].
      apply Z.coprime_mod_l_iff.
      rewrite Zmod_odd, Hodd. apply Z.coprime_1_l.
    + now rewrite Z.mul_1_l.
    + rewrite Z.mul_1_r, to_to, to_sub_r, to_mul_l.
      replace ((0 - 2 ^ bits T / num) * num)
        with (2 ^ bits T mod num + (- 1) * 2 ^ bits T)
        by (rewrite Z.mod_eq by lia; ring).
      unfold to, wrap. now rewrite Z.mod_add by lia.
    + exists inv. rewrite Hloop. cbn [bind].
      rewrite (Z.mul_comm num inv), Hinv, Z.eqb_refl. split; reflexivity.
Qed.

Lemma obf_mul_inverse_mod2n_correct_witness :
  exists inv,
    obf_mul_inverse_mod2n uint32_t 31 = Some inv /\
    to uint32_t (31 * inv) = to uint32_t 1 /\
    (31 * inv) mod 2 ^ bits uint32_t = 1.
Proof.
  apply (obf_mul_inverse_mod2n_correct uint32_t 31); [vm_compute; split; congruence | reflexivity].
Defined.

(** ** Weighted choice and strategy selection *)

Lemma wrap_range (w z : Z) : 0 <= w -> 0 <= wrap w z < 2 ^ w.
Proof. intros H. unfold wrap. apply Z.mod_pos_bound. now apply Z.pow_pos_nonneg. Qed.

Lemma size_t_range (z : Z) : 0 <= size_t z < 2 ^ 64.
Proof. apply wrap_range. lia. Qed.

Lemma size_t_small (z : Z) : 0 <= z < 2 ^ 64 -> size_t z = z.
Proof. intros H. unfold size_t, wrap. now apply Z.mod_small. Qed.

Lemma sum_weights_from (ws : list Z) (acc : Z) :
  fold_left (fun totalWeight w => size_t (totalWeight + w)) ws (size_t acc)
  = size_t (acc + Zsum ws).
Proof.
  revert acc. induction ws as [| w ws IH]; intros acc; cbn [fold_left Zsum fold_right].
  - now rewrite Z.add_0_r.
  - replace (size_t (size_t acc + w)) with (size_t (acc + w)).
    + rewrite IH. f_equal. fold (Zsum ws). ring.
    + unfold size_t, wrap. now rewrite Z.add_mod_idemp_l by lia.
Qed.

Lemma sum_weights_Zsum (ws : list Z) : sum_weights ws = size_t (Zsum ws).
Proof.
  unfold sum_weights. change 0 with (size_t 0) at 1. now rewrite sum_weights_from.
Qed.

Lemma obf_weak_random_range (seed n r : Z) :
  0 < n -> obf_weak_random seed n = Some r -> 0 <= r < n.
Proof.
  unfold obf_weak_random. intros Hn.
  destruct (Z.eqb_spec n 0); [lia |]. intros [= <-].
  now apply Z.mod_pos_bound.
Qed.

Lemma obf_weak_random_some (seed n : Z) :
  0 < n -> obf_weak_random seed n = Some (Z.shiftr seed 32 mod n).
Proof.
  unfold obf_weak_random. intros Hn. now destruct (Z.eqb_spec n 0); [lia |].
Qed.

(** The walk only ever stops on a positive weight. *)
Lemma obf_random_from_list_walk_pos (weights : list Z) :
  forall refWeight i j,
    0 <= refWeight ->
    obf_random_from_list_walk weights refWeight i = Some j ->
    (i <= j)%nat /\ exists w, nth_error weights (j - i) = Some w /\ 0 < w.
Proof.
  induction weights as [| w ws IH]; intros r i j Hr H; cbn in H; [discriminate |].
  destruct (Z.ltb_spec r w) as [Hlt | Hge].
  - injection H as <-. split; [lia |]. rewrite Nat.sub_diag. exists w. split; [reflexivity | lia].
  - apply IH in H; [| apply size_t_range].
    destruct H as (Hle & w' & Hn & Hw). split; [lia |].
    exists w'. split; [| exact Hw].
    replace (j - i)%nat with (S (j - S i)) by lia. exact Hn.
Qed.

Lemma obf_random_from_list_pos (seed : Z) (weights : list Z) (j : nat) :
  obf_random_from_list seed weights = Some j ->
  exists w, nth_error weights j = Some w /\ 0 < w.
Proof.
  unfold obf_random_from_list. intros H.
  destruct (obf_weak_random seed (sum_weights weights)) as [r |] eqn:Hr; [| discriminate].
  cbn [bind] in H.
  destruct (r <? sum_weights weights); [| discriminate].
  assert (Hpos : 0 < sum_weights weights).
  { unfold obf_weak_random in Hr.
    destruct (Z.eqb_spec (sum_weights weights) 0); [discriminate |].
    rewrite sum_weights_Zsum in *. pose proof (size_t_range (Zsum weights)). lia. }
  apply obf_weak_random_range in Hr; [| exact Hpos].
  apply obf_random_from_list_walk_pos in H; [| lia].
  destruct H as (_ & w & Hn & Hw). rewrite Nat.sub_0_r in Hn. eauto.
Qed.

(** The walk finds an index whenever the reference weight is below the sum. *)
Lemma obf_random_from_list_walk_total (weights : list Z) :
  forall refWeight i,
    Forall (fun w => 0 <= w) weights ->
    0 <= refWeight < Zsum weights ->
    Zsum weights < 2 ^ 64 ->
    exists j, obf_random_from_list_walk weights refWeight i = Some j.
Proof.
  induction weights as [| w ws IH]; intros r i Hnn Hr Hs; cbn [Zsum fold_right] in *.
  - lia.
  - inversion Hnn as [| ? ? Hw Hws]; subst. fold (Zsum ws) in *.
    cbn [obf_random_from_list_walk].
    destruct (Z.ltb_spec r w); [eauto |].
    assert (Hge : 0 <= Zsum ws).
    { clear -Hws. induction Hws; cbn; [lia |]. fold (Zsum l). lia. }
    rewrite size_t_small by lia.
    apply IH; [assumption | lia | lia].
Qed.

Lemma Zsum_nonneg (ws : list Z) : Forall (fun w => 0 <= w) ws -> 0 <= Zsum ws.
Proof. induction 1; cbn; [lia |]. fold (Zsum l). lia. Qed.

Lemma obf_random_from_list_total (seed : Z) (weights : list Z) :
  Forall (fun w => 0 <= w) weights ->
  0 < Zsum weights < 2 ^ 64 ->
  exists j, obf_random_from_list seed weights = Some j.
Proof.
  intros Hnn Hs. unfold obf_random_from_list.
  rewrite sum_weights_Zsum, size_t_small by lia.
  rewrite obf_weak_random_some by lia. cbn [bind].
  pose proof (Z.mod_pos_bound (Z.shiftr seed 32) (Zsum weights) ltac:(lia)) as Hr.
  destruct (Z.ltb_spec (Z.shiftr seed 32 mod Zsum weights) (Zsum weights)); [| lia].
  apply obf_random_from_list_walk_total; [assumption | lia | lia].
Qed.

(** The first loop of the selection, list by list. *)
Lemma obf_partition_weights_spec (cycles exclude_version : Z)
    (descr : list ObfDescriptor) :
  forall i,
    obf_partition_weights cycles exclude_version descr i =
    (weights_of true cycles exclude_version descr i,
     weights_of false cycles exclude_version descr i,
     size_t (Zsum (weights_of true cycles exclude_version descr i)),
     size_t (Zsum (weights_of false cycles exclude_version descr i))).
Proof.
  induction descr as [| d rest IH]; intros i.
  - reflexivity.
  - cbn [obf_partition_weights weights_of]. rewrite IH. unfold eligible.
    assert (Hadd : forall a b, size_t (size_t a + b) = size_t (b + a)).
    { intros a b. unfold size_t, wrap. rewrite Z.add_mod_idemp_l by lia.
      f_equal. ring. }
    destruct (negb (Z.of_nat i =? exclude_version) && (min_cycles d <=? cycles));
      destruct (is_recursive d); cbn [andb Bool.eqb Zsum fold_right];
      rewrite ?Hadd; reflexivity.
Qed.

Lemma weights_of_nth (rec : bool) (cycles exclude_version : Z)
    (descr : list ObfDescriptor) :
  forall i j w,
    nth_error (weights_of rec cycles exclude_version descr i) j = Some w ->
    0 < w ->
    exists d, nth_error descr j = Some d /\
              eligible cycles exclude_version (i + j) d = true /\
              is_recursive d = rec /\ weight d = w.
Proof.
  induction descr as [| d rest IH]; intros i j w Hn Hw.
  - destruct j; discriminate.
  - destruct j as [| j]; cbn [weights_of nth_error] in Hn.
    + injection Hn as Hn. exists d. rewrite Nat.add_0_r.
      destruct (eligible cycles exclude_version i d); [| cbn in Hn; lia].
      destruct (Bool.eqb (is_recursive d) rec) eqn:E; [| cbn in Hn; lia].
      apply Bool.eqb_prop in E. cbn in Hn. auto.
    + apply IH in Hn; [| exact Hw]. destruct Hn as (d' & H1 & H2 & H3 & H4).
      exists d'. replace (i + S j)%nat with (S i + j)%nat by lia. auto.
Qed.

(** What the selection guarantees of the index it returns: the descriptor has
    a positive weight, fits the budget and is not the excluded one; a
    non-recursive one is returned only when no recursive one qualifies. *)
Lemma obf_random_obf_from_list_selected (seed cycles : Z)
    (descr : list ObfDescriptor) (exclude_version : Z) (which : nat) :
  obf_random_obf_from_list seed cycles descr exclude_version = Some which ->
  exists d, nth_error descr which = Some d /\
            0 < weight d /\ min_cycles d <= cycles /\
            Z.of_nat which <> exclude_version /\
            (is_recursive d = false ->
             size_t (Zsum (weights_of true cycles exclude_version descr 0)) = 0).
Proof.
  unfold obf_random_obf_from_list. rewrite obf_partition_weights_spec.
  intros H.
  destruct (Z.eqb_spec (size_t (Zsum (weights_of true cycles exclude_version descr 0))) 0)
    as [E | E]; cbn [negb] in H.
  - destruct (0 <? _); [| discriminate].
    apply obf_random_from_list_pos in H. destruct H as (w & Hn & Hw).
    apply weights_of_nth in Hn; [| exact Hw].
    destruct Hn as (d & H1 & H2 & H3 & H4). exists d.
    unfold eligible in H2. apply andb_prop in H2. destruct H2 as [Hx Hc].
    apply negb_true_iff, Z.eqb_neq in Hx. apply Z.leb_le in Hc.
    repeat split; auto; lia.
  - apply obf_random_from_list_pos in H. destruct H as (w & Hn & Hw).
    apply weights_of_nth in Hn; [| exact Hw].
    destruct Hn as (d & H1 & H2 & H3 & H4). exists d.
    unfold eligible in H2. apply andb_prop in H2. destruct H2 as [Hx Hc].
    apply negb_true_iff, Z.eqb_neq in Hx. apply Z.leb_le in Hc.
    repeat split; auto; try lia. congruence.
Qed.

Lemma weights_of_nonneg (rec : bool) (cycles exclude_version : Z)
    (descr : list ObfDescriptor) :
  Forall (fun d => 0 <= weight d) descr ->
  forall i,
    Forall (fun w => 0 <= w) (weights_of rec cycles exclude_version descr i) /\
    Zsum (weights_of rec cycles exclude_version descr i) <= Zsum (map weight descr).
Proof.
  induction 1 as [| d rest Hd _ IH]; intros i; cbn [weights_of map Zsum fold_right].
  - split; [constructor | lia].
  - destruct (IH (S i)) as [IH1 IH2]. fold (Zsum (map weight rest)).
    fold (Zsum (weights_of rec cycles exclude_version rest (S i))).
    destruct (eligible cycles exclude_version i d && Bool.eqb (is_recursive d) rec);
      (split; [constructor; [lia | exact IH1] | lia]).
Qed.

Lemma weights_of_ge (rec : bool) (cycles exclude_version : Z)
    (descr : list ObfDescriptor) :
  Forall (fun d => 0 <= weight d) descr ->
  forall i j d,
    nth_error descr j = Some d ->
    eligible cycles exclude_version (i + j) d = true ->
    is_recursive d = rec ->
    weight d <= Zsum (weights_of rec cycles exclude_version descr i).
Proof.
  induction 1 as [| d0 rest Hd Hrest IH]; intros i j d Hn He Hr.
  - destruct j; discriminate.
  - cbn [weights_of Zsum fold_right].
    fold (Zsum (weights_of rec cycles exclude_version rest (S i))).
    pose proof (proj1 (weights_of_nonneg rec cycles exclude_version rest Hrest (S i))) as Hnn.
    apply Zsum_nonneg in Hnn.
    destruct j as [| j]; cbn [nth_error] in Hn.
    + injection Hn as ->. rewrite Nat.add_0_r in He. rewrite He, Hr, Bool.eqb_reflx.
      cbn [andb]. lia.
    + replace (i + S j)%nat with (S i + j)%nat in He by lia.
      specialize (IH (S i) j d Hn He Hr).
      destruct (eligible cycles exclude_version i d0 && Bool.eqb (is_recursive d0) rec); lia.
Qed.

Lemma obf_injection_descr_weights (T : UInt) (ctx : Context) (cc : Z) :
  Forall (fun d => 0 <= weight d) (obf_injection_descr T ctx cc) /\
  Zsum (map weight (obf_injection_descr T ctx cc)) <= 501.
Proof.
  unfold obf_injection_descr, obf_injection_version2_descr, obf_injection_version3_descr,
    obf_injection_version5_descr, wide_only.
  destruct (1 <? sizeof T); cbn; (split; [repeat constructor; cbn; lia | lia]).
Qed.

(** The selection returns an index whenever some descriptor with a positive
    weight qualifies. *)
Lemma obf_random_obf_from_list_total (seed cycles : Z)
    (descr : list ObfDescriptor) (exclude_version : Z) :
  Forall (fun d => 0 <= weight d) descr ->
  Zsum (map weight descr) < 2 ^ 64 ->
  0 < Zsum (weights_of true cycles exclude_version descr 0)
      + Zsum (weights_of false cycles exclude_version descr 0) ->
  exists which,
    obf_random_obf_from_list seed cycles descr exclude_version = Some which.
Proof.
  intros Hnn Hs Hpos. unfold obf_random_obf_from_list.
  rewrite obf_partition_weights_spec.
  destruct (weights_of_nonneg true cycles exclude_version descr Hnn 0) as [Hr1 Hr2].
  destruct (weights_of_nonneg false cycles exclude_version descr Hnn 0) as [Hn1 Hn2].
  pose proof (Zsum_nonneg _ Hr1). pose proof (Zsum_nonneg _ Hn1).
  rewrite !size_t_small by lia.
  destruct (Z.eqb_spec (Zsum (weights_of true cycles exclude_version descr 0)) 0)
    as [E | E]; cbn [negb].
  - destruct (Z.ltb_spec 0 (Zsum (weights_of false cycles exclude_version descr 0))); [| lia].
    apply obf_random_from_list_total; [assumption | lia].
  - apply obf_random_from_list_total; [assumption | lia].
Qed.

(** C7 (as amended): for every budget that covers the cost of the context
    ([context_cycles <= cycles]) and every exclusion other than the identity
    itself, the identity strategy is eligible, at a cost of [context_cycles]
    (zero for variable and zero-literal contexts), so the non-recursive set is
    never empty: [sum_nr > 0] holds and the selection returns an index. *)
Theorem identity_always_eligible
    (T : UInt) (ctx : Context) (cc seed cycles exclude_version : Z) :
  cc <= cycles ->
  exclude_version <> 0 ->
  min_cycles (obf_injection_version0_descr ctx cc) = cc /\
  eligible cycles exclude_version 0 (obf_injection_version0_descr ctx cc) = true /\
  (let '(_, _, _, sum_nr) :=
     obf_partition_weights cycles exclude_version (obf_injection_descr T ctx cc) 0 in
   0 < sum_nr) /\
  exists which,
    obf_random_obf_from_list seed cycles (obf_injection_descr T ctx cc) exclude_version
    = Some which.
Proof.
  intros Hc Hx.
  assert (Hmin : min_cycles (obf_injection_version0_descr ctx cc) = cc).
  { unfold obf_injection_version0_descr, own_min_cycles, calc_cycles; cbn.
    destruct ctx; lia. }
  assert (Hel : eligible cycles exclude_version 0 (obf_injection_version0_descr ctx cc) = true).
  { unfold eligible. rewrite Hmin. apply andb_true_intro. split.
    - apply negb_true_iff, Z.eqb_neq. cbn. lia.
    - now apply Z.leb_le. }
  destruct (obf_injection_descr_weights T ctx cc) as [Hnn Hsum].
  pose proof (weights_of_ge false cycles exclude_version _ Hnn 0 0
                (obf_injection_version0_descr ctx cc) eq_refl Hel eq_refl) as Hge.
  change (weight (obf_injection_version0_descr ctx cc)) with 1 in Hge.
  destruct (weights_of_nonneg false cycles exclude_version _ Hnn 0) as [Hn1 Hn2].
  destruct (weights_of_nonneg true cycles exclude_version _ Hnn 0) as [Hr1 Hr2].
  pose proof (Zsum_nonneg _ Hr1).
  repeat split; auto.
  - rewrite obf_partition_weights_spec. rewrite size_t_small by lia. lia.
  - apply obf_random_obf_from_list_total; [assumption | lia | lia].
Qed.

Lemma identity_always_eligible_witness :
  min_cycles (obf_injection_version0_descr (ObfVarContext 7 30) 0) = 0 /\
  eligible 30 size_t_minus1 0 (obf_injection_version0_descr (ObfVarContext 7 30) 0) = true /\
  (let '(_, _, _, sum_nr) :=
     obf_partition_weights 30 size_t_minus1
       (obf_injection_descr uint32_t (ObfVarContext 7 30) 0) 0 in
   0 < sum_nr) /\
  exists which,
    obf_random_obf_from_list 1 30 (obf_injection_descr uint32_t (ObfVarContext 7 30) 0)
      size_t_minus1 = Some which.
Proof.
  apply (identity_always_eligible uint32_t (ObfVarContext 7 30) 0 1 30 size_t_minus1).
  - lia.
  - discriminate.
Defined.

(** C7 (as stated) fails in two ways.  For the budget [-1] of a variable no
    strategy qualifies, [sum_r] and [sum_nr] are both zero and the assertion
    [sum_nr > 0] fails.  And the identity is not free in a literal context: in
    one whose leaf costs 6 cycles its [min_cycles] is 6, so a budget of 5 leaves
    the non-recursive set empty as well. *)
Lemma identity_not_always_eligible :
  (obf_partition_weights (-1) size_t_minus1
     (obf_injection_descr uint32_t (ObfVarContext 0 (-1)) 0) 0
   = ([0; 0; 0; 0; 0; 0], [0; 0; 0; 0; 0; 0], 0, 0) /\
   obf_random_obf_from_list 1 (-1)
     (obf_injection_descr uint32_t (ObfVarContext 0 (-1)) 0) size_t_minus1 = None) /\
  (context_cycles 0x0c7dfa61a867b125 (fun _ s => s) 100 uint32_t (ObfLiteralContext 0 6)
   = Some 6 /\
   min_cycles (obf_injection_version0_descr (ObfLiteralContext 0 6) 6) = 6 /\
   obf_partition_weights 5 size_t_minus1
     (obf_injection_descr uint32_t (ObfLiteralContext 0 6) 6) 0
   = ([0; 0; 0; 0; 0; 0], [0; 0; 0; 0; 0; 0], 0, 0)).
Proof. vm_compute. repeat split. Qed.

(** C6 (as amended): at the one-byte width the three strategies that need a
    half-width type (halving round, split-join, split without join) have
    weight zero and the selection never returns one of them; the additive and
    the multiply-by-inverse strategies keep their weight. *)
Theorem halving_disabled_at_minimal_width
    (ctx : Context) (cc seed cycles exclude_version : Z) :
  (weight (obf_injection_version2_descr uint8_t ctx cc) = 0 /\
   weight (obf_injection_version3_descr uint8_t ctx cc) = 0 /\
   weight (obf_injection_version5_descr uint8_t ctx cc) = 0) /\
  (weight (obf_injection_version1_descr ctx cc) = 100 /\
   weight (obf_injection_version4_descr ctx cc) = 100) /\
  obf_random_obf_from_list seed cycles (obf_injection_descr uint8_t ctx cc) exclude_version
    <> Some 2%nat /\
  obf_random_obf_from_list seed cycles (obf_injection_descr uint8_t ctx cc) exclude_version
    <> Some 3%nat /\
  obf_random_obf_from_list seed cycles (obf_injection_descr uint8_t ctx cc) exclude_version
    <> Some 5%nat.
Proof.
  split; [repeat split |]. split; [repeat split |].
  repeat split; intros H; apply obf_random_obf_from_list_selected in H;
    destruct H as (d & Hn & Hw & _); cbn in Hn; injection Hn as <-; cbn in Hw; lia.
Qed.

(** C6 (as stated) fails: at the one-byte width the additive strategy is
    recursive, has weight 100, and is the one selected for a variable with a
    budget of 2 cycles. *)
Lemma recursive_selected_at_minimal_width :
  is_recursive (obf_injection_version1_descr (ObfVarContext 7806831264735756412 2) 0) = true /\
  weight (obf_injection_version1_descr (ObfVarContext 7806831264735756412 2) 0) = 100 /\
  obf_random_obf_from_list
    (obf_compile_time_prng (obf_compile_time_prng 1 2) 1) 2
    (obf_injection_descr uint8_t (ObfVarContext 7806831264735756412 2) 0) size_t_minus1
  = Some 1%nat /\
  obf_var_Injection 0x0c7dfa61a867b125 (fun _ s => s) 100 5
    {| make_unsigned := uint8_t; is_signed := false |} 1 2
  = Some (version1 3 (version0 (ObfVarContext 7806831264735756412 2))).
Proof. vm_compute. repeat split. Qed.

(** ** The constants of a build *)

Lemma array_set_length (ws : list Z) (i : nat) (v : Z) :
  length (array_set ws i v) = length ws.
Proof.
  revert i. induction ws as [| a ws IH]; intros [| i]; cbn; auto.
Qed.

Lemma array_set_nth_same (ws : list Z) (i : nat) (v : Z) :
  (i < length ws)%nat -> nth_error (array_set ws i v) i = Some v.
Proof.
  revert i. induction ws as [| a ws IH]; intros [| i] H; cbn in *; try lia; auto.
  apply IH. lia.
Qed.

Lemma array_set_nth_other (ws : list Z) (i j : nat) (v : Z) :
  i <> j -> nth_error (array_set ws i v) j = nth_error ws j.
Proof.
  revert i j. induction ws as [| a ws IH]; intros [| i] [| j] H; cbn; auto; try lia.
Qed.

Lemma array_set_zero_sum (ws : list Z) (i : nat) :
  Forall (fun w => w = 0 \/ w = 100) ws ->
  Forall (fun w => w = 0 \/ w = 100) (array_set ws i 0) /\
  Zsum ws - 100 <= Zsum (array_set ws i 0).
Proof.
  intros H. revert i. induction H as [| a ws Ha Hws IH]; intros [| i]; cbn.
  - split; [constructor | lia].
  - split; [constructor | lia].
  - fold (Zsum ws). split; [constructor; auto | lia].
  - fold (Zsum ws). fold (Zsum (array_set ws i 0)).
    destruct (IH i). split; [constructor; auto | lia].
Qed.

Lemma candidates_find (e : Z) :
  (exists j, nth_error candidates j = Some e /\
             (j < 6)%nat /\
             obf_find_idx_in_array candidates e = Z.of_nat j) \/
  (~ In e candidates /\ obf_find_idx_in_array candidates e = size_t_minus1).
Proof.
  unfold obf_find_idx_in_array, candidates. cbn [obf_find_idx_from].
  destruct (Z.eqb_spec 3 e) as [<- |]; [left; exists 0%nat; repeat split; cbn; lia |].
  destruct (Z.eqb_spec 5 e) as [<- |]; [left; exists 1%nat; repeat split; cbn; lia |].
  destruct (Z.eqb_spec 7 e) as [<- |]; [left; exists 2%nat; repeat split; cbn; lia |].
  destruct (Z.eqb_spec 15 e) as [<- |]; [left; exists 3%nat; repeat split; cbn; lia |].
  destruct (Z.eqb_spec 25 e) as [<- |]; [left; exists 4%nat; repeat split; cbn; lia |].
  destruct (Z.eqb_spec 31 e) as [<- |]; [left; exists 5%nat; repeat split; cbn; lia |].
  right. split; [| reflexivity]. cbn. intuition congruence.
Qed.

Lemma candidates_nodup (i j : nat) (c : Z) :
  nth_error candidates i = Some c -> nth_error candidates j = Some c -> i = j.
Proof.
  unfold candidates.
  do 7 (try destruct i as [| i]); do 7 (try destruct j as [| j]); cbn;
    try discriminate; try reflexivity; intros [= <-]; try discriminate;
    destruct i; try discriminate; destruct j; discriminate.
Qed.

(** The weights [obf_const_x] ends up with: the entry of every excluded
    candidate is zero, the others stay at 100. *)
Lemma obf_const_x_weights (excluded : list Z) :
  forall ws,
    length ws = 6%nat ->
    Forall (fun w => w = 0 \/ w = 100) ws ->
    let ws' :=
      fold_left
        (fun weights e =>
           let found := obf_find_idx_in_array candidates e in
           if found =? size_t_minus1 then weights
           else array_set weights (Z.to_nat found) 0)
        excluded ws in
    length ws' = 6%nat /\
    Forall (fun w => w = 0 \/ w = 100) ws' /\
    (forall j, nth_error ws j = Some 0 -> nth_error ws' j = Some 0) /\
    (forall e j, In e excluded -> nth_error candidates j = Some e ->
                 nth_error ws' j = Some 0) /\
    Zsum ws - 100 * Z.of_nat (length excluded) <= Zsum ws'.
Proof.
  induction excluded as [| e ex IH]; intros ws Hlen Hws; cbn [fold_left].
  - repeat split; auto; [intros e j [] | cbn; lia].
  - set (ws1 := let found := obf_find_idx_in_array candidates e in
                if found =? size_t_minus1 then ws
                else array_set ws (Z.to_nat found) 0).
    assert (H1 : length ws1 = 6%nat /\
                 Forall (fun w => w = 0 \/ w = 100) ws1 /\
                 (forall j, nth_error ws j = Some 0 -> nth_error ws1 j = Some 0) /\
                 (forall j, nth_error candidates j = Some e -> nth_error ws1 j = Some 0) /\
                 Zsum ws - 100 <= Zsum ws1).
    { subst ws1. cbv zeta.
      destruct (candidates_find e) as [(j & Hj & Hj6 & ->) | (Hnot & ->)].
      - destruct (Z.eqb_spec (Z.of_nat j) size_t_minus1) as [E |].
        + exfalso. revert E. unfold size_t_minus1, size_t, wrap. cbn. lia.
        + rewrite Nat2Z.id. destruct (array_set_zero_sum ws j Hws) as [Ha Hb].
          repeat split; auto.
          * now rewrite array_set_length.
          * intros j' Hj'. destruct (Nat.eq_dec j j') as [<- |].
            -- apply array_set_nth_same. lia.
            -- now rewrite array_set_nth_other.
          * intros j' Hj'. rewrite (candidates_nodup _ _ _ Hj' Hj).
            apply array_set_nth_same. lia.
      - rewrite Z.eqb_refl. repeat split; auto; try lia.
        intros j Hj. exfalso. apply Hnot. eapply nth_error_In; eauto. }
    clearbody ws1. destruct H1 as (L1 & F1 & Z1 & E1 & S1).
    destruct (IH ws1 L1 F1) as (L2 & F2 & Z2 & E2 & S2).
    repeat split; auto.
    + intros e' j [<- | Hin] Hj; [apply Z2, E1, Hj | eapply E2; eauto].
    + cbn [length]. cbv zeta in S2. lia.
Qed.

Lemma Zsum_01_nonneg (ws : list Z) :
  Forall (fun w => w = 0 \/ w = 100) ws ->
  Forall (fun w => 0 <= w) ws /\ Zsum ws <= 100 * Z.of_nat (length ws).
Proof.
  induction 1 as [| a ws Ha _ [IH1 IH2]]; cbn [Zsum fold_right length].
  - split; [constructor | lia].
  - fold (Zsum ws). split; [constructor; [lia | auto] | lia].
Qed.

(** [obf_const_x] always returns a candidate, and never an excluded one. *)
Lemma obf_const_x_spec (seed : Z) (excluded : list Z) :
  (length excluded <= 5)%nat ->
  exists c, obf_const_x seed excluded = Some c /\
            In c candidates /\ ~ In c excluded.
Proof.
  intros Hlen. unfold obf_const_x.
  assert (H0 : Forall (fun w => w = 0 \/ w = 100) [100; 100; 100; 100; 100; 100])
    by (repeat (constructor; [right; reflexivity |]); constructor).
  pose proof (obf_const_x_weights excluded [100; 100; 100; 100; 100; 100] eq_refl H0) as H.
  cbv zeta in H. destruct H as (L & F & _ & E & S).
  set (ws := fold_left _ excluded _) in *.
  destruct (Zsum_01_nonneg ws F) as [Hnn Hle].
  destruct (obf_random_from_list_total seed ws Hnn) as [idx2 Hidx].
  { change (Zsum [100; 100; 100; 100; 100; 100]) with 600 in S. rewrite L in Hle. lia. }
  rewrite Hidx. cbn [bind].
  destruct (obf_random_from_list_pos seed ws idx2 Hidx) as (w & Hw & Hpos).
  assert (Hlt : (idx2 < 6)%nat).
  { rewrite <- L. apply nth_error_Some. congruence. }
  destruct (nth_error candidates idx2) as [c |] eqn:Hc.
  2:{ apply nth_error_None in Hc. cbn in Hc. lia. }
  exists c. split; [reflexivity |]. split; [eapply nth_error_In; eauto |].
  intros Hin. rewrite (E c idx2 Hin Hc) in Hw. injection Hw as <-. lia.
Qed.

Lemma candidates_odd (c : Z) : In c candidates -> Z.odd c = true /\ 3 <= c <= 31.
Proof. cbn. intuition (subst; cbn; auto; lia). Qed.

(** The pool of a build: three distinct odd candidates. *)
Lemma OBF_CONSTS_spec (OBFUSCATE_SEED : Z) :
  exists a b c,
    OBF_CONSTS OBFUSCATE_SEED = Some [a; b; c] /\
    In a candidates /\ In b candidates /\ In c candidates /\
    a <> b /\ a <> c /\ b <> c.
Proof.
  unfold OBF_CONSTS, OBF_CONST_C, OBF_CONST_B, OBF_CONST_A.
  destruct (obf_const_x_spec
              (obf_compile_time_prng (Z.lxor OBFUSCATE_SEED 0xcec4b8ea4b89a1a9) 1) [])
    as (a & Ha & Ia & _); [cbn; lia |].
  destruct (obf_const_x_spec
              (obf_compile_time_prng (Z.lxor OBFUSCATE_SEED 0x5eec23716fa1d0aa) 1) [a])
    as (b & Hb & Ib & Nb); [cbn; lia |].
  destruct (obf_const_x_spec
              (obf_compile_time_prng (Z.lxor OBFUSCATE_SEED 0xfb2de18f982a2d55) 1) [a; b])
    as (c & Hc & Ic & Nc); [cbn; lia |].
  exists a, b, c. rewrite Ha. cbn [bind]. rewrite Hb. cbn [bind]. rewrite Hc. cbn [bind].
  cbn in Nb, Nc. repeat split; auto; intros ->; intuition.
Qed.

Lemma obf_random_const_In (seed : Z) (lst : list Z) (c : Z) :
  obf_random_const seed lst = Some c -> In c lst.
Proof.
  unfold obf_random_const. destruct (obf_weak_random _ _); [| discriminate].
  cbn [bind]. apply nth_error_In.
Qed.

(** ** Inversion of the tree builder *)

Ltac bind_inv H :=
  repeat
    (match type of H with
     | bind ?m _ = Some _ =>
         let E := fresh "E" in
         destruct m eqn:E; [unfold bind in H at 1; cbv beta in H | discriminate H]
     | (if ?b then _ else None) = Some _ =>
         let E := fresh "E" in
         destruct b eqn:E; [| discriminate H]
     | (let '(_, _) := ?p in _) = Some _ => destruct p
     | match ?l with [] => None | _ :: _ => _ end = Some _ =>
         destruct l; [discriminate H |]
     | match ?l with [] => _ | _ :: _ => None end = Some _ =>
         destruct l; [| discriminate H]
     end).

Section BuildFacts.

Variable OBFUSCATE_SEED : Z.
Variable obf_gen_const : UInt -> Z -> Z.
Variable OBFUSCATE_DEBUG_DISABLE_ANTI_DEBUG : bool.
Variable OBF_COMPILE_TIME_TESTS : nat.

Local Abbreviation build := (obf_injection OBFUSCATE_SEED obf_gen_const OBF_COMPILE_TIME_TESTS).
Local Abbreviation encode :=
  (injection OBFUSCATE_SEED obf_gen_const OBFUSCATE_DEBUG_DISABLE_ANTI_DEBUG
     OBF_COMPILE_TIME_TESTS).
Local Abbreviation decode :=
  (surjection OBFUSCATE_SEED obf_gen_const OBFUSCATE_DEBUG_DISABLE_ANTI_DEBUG
     OBF_COMPILE_TIME_TESTS).

(** How a version 1 node comes about. *)
Lemma obf_injection_version1_inv
    (fuel : nat) (T : UInt) (ctx : Context) (seed cycles exclude_version : Z)
    (C : Z) (r : Injection) :
  build fuel T ctx seed cycles exclude_version = Some (version1 C r) ->
  exists consts C0,
    OBF_CONSTS OBFUSCATE_SEED = Some consts /\
    obf_random_const (obf_compile_time_prng seed 2) (1 :: consts) = Some C0 /\
    C = to T C0.
Proof.
  destruct fuel as [| fuel]; [discriminate |].
  cbn [obf_injection]. intros H. bind_inv H.
  do 6 (try destruct n as [| n]); bind_inv H; try discriminate H.
  injection H as <- <-. eauto.
Qed.

(** C9 (as amended): the constant [C] of the additive strategy is drawn from
    the four-element array [{1, OBF_CONST_A, OBF_CONST_B, OBF_CONST_C}]: the
    literal 1 or one of the three pairwise distinct odd constants of the build.
    It is odd, the encoder adds it before the child's encoder runs, and the
    decoder subtracts the same [C] after the child's decoder. *)
Theorem additive_constant_pool
    (fuel : nat) (T : UInt) (ctx : Context) (seed cycles exclude_version : Z)
    (C : Z) (r : Injection) :
  build fuel T ctx seed cycles exclude_version = Some (version1 C r) ->
  exists a b c,
    OBF_CONSTS OBFUSCATE_SEED = Some [a; b; c] /\
    (In a candidates /\ In b candidates /\ In c candidates) /\
    (a <> b /\ a <> c /\ b <> c) /\
    In C [1; a; b; c] /\
    Z.odd C = true /\
    (forall x w, encode T (version1 C r) x w = encode T r (to T (x + C)) w) /\
    (forall y w, decode T (version1 C r) y w =
                 let '(v, w') := decode T r y w in (to T (v - C), w')).
Proof.
  intros H. apply obf_injection_version1_inv in H.
  destruct H as (consts & C0 & Hc & Hr & ->).
  destruct (OBF_CONSTS_spec OBFUSCATE_SEED) as (a & b & c & Hp & Ia & Ib & Ic & Hd).
  rewrite Hp in Hc. injection Hc as <-.
  apply obf_random_const_In in Hr.
  assert (Hs : Z.odd C0 = true /\ 1 <= C0 <= 31).
  { destruct Hr as [<- | Hr]; [split; [reflexivity | lia] |].
    assert (In C0 candidates) as HC by (cbn in Hr; intuition (subst; auto)).
    apply candidates_odd in HC. intuition lia. }
  assert (Hto : to T C0 = C0).
  { apply to_small. destruct Hs as [_ Hs]. split; [lia |].
    apply Z.lt_le_trans with (2 ^ 8); [cbn; lia |].
    apply Z.pow_le_mono_r; [lia |].
    destruct (bits_cases T) as [-> | [-> | [-> | ->]]]; lia. }
  exists a, b, c. rewrite Hto. repeat split; auto; try tauto.
Qed.

End BuildFacts.

Lemma additive_constant_pool_witness :
  obf_injection 0x0c7dfa61a867b125 (fun _ s => s) 100 5 uint32_t (obf_var_Context 2 2)
    (obf_compile_time_prng 2 2) 2 size_t_minus1
  = Some (version1 1 (version0 (ObfVarContext 14170967488582549417 2))) /\
  exists a b c,
    OBF_CONSTS 0x0c7dfa61a867b125 = Some [a; b; c] /\
    (In a candidates /\ In b candidates /\ In c candidates) /\
    (a <> b /\ a <> c /\ b <> c) /\
    In 1 [1; a; b; c] /\
    Z.odd 1 = true /\
    (forall x w,
        injection 0x0c7dfa61a867b125 (fun _ s => s) false 100 uint32_t
          (version1 1 (version0 (ObfVarContext 14170967488582549417 2))) x w
        = injection 0x0c7dfa61a867b125 (fun _ s => s) false 100 uint32_t
            (version0 (ObfVarContext 14170967488582549417 2)) (to uint32_t (x + 1)) w) /\
    (forall y w,
        surjection 0x0c7dfa61a867b125 (fun _ s => s) false 100 uint32_t
          (version1 1 (version0 (ObfVarContext 14170967488582549417 2))) y w
        = let '(v, w') :=
            surjection 0x0c7dfa61a867b125 (fun _ s => s) false 100 uint32_t
              (version0 (ObfVarContext 14170967488582549417 2)) y w in
          (to uint32_t (v - 1), w')).
Proof.
  assert (H : obf_injection 0x0c7dfa61a867b125 (fun _ s => s) 100 5 uint32_t
                (obf_var_Context 2 2) (obf_compile_time_prng 2 2) 2 size_t_minus1
              = Some (version1 1 (version0 (ObfVarContext 14170967488582549417 2))))
    by (vm_compute; reflexivity).
  split; [exact H |].
  exact (additive_constant_pool 0x0c7dfa61a867b125 (fun _ s => s) false 100 5 uint32_t
           (obf_var_Context 2 2) (obf_compile_time_prng 2 2) 2 size_t_minus1 1
           (version0 (ObfVarContext 14170967488582549417 2)) H).
Defined.

(** C9 (as stated) fails: in the build with seed 0x0c7dfa61a867b125 the pool is
    3, 15, 31, and the additive strategy of the 32-bit variable with seed 2 and
    a budget of 2 cycles adds the constant 1, which is not in the pool. *)
Lemma additive_constant_outside_pool :
  OBF_CONSTS 0x0c7dfa61a867b125 = Some [3; 15; 31] /\
  obf_var_Injection 0x0c7dfa61a867b125 (fun _ s => s) 100 5
    {| make_unsigned := uint32_t; is_signed := false |} 2 2
  = Some (version1 1 (version0 (ObfVarContext 14170967488582549417 2))) /\
  ~ In 1 [3; 15; 31].
Proof.
  split; [vm_compute; reflexivity |]. split; [vm_compute; reflexivity |].
  cbn. intuition discriminate.
Qed.

(** ** The rolling counter (literal context, version 4) *)

(** The overflow checks [static_assert(DELTA / MUL1 == MOD)] and
    [static_assert(DELTAMOD / MUL2 == MOD)] do detect every overflow. *)
Lemma overflow_check (T : UInt) (a b : Z) :
  0 < a -> 0 <= b -> to T (a * b) / a = b -> to T (a * b) = a * b.
Proof.
  intros Ha Hb H. pose proof (pow_bits_pos T) as HM.
  destruct (Z_lt_le_dec (a * b) (2 ^ bits T)) as [Hlt | Hge].
  - apply to_small. nia.
  - exfalso. pose proof (to_range T (a * b)) as Hr.
    assert (to T (a * b) / a < b) by (apply Z.div_lt_upper_bound; lia).
    lia.
Qed.

Lemma mod_mul_mod (x m n : Z) : 0 < m -> 0 < n -> (x mod (m * n)) mod n = x mod n.
Proof.
  intros Hm Hn. rewrite (Z.mul_comm m n), Z.rem_mul_r by lia.
  rewrite (Z.mul_comm n), Z.mod_add by lia. apply Z.mod_mod. lia.
Qed.

Section RollingCounter.

Variable obf_gen_const : UInt -> Z -> Z.
Variable OBF_COMPILE_TIME_TESTS : nat.

(** What the [static_assert]s of the class leave of its constants. *)
Lemma ObfLiteralContext_version4_facts (T : UInt) (seed : Z) (k : Version4) :
  ObfLiteralContext_version4 obf_gen_const OBF_COMPILE_TIME_TESTS T seed = Some k ->
  (0 < MOD k /\ 2 * MOD k < 2 ^ bits T) /\
  0 <= CC k < MOD k /\
  (0 < MUL1 k /\ DELTA k = MUL1 k * MOD k /\ DELTA k < 2 ^ bits T) /\
  (0 < MUL2 k /\ DELTAMOD k = MUL2 k * MOD k /\ DELTAMOD k < 2 ^ bits T /\
   MUL2 k * DELTA k < 2 ^ bits T) /\
  (0 < MUL3 k <= MUL2 k /\ (1 < MUL2 k -> MUL3 k < MUL2 k) /\
   (MUL1 k = 1 -> 1 < MUL2 k -> (MUL2 k + 1) * MOD k < 2 ^ bits T \/ MUL3 k = MUL2 k - 1)) /\
  CC0 k = to T (arith T (CC k + arith T (MUL3 k * MOD k)) mod DELTAMOD k) /\
  arith T (CC0 k + DELTA k) mod MOD k = CC k.
Proof.
  unfold ObfLiteralContext_version4. intros H. cbv zeta in H.
  pose proof (pow_bits_pos T) as HM.
  set (MODv := if Z.land _ _ =? 0 then 100 else Z.land _ _) in H.
  assert (HMOD : 0 < MODv /\ 2 * MODv < 2 ^ bits T).
  { subst MODv.
    replace (to T (arith T (Z.shiftl 1 (sizeof T * 4)) - 1))
      with (Z.ones (sizeof T * 4)) by (destruct T; reflexivity).
    destruct (pow_half_bits T) as (Hh1 & Hh2 & Hh3 & Hh4).
    rewrite Z.land_ones by lia.
    pose proof (Z.mod_pos_bound (to T (obf_gen_const T (obf_compile_time_prng seed 1)))
                  (2 ^ (sizeof T * 4)) Hh2) as Hb.
    destruct (Z.eqb_spec (to T (obf_gen_const T (obf_compile_time_prng seed 1))
                          mod 2 ^ (sizeof T * 4)) 0); lia. }
  clearbody MODv. destruct HMOD as [HMOD1 HMOD2].
  assert (Hmax : max_value T = 2 ^ bits T - 1) by apply max_value_eq.
  bind_inv H. apply Some_inj in H. subst k. cbn [MOD CC MUL1 DELTA MUL2 DELTAMOD MUL3 CC0].
  rename z into CCv, z1 into MUL1v, z2 into MUL2v, z3 into PREMUL3v.
  (* CC *)
  apply obf_weak_random_range in E; [| lia].
  (* MUL1 and DELTA *)
  apply andb_prop in E3. destruct E3 as [E3a E3b].
  apply negb_true_iff, Z.eqb_neq in E3a. apply Z.eqb_eq in E3b.
  assert (HMUL1 : 0 < MUL1v).
  { destruct (2 <? max_value T / MODv); [| apply Some_inj in E2; lia].
    bind_inv E2. apply Some_inj in E2. pose proof (to_range T (1 + z)). lia. }
  pose proof (overflow_check T MUL1v MODv HMUL1 ltac:(lia) E3b) as HDELTA.
  pose proof (to_range T (MUL1v * MODv)) as HDr.
  rewrite HDELTA in *.
  (* MUL2 and DELTAMOD *)
  apply andb_prop in E6. destruct E6 as [E6a E6b].
  apply negb_true_iff, Z.eqb_neq in E6a. apply Z.eqb_eq in E6b.
  assert (HD0 : 0 < MUL1v * MODv) by nia.
  assert (HMUL2 : 0 < MUL2v /\ MUL2v * (MUL1v * MODv) < 2 ^ bits T /\
                  (1 < MUL2v ->
                   (MUL2v + 1) * (MUL1v * MODv) < 2 ^ bits T \/
                   Z.shiftr (obf_compile_time_prng seed 3) 32 mod MUL2v = MUL2v - 1)).
  { destruct (Z.ltb_spec 2 (max_value T / (MUL1v * MODv))) as [Hgt | Hle].
    - bind_inv E5. apply Some_inj in E5. subst MUL2v.
      apply obf_weak_random_range in E3 as Hzr; [| lia].
      pose proof (Z.mul_div_le (max_value T) (MUL1v * MODv) HD0) as Hq.
      assert (Hsmall : to T (1 + z) = 1 + z).
      { apply to_small.
        assert (max_value T / (MUL1v * MODv) <= max_value T)
          by (apply Z.div_le_upper_bound; nia).
        lia. }
      rewrite Hsmall. split; [lia |]. split; [nia |]. intros _.
      destruct (Z.eq_dec (1 + z) (max_value T / (MUL1v * MODv))) as [Heq | Hneq].
      + right.
        assert (Hz : z = Z.shiftr (obf_compile_time_prng seed 3) 32
                           mod (max_value T / (MUL1v * MODv))).
        { unfold obf_weak_random in E3.
          destruct (max_value T / (MUL1v * MODv) =? 0); congruence. }
        rewrite Heq. lia.
      + left. nia.
    - apply Some_inj in E5. subst MUL2v. split; [lia |]. split; [lia |]. lia. }
  destruct HMUL2 as (HMUL2 & HMD & Hlast).
  pose proof (overflow_check T MUL2v MODv HMUL2 ltac:(lia) E6b) as HDM.
  pose proof (to_range T (MUL2v * MODv)) as HDMr.
  rewrite HDM in *.
  (* MUL3 *)
  apply obf_weak_random_range in E7 as Hpre; [| lia].
  assert (Hpre_eq : PREMUL3v = Z.shiftr (obf_compile_time_prng seed 3) 32 mod MUL2v).
  { unfold obf_weak_random in E7. destruct (MUL2v =? 0); congruence. }
  apply Z.eqb_eq in E9. clear E10. revert E9.
  destruct (Z.ltb_spec 0 PREMUL3v) as [Hp | Hp]; intros E9;
    (repeat split; try lia; try nia; try exact E9;
     try (intros H1 H2; subst MUL1v; destruct (Hlast H2); [left; nia | right; lia])).
Qed.

Lemma counter_residue (k : Version4) (c : Z) :
  0 < MOD k -> 0 <= CC k < MOD k -> c mod MOD k = CC k ->
  c = MOD k * (c / MOD k) + CC k.
Proof. intros Hm Hc H. rewrite <- H. apply Z.div_mod. lia. Qed.

(** The counter starts inside its invariant. *)
Lemma counter_invariant_CC0 (T : UInt) (seed : Z) (k : Version4) :
  ObfLiteralContext_version4 obf_gen_const OBF_COMPILE_TIME_TESTS T seed = Some k ->
  counter_invariant k (CC0 k) /\ CC0 k = (CC k + MUL3 k * MOD k) mod DELTAMOD k.
Proof.
  intros H. apply ObfLiteralContext_version4_facts in H.
  destruct H as ((Hm1 & Hm2) & Hcc & (H1 & HD & HDr) & (H2 & HDM & HDMr & HMD)
                 & (H3 & H3lt & _) & HCC0 & _).
  pose proof (pow_bits_pos T) as HM.
  assert (Ha1 : arith T (MUL3 k * MOD k) = MUL3 k * MOD k).
  { unfold arith. destruct (bits T <? 32); [reflexivity |]. apply to_small. nia. }
  assert (Ha2 : arith T (CC k + MUL3 k * MOD k) = CC k + MUL3 k * MOD k).
  { unfold arith. destruct (bits T <? 32); [reflexivity |]. apply to_small.
    destruct (Z.eq_dec (MUL2 k) 1) as [E | E].
    - assert (MUL3 k = 1) by lia. nia.
    - assert (MUL3 k < MUL2 k) by (apply H3lt; lia). nia. }
  rewrite Ha1, Ha2 in HCC0.
  pose proof (Z.mod_pos_bound (CC k + MUL3 k * MOD k) (DELTAMOD k) ltac:(nia)) as Hb.
  rewrite to_small in HCC0 by lia.
  split; [| exact HCC0]. split; [lia |].
  rewrite HCC0, HDM, mod_mul_mod by lia.
  rewrite Z.mod_add by lia. apply Z.mod_small. lia.
Qed.

(** One call of [final_surjection] moves the counter to
    [(c + DELTA) mod DELTAMOD] and keeps it inside the invariant. *)
Lemma counter_invariant_step (T : UInt) (seed : Z) (k : Version4) (c : Z) :
  ObfLiteralContext_version4 obf_gen_const OBF_COMPILE_TIME_TESTS T seed = Some k ->
  counter_invariant k c ->
  next_c T k c = (c + DELTA k) mod DELTAMOD k /\
  counter_invariant k (next_c T k c).
Proof.
  intros H [Hc Hres]. pose proof (counter_invariant_CC0 T seed k H) as [[_ HCC0res] HCC0].
  apply ObfLiteralContext_version4_facts in H.
  destruct H as ((Hm1 & Hm2) & Hcc & (H1 & HD & HDr) & (H2 & HDM & HDMr & HMD)
                 & (H3 & H3lt & Hlast) & _ & Hassert).
  pose proof (pow_bits_pos T) as HM.
  assert (Hkey : arith T (c + DELTA k) mod DELTAMOD k = (c + DELTA k) mod DELTAMOD k).
  { destruct (Z.eq_dec (MUL2 k) 1) as [E2 | E2].
    - (* the counter never moves: the first step is the checked one *)
      assert (HDMeq : DELTAMOD k = MOD k) by lia.
      assert (Hceq : c = CC k) by (rewrite <- Hres; symmetry; apply Z.mod_small; lia).
      assert (HCC0eq : CC0 k = CC k).
      { rewrite <- HCC0res. symmetry. apply Z.mod_small.
        pose proof (Z.mod_pos_bound (CC k + MUL3 k * MOD k) (DELTAMOD k) ltac:(lia)).
        lia. }
      rewrite HCC0eq in Hassert. rewrite Hceq, HDMeq, Hassert.
      rewrite HD, Z.mod_add by lia. symmetry. apply Z.mod_small. lia.
    - assert (Hno : c + DELTA k < 2 ^ bits T \/ (bits T <? 32) = true).
      { destruct (Z_lt_le_dec (c + DELTA k) (2 ^ bits T)) as [| Hov]; [now left |].
        destruct (bits T <? 32) eqn:Eb; [now right |]. exfalso.
        destruct (Z.eq_dec (MUL1 k) 1) as [E1 | E1].
        + assert (HDeq : DELTA k = MOD k) by lia.
          destruct (Hlast E1 ltac:(lia)) as [Hl | Hr]; [nia |].
          (* the first step of the program is the one that wraps *)
          assert (HCC0v : CC0 k = CC k + (MUL2 k - 1) * MOD k).
          { rewrite HCC0, Hr. apply Z.mod_small. nia. }
          pose proof (counter_residue k c Hm1 Hcc Hres) as Hcq.
          assert (c / MOD k < MUL2 k).
          { apply Z.div_lt_upper_bound; [lia |]. nia. }
          assert (Hle : c <= CC0 k) by nia.
          unfold arith in Hassert. rewrite Eb in Hassert.
          assert (Hw : to T (CC0 k + DELTA k) = CC0 k + DELTA k - 2 ^ bits T).
          { apply to_wrap_once. nia. }
          rewrite Hw, Z.mod_small in Hassert by nia. nia.
        + nia. }
      unfold arith. destruct Hno as [Hno | ->]; [| reflexivity].
      destruct (bits T <? 32); [reflexivity |]. rewrite to_small by lia. reflexivity. }
  unfold next_c. rewrite Hkey.
  pose proof (Z.mod_pos_bound (c + DELTA k) (DELTAMOD k) ltac:(lia)) as Hb.
  rewrite to_small by lia. split; [reflexivity |]. split; [lia |].
  rewrite HDM at 1. rewrite mod_mul_mod by lia.
  rewrite HD, Z.mod_add by lia. exact Hres.
Qed.

Variable OBFUSCATE_SEED : Z.
Variable OBFUSCATE_DEBUG_DISABLE_ANTI_DEBUG : bool.

Lemma c_version4_set_same (w : World) (T : UInt) (seed v : Z) :
  c_version4 (set_c_version4 w T seed v) T seed = v.
Proof.
  cbn. unfold UInt_eqb. now rewrite !Z.eqb_refl.
Qed.

(** C4: every call of the rolling-counter context's [final_surjection] moves the
    shared counter [c] to [(c + DELTA) mod DELTAMOD]; this keeps [c mod MOD = CC]
    (an invariant the initial value [CC0] satisfies), so every call returns
    [y - CC] and undoes [final_injection(x) = x + CC]. *)
Theorem rolling_counter_invariant (T : UInt) (seed : Z) (k : Version4) :
  ObfLiteralContext_version4 obf_gen_const OBF_COMPILE_TIME_TESTS T seed = Some k ->
  (forall peb_2,
      c_version4 (initial_world OBFUSCATE_SEED obf_gen_const OBF_COMPILE_TIME_TESTS peb_2)
        T seed = CC0 k) /\
  counter_invariant k (CC0 k) /\
  (forall n, counter_invariant k (Nat.iter n (next_c T k) (CC0 k))) /\
  (forall w y,
      counter_invariant k (c_version4 w T seed) ->
      let '(x, w') :=
        version_final_surjection OBFUSCATE_DEBUG_DISABLE_ANTI_DEBUG T seed
          (literal_version4 k) y w in
      c_version4 w' T seed = (c_version4 w T seed + DELTA k) mod DELTAMOD k /\
      counter_invariant k (c_version4 w' T seed) /\
      x = to T (y - CC k) /\
      (forall x0, 0 <= x0 < 2 ^ bits T ->
                  y = version_final_injection T (literal_version4 k) x0 -> x = x0)).
Proof.
  intros H.
  pose proof (counter_invariant_CC0 T seed k H) as [HCC0 _].
  split; [| split; [exact HCC0 | split]].
  - intros peb_2. cbn. now rewrite H.
  - induction n as [| n IH]; [exact HCC0 |].
    cbn [Nat.iter]. now apply (counter_invariant_step T seed k _ H).
  - intros w y Hinv. cbn [version_final_surjection].
    rewrite c_version4_set_same.
    destruct (counter_invariant_step T seed k _ H Hinv) as [Hstep Hinv'].
    destruct Hinv' as [Hb Hres].
    split; [exact Hstep |]. split; [split; assumption |].
    rewrite Hres. split; [reflexivity |].
    intros x0 Hx0 ->. cbn [version_final_injection].
    rewrite to_sub_l. replace (x0 + CC k - CC k) with x0 by ring.
    now apply to_small.
Qed.

End RollingCounter.

Lemma rolling_counter_invariant_witness :
  ObfLiteralContext_version4 (fun _ s => s) 100 uint32_t 1 = Some example_version4 /\
  (forall peb_2,
      c_version4 (initial_world 0x0c7dfa61a867b125 (fun _ s => s) 100 peb_2)
        uint32_t 1 = CC0 example_version4) /\
  counter_invariant example_version4 (CC0 example_version4) /\
  (forall n, counter_invariant example_version4
               (Nat.iter n (next_c uint32_t example_version4) (CC0 example_version4))) /\
  (forall w y,
      counter_invariant example_version4 (c_version4 w uint32_t 1) ->
      let '(x, w') :=
        version_final_surjection false uint32_t 1 (literal_version4 example_version4) y w in
      c_version4 w' uint32_t 1
      = (c_version4 w uint32_t 1 + DELTA example_version4) mod DELTAMOD example_version4 /\
      counter_invariant example_version4 (c_version4 w' uint32_t 1) /\
      x = to uint32_t (y - CC example_version4) /\
      (forall x0, 0 <= x0 < 2 ^ bits uint32_t ->
                  y = version_final_injection uint32_t (literal_version4 example_version4) x0 ->
                  x = x0)).
Proof.
  assert (H : ObfLiteralContext_version4 (fun _ s => s) 100 uint32_t 1
              = Some example_version4) by (vm_compute; reflexivity).
  split; [exact H |].
  exact (rolling_counter_invariant (fun _ s => s) 100 0x0c7dfa61a867b125 false
           uint32_t 1 example_version4 H).
Defined.


(** ** Round trip of a strategy tree *)

Lemma bits_half (T halfT : UInt) :
  obf_half_size_int T = Some halfT ->
  bits T = 2 * bits halfT /\ bits T / 2 = bits halfT /\
  2 ^ bits T = 2 ^ bits halfT * 2 ^ bits halfT.
Proof.
  destruct T; cbn; intros [= <-]; repeat split; reflexivity.
Qed.

Lemma mask_ones (T halfT : UInt) :
  obf_half_size_int T = Some halfT ->
  to T (arith T (Z.shiftl 1 (bits halfT)) - 1) = Z.ones (bits halfT).
Proof. destruct T; cbn; intros [= <-]; reflexivity. Qed.

(** The arithmetic of version 2: one round of the Feistel-like scheme is
    undone exactly, whatever the round function returns. *)
Lemma halving_round_arith (h x f : Z) :
  0 < h -> 0 <= x < 2 ^ h * 2 ^ h ->
  let H := 2 ^ h in
  let y := ((x mod H + f) mod (H * H) * H + x / H) mod (H * H) in
  y / H = (x mod H + f) mod H /\ y mod H = x / H.
Proof.
  intros Hh Hx H y. assert (HH : 0 < H) by (apply Z.pow_pos_nonneg; lia).
  assert (Hxh : 0 <= x / H < H).
  { split; [apply Z.div_pos; lia | apply Z.div_lt_upper_bound; lia]. }
  assert (Hy : y = ((x mod H + f) mod H) * H + x / H).
  { subst y.
    rewrite <- Z.add_mod_idemp_l by nia.
    rewrite Z.mul_mod_distr_r by lia.
    rewrite mod_mul_mod by lia.
    apply Z.mod_small.
    pose proof (Z.mod_pos_bound (x mod H + f) H HH). nia. }
  rewrite Hy. split.
  - rewrite Z.div_add_l by lia. rewrite (Z.div_small (x / H)) by lia. lia.
  - rewrite Z.add_comm, Z.mod_add by lia. apply Z.mod_small. lia.
Qed.

Lemma halving_round_undo (h x f a : Z) :
  0 < h -> 0 <= x < 2 ^ h * 2 ^ h ->
  let H := 2 ^ h in
  let y := ((x mod H + f) mod (H * H) * H + x / H) mod (H * H) in
  a mod H = (y / H - f) mod H ->
  (a mod H + y * H) mod (H * H) = x.
Proof.
  intros Hh Hx H y Ha. assert (HH : 0 < H) by (apply Z.pow_pos_nonneg; lia).
  destruct (halving_round_arith h x f Hh Hx) as [Hy1 Hy2].
  fold H in Hy1, Hy2. fold y in Hy1, Hy2.
  rewrite Hy1 in Ha. rewrite Zminus_mod_idemp_l in Ha.
  replace (x mod H + f - f) with (x mod H) in Ha by ring.
  rewrite Z.mod_mod in Ha by lia. rewrite Ha.
  rewrite <- Z.add_mod_idemp_r by nia.
  rewrite Z.mul_mod_distr_r by lia. rewrite Hy2.
  rewrite Z.mod_small.
  - rewrite (Z.div_mod x H) at 3 by lia. ring.
  - pose proof (Z.mod_pos_bound x H HH).
    assert (0 <= x / H < H).
    { split; [apply Z.div_pos; lia | apply Z.div_lt_upper_bound; lia]. }
    nia.
Qed.

Lemma arith_mod_half (T halfT : UInt) (v : Z) :
  obf_half_size_int T = Some halfT ->
  arith T v mod 2 ^ bits halfT = v mod 2 ^ bits halfT.
Proof.
  intros Hh. unfold arith. destruct (bits T <? 32); [reflexivity |].
  destruct (bits_half T halfT Hh) as (_ & _ & Hp).
  unfold to, wrap. rewrite Hp. apply mod_mul_mod; apply pow_bits_pos.
Qed.

Lemma split_halves (T halfT : UInt) (x : Z) :
  obf_half_size_int T = Some halfT ->
  0 <= x < 2 ^ bits T ->
  to halfT (Z.shiftr x (bits halfT)) = x / 2 ^ bits halfT /\
  to halfT x = x mod 2 ^ bits halfT /\
  0 <= x / 2 ^ bits halfT < 2 ^ bits halfT /\
  0 <= x mod 2 ^ bits halfT < 2 ^ bits halfT.
Proof.
  intros Hh Hx. destruct (bits_half T halfT Hh) as (_ & _ & Hp).
  pose proof (pow_bits_pos halfT) as HH. pose proof (bits_pos halfT) as Hb.
  rewrite Hp in Hx.
  assert (0 <= x / 2 ^ bits halfT < 2 ^ bits halfT).
  { split; [apply Z.div_pos; lia | apply Z.div_lt_upper_bound; lia]. }
  rewrite Z.shiftr_div_pow2 by lia. rewrite to_small by lia.
  repeat split; try lia; apply Z.mod_pos_bound; lia.
Qed.

Lemma join_halves (T halfT : UInt) (lo hi : Z) :
  obf_half_size_int T = Some halfT ->
  0 <= lo < 2 ^ bits halfT -> 0 <= hi < 2 ^ bits halfT ->
  let y := to T (Z.shiftl hi (bits halfT) + lo) in
  0 <= y < 2 ^ bits T /\
  to halfT (Z.shiftr y (bits halfT)) = hi /\ to halfT y = lo.
Proof.
  intros Hh Hlo Hhi y. destruct (bits_half T halfT Hh) as (_ & _ & Hp).
  pose proof (pow_bits_pos halfT) as HH. pose proof (bits_pos halfT) as Hb.
  assert (Hy : y = hi * 2 ^ bits halfT + lo).
  { subst y. rewrite Z.shiftl_mul_pow2 by lia. apply to_small. nia. }
  split; [apply to_range |].
  destruct (split_halves T halfT y Hh (to_range T _)) as (-> & -> & _).
  rewrite Hy. split.
  - rewrite Z.div_add_l by lia. rewrite Z.div_small by lia. lia.
  - rewrite Z.add_comm, Z.mod_add by lia. now apply Z.mod_small.
Qed.

Lemma UInt_eqb_eq (a b : UInt) : UInt_eqb a b = true -> a = b.
Proof. destruct a, b; cbn; intros H; try reflexivity; discriminate. Qed.

Section RoundTrip.

Variable OBFUSCATE_SEED : Z.
Variable obf_gen_const : UInt -> Z -> Z.
Variable OBFUSCATE_DEBUG_DISABLE_ANTI_DEBUG : bool.
Variable OBF_COMPILE_TIME_TESTS : nat.

Local Abbreviation build :=
  (obf_injection OBFUSCATE_SEED obf_gen_const OBF_COMPILE_TIME_TESTS).
Local Abbreviation encode :=
  (injection OBFUSCATE_SEED obf_gen_const OBFUSCATE_DEBUG_DISABLE_ANTI_DEBUG
     OBF_COMPILE_TIME_TESTS).
Local Abbreviation decode :=
  (surjection OBFUSCATE_SEED obf_gen_const OBFUSCATE_DEBUG_DISABLE_ANTI_DEBUG
     OBF_COMPILE_TIME_TESTS).
Local Abbreviation wf :=
  (well_formed OBFUSCATE_SEED obf_gen_const OBF_COMPILE_TIME_TESTS).
Local Abbreviation ok :=
  (world_ok OBFUSCATE_SEED obf_gen_const OBFUSCATE_DEBUG_DISABLE_ANTI_DEBUG
     OBF_COMPILE_TIME_TESTS).
Local Abbreviation cycles_of :=
  (context_cycles OBFUSCATE_SEED obf_gen_const OBF_COMPILE_TIME_TESTS).
Local Abbreviation final_enc :=
  (final_injection OBFUSCATE_SEED obf_gen_const OBF_COMPILE_TIME_TESTS).
Local Abbreviation final_dec :=
  (final_surjection OBFUSCATE_SEED obf_gen_const OBFUSCATE_DEBUG_DISABLE_ANTI_DEBUG
     OBF_COMPILE_TIME_TESTS).

(** Reading a returned value as an integer and back. *)
Lemma fits_flatten (t : Injection) :
  forall T r,
    fits T t r ->
    0 <= flatten (bits T) r < 2 ^ bits T /\
    unflatten (bits T) t (flatten (bits T) r) = r.
Proof.
  induction t as [ctx | C t IH | s c t IH | lo _ hi _ t IH | C CINV lit _ t IH
                  | lo IHlo hi IHhi];
    intros T r Hf; cbn [fits unflatten] in *; try (now apply IH).
  - destruct Hf as (v & -> & Hv). cbn. auto.
  - destruct (obf_half_size_int T) as [halfT |] eqn:Eh; [| contradiction].
    destruct r as [| a b]; [contradiction |]. destruct Hf as [Ha Hb].
    destruct (bits_half T halfT Eh) as (_ & Hhalf & Hpow).
    cbn [flatten]. rewrite Hhalf.
    destruct (IHlo halfT a Ha) as [Hra Hua].
    destruct (IHhi halfT b Hb) as [Hrb Hub].
    assert (HH : 0 < 2 ^ bits halfT) by apply pow_bits_pos.
    split; [nia |].
    rewrite (Z.mul_comm (2 ^ bits halfT)), Z.mod_add, Z.div_add by lia.
    rewrite Z.mod_small, Z.div_small by lia. cbn [Z.add].
    now rewrite Hua, Hub.
Qed.

Lemma world_ok_set (w : World) (T : UInt) (seed : Z) (k : Version4) (v : Z) :
  ok w ->
  ObfLiteralContext_version4 obf_gen_const OBF_COMPILE_TIME_TESTS T seed = Some k ->
  counter_invariant k v ->
  ok (set_c_version4 w T seed v).
Proof.
  intros (Hd & H1 & H4) Hk Hv. split; [exact Hd |]. split; [exact H1 |].
  intros T' seed' k' Hk'. cbn.
  destruct (UInt_eqb T' T) eqn:ET; cbn [andb]; [| now apply H4].
  destruct (Z.eqb_spec seed' seed) as [-> |]; [| now apply H4].
  apply UInt_eqb_eq in ET. subst T'. congruence.
Qed.

(** The leaf of a chain: [final_surjection] undoes [final_injection] in every
    world without a debugger. *)
Lemma final_roundtrip (T : UInt) (ctx : Context) (x : Z) :
  cycles_of T ctx <> None ->
  0 <= x < 2 ^ bits T ->
  0 <= final_enc T ctx x < 2 ^ bits T /\
  forall w, ok w ->
    exists w', final_dec T ctx (final_enc T ctx x) w = (x, w') /\ ok w'.
Proof.
  intros Hc Hx.
  destruct ctx as [| seed cycles | seed cycles]; cbn [final_injection final_surjection];
    try (split; [exact Hx | intros w Hw; eauto]).
  cbn [context_cycles] in Hc.
  destruct (WhichType OBFUSCATE_SEED obf_gen_const OBF_COMPILE_TIME_TESTS T seed cycles)
    as [v |] eqn:Ev; [| now elim Hc].
  unfold WhichType in Ev. bind_inv Ev.
  destruct v as [| CC | | CC | k]; cbn [version_final_injection version_final_surjection].
  - split; [exact Hx | intros w Hw; eauto].
  - split; [apply to_range |]. intros w Hw. exists w. split; [| exact Hw].
    assert (Hcc : ObfLiteralContext_CC OBFUSCATE_SEED T seed = Some CC).
    { do 5 (try destruct n as [| n]); cbn in Ev; try discriminate Ev;
        bind_inv Ev; congruence. }
    destruct Hw as (_ & H1 & _). rewrite (H1 T seed CC Hcc).
    rewrite to_sub_l. replace (x + CC - CC) with x by ring. now rewrite to_small.
  - split; [exact Hx |]. intros w Hw. exists w. split; [| exact Hw].
    change (obf_aliased_zero (fun _ : Z => 0) 0 1) with 0.
    rewrite Z.sub_0_r. now rewrite to_small.
  - split; [apply to_range |]. intros w Hw. exists w. split; [| exact Hw].
    destruct Hw as ([-> | Hp] & _ & _).
    + rewrite to_sub_l. replace (x + CC - CC) with x by ring. now rewrite to_small.
    + destruct OBFUSCATE_DEBUG_DISABLE_ANTI_DEBUG; rewrite ?Hp, to_sub_l;
        replace (x + CC - _) with x by ring; now rewrite to_small.
  - split; [apply to_range |]. intros w Hw.
    assert (Hk : ObfLiteralContext_version4 obf_gen_const OBF_COMPILE_TIME_TESTS T seed
                 = Some k).
    { do 5 (try destruct n as [| n]); cbn in Ev; try discriminate Ev;
        bind_inv Ev; congruence. }
    pose proof Hw as (_ & _ & H4).
    destruct (counter_invariant_step obf_gen_const OBF_COMPILE_TIME_TESTS T seed k
                (c_version4 w T seed) Hk (H4 T seed k Hk)) as [_ Hinv].
    eexists. split.
    + rewrite c_version4_set_same. destruct Hinv as [_ ->].
      rewrite to_sub_l. replace (x + CC k - CC k) with x by ring.
      now rewrite to_small.
    + now apply world_ok_set with (k := k).
Qed.

(** Every well-formed tree is undone exactly in every world without a
    debugger, whatever has run between the two calls. *)
Lemma injection_surjection_wf (t : Injection) :
  forall T, wf T t ->
  forall x w, ok w -> 0 <= x < 2 ^ bits T ->
  exists r w1,
    encode T t x w = (r, w1) /\ ok w1 /\ fits T t r /\
    forall w', ok w' -> exists w2, decode T t r w' = (x, w2) /\ ok w2.
Proof.
  induction t as [ctx | C t IH | s c t IH | lo IHlo hi IHhi t IH
                  | C CINV lit IHlit t IH | lo IHlo hi IHhi];
    intros T Hwf x w Hw Hx; cbn [well_formed] in Hwf.
  - (* identity *)
    destruct (final_roundtrip T ctx x Hwf Hx) as [Hr Hd].
    exists (scalar (final_enc T ctx x)), w. cbn [injection surjection as_scalar fits].
    split; [reflexivity |]. split; [exact Hw |]. split; [eauto | exact Hd].
  - (* additive *)
    destruct (IH T Hwf (to T (x + C)) w Hw (to_range T _)) as (r & w1 & He & Hw1 & Hf & Hd).
    exists r, w1. cbn [injection surjection fits].
    split; [exact He |]. split; [exact Hw1 |]. split; [exact Hf |].
    intros w' Hw'. destruct (Hd w' Hw') as (w2 & -> & Hw2).
    exists w2. split; [| exact Hw2]. f_equal.
    rewrite to_sub_l. replace (x + C - C) with x by ring. now apply to_small.
  - (* halving round *)
    destruct Hwf as [Hh Hwf].
    destruct (obf_half_size_int T) as [halfT |] eqn:Eh; [clear Hh | now elim Hh].
    destruct (bits_half T halfT Eh) as (_ & _ & Hp).
    pose proof (bits_pos halfT) as Hb. pose proof (pow_bits_pos halfT) as HH.
    cbn [injection surjection fits]. rewrite Eh.
    rewrite (mask_ones T halfT Eh). rewrite Z.land_ones by lia.
    rewrite Z.shiftr_div_pow2 by lia.
    destruct (split_halves T halfT x Eh Hx) as (_ & _ & Hxh & _).
    rewrite (to_small halfT (x / 2 ^ bits halfT)) by lia.
    set (f := obf_randomized_function halfT s c (x / 2 ^ bits halfT)).
    rewrite Z.shiftl_mul_pow2 by lia.
    set (y := to T (to T (x mod 2 ^ bits halfT + f) * 2 ^ bits halfT + x / 2 ^ bits halfT)).
    destruct (IH T Hwf y w Hw (to_range T _)) as (r & w1 & He & Hw1 & Hf & Hd).
    exists r, w1.
    split; [exact He |]. split; [exact Hw1 |]. split; [exact Hf |].
    intros w' Hw'. destruct (Hd w' Hw') as (w2 & -> & Hw2).
    exists w2. split; [| exact Hw2]. f_equal.
    rewrite Z.land_ones, Z.shiftr_div_pow2, Z.shiftl_mul_pow2 by lia.
    rewrite Hp in Hx.
    destruct (halving_round_arith (bits halfT) x f Hb Hx) as [_ Hy2].
    assert (Hyeq : y = ((x mod 2 ^ bits halfT + f) mod (2 ^ bits halfT * 2 ^ bits halfT)
                        * 2 ^ bits halfT + x / 2 ^ bits halfT)
                       mod (2 ^ bits halfT * 2 ^ bits halfT)).
    { subst y. unfold to, wrap. now rewrite Hp. }
    cbv zeta in Hy2. rewrite <- Hyeq in Hy2.
    assert (Hty : to halfT y = x / 2 ^ bits halfT) by (unfold to, wrap; exact Hy2).
    rewrite Hty. fold f.
    unfold to at 1. unfold wrap. rewrite Hp.
    rewrite Hyeq at 2.
    apply (halving_round_undo (bits halfT) x f
             (arith T (y / 2 ^ bits halfT - f)) Hb Hx).
    cbv zeta. rewrite <- Hyeq. apply (arith_mod_half T halfT _ Eh).
  - (* split-join *)
    destruct (obf_half_size_int T) as [halfT |] eqn:Eh; [| contradiction].
    destruct Hwf as (Hwlo & Hwhi & Hwf).
    cbn [injection surjection fits]. rewrite Eh.
    destruct (split_halves T halfT x Eh Hx) as (Hxh & Hxl & Hrh & Hrl).
    rewrite Hxh, Hxl.
    destruct (IHlo halfT Hwlo _ w Hw Hrh) as (lo1 & w1 & -> & Hw1 & Hflo & Hdlo).
    destruct (IHhi halfT Hwhi _ w1 Hw1 Hrl) as (hi1 & w2 & -> & Hw2 & Hfhi & Hdhi).
    destruct (fits_flatten lo halfT lo1 Hflo) as [Hrlo Hulo].
    destruct (fits_flatten hi halfT hi1 Hfhi) as [Hrhi Huhi].
    destruct (join_halves T halfT _ _ Eh Hrlo Hrhi) as (Hy & Hyh & Hyl).
    cbv zeta in Hy, Hyh, Hyl.
    destruct (IH T Hwf _ w2 Hw2 Hy) as (r & w3 & -> & Hw3 & Hf & Hd).
    exists r, w3.
    split; [reflexivity |]. split; [exact Hw3 |]. split; [exact Hf |].
    intros w' Hw'. destruct (Hd w' Hw') as (w4 & -> & Hw4).
    rewrite Hyh, Hyl, Huhi, Hulo.
    destruct (Hdhi w4 Hw4) as (w5 & -> & Hw5).
    destruct (Hdlo w5 Hw5) as (w6 & -> & Hw6).
    exists w6. split; [| exact Hw6]. f_equal.
    destruct (bits_half T halfT Eh) as (_ & _ & Hp).
    pose proof (bits_pos halfT) as Hb. pose proof (pow_bits_pos halfT) as HH.
    rewrite Z.shiftl_mul_pow2 by lia.
    rewrite to_small by (rewrite Hp; nia).
    rewrite (Z.div_mod x (2 ^ bits halfT)) at 3 by lia. ring.
  - (* multiply by the inverse *)
    destruct Hwf as (Hinv & Hcinv & Hwlit & Hwf).
    cbn [injection surjection fits].
    destruct (IHlit T Hwlit CINV w Hw Hcinv) as (val & w1 & -> & Hw1 & _ & Hdlit).
    destruct (Hdlit w1 Hw1) as (w2 & -> & Hw2).
    destruct (IH T Hwf (to T (x * CINV)) w2 Hw2 (to_range T _))
      as (r & w3 & -> & Hw3 & Hf & Hd).
    exists r, w3.
    split; [reflexivity |]. split; [exact Hw3 |]. split; [exact Hf |].
    intros w' Hw'. destruct (Hd w' Hw') as (w4 & -> & Hw4).
    exists w4. split; [| exact Hw4]. f_equal.
    rewrite to_mul_l. replace (x * CINV * C) with (x * (C * CINV)) by ring.
    rewrite <- to_mul_r, Hinv, Z.mul_1_r. now apply to_small.
  - (* split without join *)
    destruct (obf_half_size_int T) as [halfT |] eqn:Eh; [| contradiction].
    destruct Hwf as (Hwlo & Hwhi).
    cbn [injection surjection fits]. rewrite Eh.
    destruct (split_halves T halfT x Eh Hx) as (Hxh & Hxl & Hrh & Hrl).
    rewrite Hxh, Hxl.
    destruct (IHlo halfT Hwlo _ w Hw Hrl) as (lo1 & w1 & -> & Hw1 & Hflo & Hdlo).
    destruct (IHhi halfT Hwhi _ w1 Hw1 Hrh) as (hi1 & w2 & -> & Hw2 & Hfhi & Hdhi).
    exists (lanes lo1 hi1), w2.
    split; [reflexivity |]. split; [exact Hw2 |]. split; [split; assumption |].
    intros w' Hw'.
    destruct (Hdhi w' Hw') as (w3 & -> & Hw3).
    destruct (Hdlo w3 Hw3) as (w4 & -> & Hw4).
    exists w4. split; [| exact Hw4]. f_equal.
    destruct (bits_half T halfT Eh) as (_ & _ & Hp).
    pose proof (bits_pos halfT) as Hb. pose proof (pow_bits_pos halfT) as HH.
    rewrite Z.shiftl_mul_pow2 by lia.
    rewrite to_small by (rewrite Hp; nia).
    rewrite (Z.div_mod x (2 ^ bits halfT)) at 3 by lia. ring.
Qed.

End RoundTrip.

(** ** The trees [obf_injection] builds are well formed *)

Lemma obf_mul_inverse_loop_range (T : UInt) (fuel : nat) :
  forall mod_ num x lastx y lasty inv,
    obf_mul_inverse_loop fuel T mod_ num x lastx y lasty = Some inv ->
    0 <= y < 2 ^ bits T -> 0 <= lasty < 2 ^ bits T ->
    0 <= inv < 2 ^ bits T.
Proof.
  induction fuel as [| fuel IH]; intros mod_ num x lastx y lasty inv H Hy Hl;
    cbn [obf_mul_inverse_loop] in H; [discriminate |].
  destruct (num =? 0).
  - apply Some_inj in H. now subst.
  - eapply IH; [exact H | apply to_range | exact Hy].
Qed.

Lemma obf_mul_inverse_mod2n_range (T : UInt) (num inv : Z) :
  0 <= num < 2 ^ bits T ->
  obf_mul_inverse_mod2n T num = Some inv ->
  0 <= inv < 2 ^ bits T.
Proof.
  intros Hn. unfold obf_mul_inverse_mod2n. cbv zeta. intros H.
  destruct (negb (Z.land num 1 =? 0)); [| discriminate].
  destruct (num =? to T (0 - 1)).
  - apply Some_inj in H. now subst.
  - bind_inv H. apply Some_inj in H. subst z.
    eapply obf_mul_inverse_loop_range; [exact E | apply to_range |].
    pose proof (pow_bits_pos T). destruct (bits_cases T) as [Hb | [Hb | [Hb | Hb]]];
      rewrite Hb; cbn; lia.
Qed.

Section Builder.

Variable OBFUSCATE_SEED : Z.
Variable obf_gen_const : UInt -> Z -> Z.
Variable OBFUSCATE_DEBUG_DISABLE_ANTI_DEBUG : bool.
Variable OBF_COMPILE_TIME_TESTS : nat.

Local Abbreviation build :=
  (obf_injection OBFUSCATE_SEED obf_gen_const OBF_COMPILE_TIME_TESTS).
Local Abbreviation encode :=
  (injection OBFUSCATE_SEED obf_gen_const OBFUSCATE_DEBUG_DISABLE_ANTI_DEBUG
     OBF_COMPILE_TIME_TESTS).
Local Abbreviation decode :=
  (surjection OBFUSCATE_SEED obf_gen_const OBFUSCATE_DEBUG_DISABLE_ANTI_DEBUG
     OBF_COMPILE_TIME_TESTS).
Local Abbreviation wf :=
  (well_formed OBFUSCATE_SEED obf_gen_const OBF_COMPILE_TIME_TESTS).
Local Abbreviation ok :=
  (world_ok OBFUSCATE_SEED obf_gen_const OBFUSCATE_DEBUG_DISABLE_ANTI_DEBUG
     OBF_COMPILE_TIME_TESTS).

Lemma obf_injection_well_formed (fuel : nat) :
  forall T ctx seed cycles exclude_version t,
    build fuel T ctx seed cycles exclude_version = Some t -> wf T t.
Proof.
  induction fuel as [| fuel IH]; intros T ctx seed cycles exclude_version t H;
    [discriminate |].
  cbn [obf_injection] in H. bind_inv H.
  do 6 (try destruct n as [| n]); bind_inv H; try discriminate H;
    apply Some_inj in H; subst t; cbn [well_formed].
  - congruence.
  - eauto.
  - split; [congruence | eauto].
  - rewrite E2. repeat split; eauto.
  - match goal with
    | Hm : obf_mul_inverse_mod2n _ _ = Some _ |- _ =>
        pose proof (obf_mul_inverse_mod2n_range _ _ _ (to_range _ _) Hm) as Hrange
    end.
    match goal with
    | Hq : (to _ (_ * _) =? to _ 1) = true |- _ => apply Z.eqb_eq in Hq; rename Hq into Hinv
    end.
    assert (Hone : to T 1 = 1) by (destruct T; reflexivity).
    rewrite Hone in Hinv.
    split; [exact Hinv |]. split; [exact Hrange |]. split; eauto.
  - rewrite E2. repeat split; eauto.
Qed.

End Builder.

(** ** Round trip of the trees [obf_injection] builds *)

Section BuiltTrees.

Variable OBFUSCATE_SEED : Z.
Variable obf_gen_const : UInt -> Z -> Z.
Variable OBFUSCATE_DEBUG_DISABLE_ANTI_DEBUG : bool.
Variable OBF_COMPILE_TIME_TESTS : nat.

Local Abbreviation build :=
  (obf_injection OBFUSCATE_SEED obf_gen_const OBF_COMPILE_TIME_TESTS).
Local Abbreviation encode :=
  (injection OBFUSCATE_SEED obf_gen_const OBFUSCATE_DEBUG_DISABLE_ANTI_DEBUG
     OBF_COMPILE_TIME_TESTS).
Local Abbreviation decode :=
  (surjection OBFUSCATE_SEED obf_gen_const OBFUSCATE_DEBUG_DISABLE_ANTI_DEBUG
     OBF_COMPILE_TIME_TESTS).
Local Abbreviation ok :=
  (world_ok OBFUSCATE_SEED obf_gen_const OBFUSCATE_DEBUG_DISABLE_ANTI_DEBUG
     OBF_COMPILE_TIME_TESTS).

(** The statics as the program starts form a world without a debugger as soon
    as the debug byte is zero or the check is compiled out. *)
Lemma initial_world_ok (peb_2 : Z) :
  OBFUSCATE_DEBUG_DISABLE_ANTI_DEBUG = true \/ peb_2 = 0 ->
  ok (initial_world OBFUSCATE_SEED obf_gen_const OBF_COMPILE_TIME_TESTS peb_2).
Proof.
  intros Hd. split; [exact Hd |]. split.
  - intros T seed CC H. cbn. now rewrite H.
  - intros T seed k H. cbn. rewrite H.
    apply (counter_invariant_CC0 obf_gen_const OBF_COMPILE_TIME_TESTS T seed k H).
Qed.

(** C1 (as amended): for every strategy tree [obf_injection] builds (versions
    0 to 5, every supported width, every context) and every representable [x]:
    when [injection(x)] is computed in a world in which no debugger is detected
    (the byte [obf_peb[2]] is 0, or the anti-debug code is compiled out), its
    result is decoded back to [x] by [surjection] in every world in which no
    debugger is detected, also when other encoded values are used in between.
    The condition is needed at both times: the leaf contexts read the byte when
    they decode, and the multiplicative strategy decodes a literal when it
    encodes. *)
Theorem obf_injection_roundtrip
    (fuel : nat) (T : UInt) (ctx : Context) (seed cycles exclude_version : Z)
    (t : Injection) (w : World) (x : Z) :
  build fuel T ctx seed cycles exclude_version = Some t ->
  ok w ->
  0 <= x < 2 ^ bits T ->
  exists r w1,
    encode T t x w = (r, w1) /\ ok w1 /\
    forall w', ok w' -> exists w2, decode T t r w' = (x, w2) /\ ok w2.
Proof.
  intros Hb Hw Hx.
  apply obf_injection_well_formed in Hb.
  destruct (injection_surjection_wf OBFUSCATE_SEED obf_gen_const
              OBFUSCATE_DEBUG_DISABLE_ANTI_DEBUG OBF_COMPILE_TIME_TESTS
              t T Hb x w Hw Hx) as (r & w1 & He & Hw1 & _ & Hd).
  exists r, w1. auto.
Qed.

End BuiltTrees.

Lemma obf_injection_roundtrip_witness :
  obf_injection 0x0c7dfa61a867b125 (fun _ s => s) 100 60 uint32_t (obf_var_Context 1 30)
    (obf_compile_time_prng 1 2) 30 size_t_minus1 = Some example_var_tree /\
  world_ok 0x0c7dfa61a867b125 (fun _ s => s) false 100
    (initial_world 0x0c7dfa61a867b125 (fun _ s => s) 100 0) /\
  0 <= 0x12345678 < 2 ^ bits uint32_t /\
  exists r w1,
    injection 0x0c7dfa61a867b125 (fun _ s => s) false 100 uint32_t example_var_tree
      0x12345678 (initial_world 0x0c7dfa61a867b125 (fun _ s => s) 100 0) = (r, w1) /\
    world_ok 0x0c7dfa61a867b125 (fun _ s => s) false 100 w1 /\
    forall w', world_ok 0x0c7dfa61a867b125 (fun _ s => s) false 100 w' ->
      exists w2,
        surjection 0x0c7dfa61a867b125 (fun _ s => s) false 100 uint32_t example_var_tree
          r w' = (0x12345678, w2) /\
        world_ok 0x0c7dfa61a867b125 (fun _ s => s) false 100 w2.
Proof.
  assert (Hb : obf_injection 0x0c7dfa61a867b125 (fun _ s => s) 100 60 uint32_t
                 (obf_var_Context 1 30) (obf_compile_time_prng 1 2) 30 size_t_minus1
               = Some example_var_tree) by (vm_compute; reflexivity).
  assert (Hw : world_ok 0x0c7dfa61a867b125 (fun _ s => s) false 100
                 (initial_world 0x0c7dfa61a867b125 (fun _ s => s) 100 0))
    by (apply initial_world_ok; right; reflexivity).
  assert (Hx : 0 <= 0x12345678 < 2 ^ bits uint32_t) by (vm_compute; split; congruence).
  split; [exact Hb |]. split; [exact Hw |]. split; [exact Hx |].
  exact (obf_injection_roundtrip 0x0c7dfa61a867b125 (fun _ s => s) false 100 60 uint32_t
           (obf_var_Context 1 30) (obf_compile_time_prng 1 2) 30 size_t_minus1
           example_var_tree _ 0x12345678 Hb Hw Hx).
Defined.

(** C1 (as stated) fails: the literal [obf_literal<uint32_t, 5, 1, 10>] ends in
    the debugger-presence leaf with constant 15; with the debug byte at 1 the
    encoding 20 of 5 is decoded to [20 - 15 * (1 + 1)], which is 4294967286 and
    not 5. *)
Lemma obf_injection_roundtrip_fails_under_debugger :
  obf_literal_Injection 0x0c7dfa61a867b125 (fun _ s => s) 100 5
    {| make_unsigned := uint32_t; is_signed := false |} 1 10 = Some example_literal_tree /\
  WhichType 0x0c7dfa61a867b125 (fun _ s => s) 100 uint32_t 7806831264735756412 10
  = Some (literal_version3 15) /\
  (let w := initial_world 0x0c7dfa61a867b125 (fun _ s => s) 100 1 in
   let '(r, w1) :=
     injection 0x0c7dfa61a867b125 (fun _ s => s) false 100 uint32_t
       example_literal_tree 5 w in
   r = scalar 20 /\
   fst (surjection 0x0c7dfa61a867b125 (fun _ s => s) false 100 uint32_t
          example_literal_tree r w1) = 4294967286) /\
  4294967286 <> 5.
Proof. vm_compute. repeat split; discriminate. Qed.

(** A debugger present while a value is encoded is enough to lose it: the
    tree of [obf_var<uint32_t, 12, 100>] starts with a multiplicative node,
    whose [injection] adds [literal().value()], and that literal is decoded
    through the debugger-presence leaf.  5 encoded with the debug byte at 1 is
    decoded to 4294963926 with the debug byte at 0. *)
Lemma injection_under_debugger_not_decoded :
  obf_var_Injection 0x0c7dfa61a867b125 (fun _ s => s) 100 120 uint32 12 100
  = Some example_var_tree_100 /\
  (let w1 := initial_world 0x0c7dfa61a867b125 (fun _ s => s) 100 1 in
   let w0 := initial_world 0x0c7dfa61a867b125 (fun _ s => s) 100 0 in
   fst (surjection 0x0c7dfa61a867b125 (fun _ s => s) false 100 uint32_t
          example_var_tree_100
          (fst (injection 0x0c7dfa61a867b125 (fun _ s => s) false 100 uint32_t
                  example_var_tree_100 5 w1))
          w0) = 4294963926).
Proof. vm_compute. split; reflexivity. Qed.

(** ** Variables *)

Lemma to_T__to (T_ : IntType) (z : Z) :
  to_T_ T_ (to (make_unsigned T_) z) = to_T_ T_ z.
Proof. unfold to_T_. now rewrite to_to. Qed.

Lemma to_to_T_ (T_ : IntType) (z : Z) :
  to (make_unsigned T_) (to_T_ T_ z) = to (make_unsigned T_) z.
Proof.
  unfold to_T_.
  destruct (is_signed T_ && (2 ^ (bits (make_unsigned T_) - 1) <=? to (make_unsigned T_) z)).
  - unfold to, wrap.
    rewrite <- (Z.mod_add _ 1 (2 ^ bits (make_unsigned T_)))
      by (pose proof (pow_bits_pos (make_unsigned T_)); lia).
    rewrite Z.mul_1_l, Z.sub_add. apply Z.mod_mod.
    pose proof (pow_bits_pos (make_unsigned T_)); lia.
  - apply to_to.
Qed.

Lemma to_T__idem (T_ : IntType) (z : Z) : to_T_ T_ (to_T_ T_ z) = to_T_ T_ z.
Proof. rewrite <- (to_T__to T_ (to_T_ T_ z)), to_to_T_. apply to_T__to. Qed.

Section Variables.

Variable OBFUSCATE_SEED : Z.
Variable obf_gen_const : UInt -> Z -> Z.
Variable OBFUSCATE_DEBUG_DISABLE_ANTI_DEBUG : bool.
Variable OBF_COMPILE_TIME_TESTS : nat.

Local Abbreviation ok :=
  (world_ok OBFUSCATE_SEED obf_gen_const OBFUSCATE_DEBUG_DISABLE_ANTI_DEBUG
     OBF_COMPILE_TIME_TESTS).
Local Abbreviation holds :=
  (obf_var_holds OBFUSCATE_SEED obf_gen_const OBFUSCATE_DEBUG_DISABLE_ANTI_DEBUG
     OBF_COMPILE_TIME_TESTS).
Local Abbreviation construct :=
  (obf_var_construct OBFUSCATE_SEED obf_gen_const OBFUSCATE_DEBUG_DISABLE_ANTI_DEBUG
     OBF_COMPILE_TIME_TESTS).
Local Abbreviation assign :=
  (obf_var_assign OBFUSCATE_SEED obf_gen_const OBFUSCATE_DEBUG_DISABLE_ANTI_DEBUG
     OBF_COMPILE_TIME_TESTS).
Local Abbreviation value :=
  (obf_var_value OBFUSCATE_SEED obf_gen_const OBFUSCATE_DEBUG_DISABLE_ANTI_DEBUG
     OBF_COMPILE_TIME_TESTS).
Local Abbreviation post_increment :=
  (obf_var_post_increment OBFUSCATE_SEED obf_gen_const OBFUSCATE_DEBUG_DISABLE_ANTI_DEBUG
     OBF_COMPILE_TIME_TESTS).
Local Abbreviation post_decrement :=
  (obf_var_post_decrement OBFUSCATE_SEED obf_gen_const OBFUSCATE_DEBUG_DISABLE_ANTI_DEBUG
     OBF_COMPILE_TIME_TESTS).

(** A variable constructed from, or assigned, [t] holds [T_(t)]. *)
Lemma obf_var_construct_holds
    (fuel : nat) (T_ : IntType) (seed cycles : Z) (Inj : Injection) (t : Z) (w : World) :
  obf_var_Injection OBFUSCATE_SEED obf_gen_const OBF_COMPILE_TIME_TESTS fuel T_ seed cycles
  = Some Inj ->
  ok w ->
  exists this w',
    construct T_ Inj t w = (this, w') /\ ok w' /\ holds T_ Inj this (to_T_ T_ t).
Proof.
  intros Hb Hw. unfold obf_var_Injection in Hb.
  apply obf_injection_well_formed in Hb.
  destruct (injection_surjection_wf OBFUSCATE_SEED obf_gen_const
              OBFUSCATE_DEBUG_DISABLE_ANTI_DEBUG OBF_COMPILE_TIME_TESTS
              Inj _ Hb (to (make_unsigned T_) t) w Hw (to_range _ _))
    as (r & w1 & He & Hw1 & _ & Hd).
  exists r, w1. split; [exact He |]. split; [exact Hw1 |].
  intros w' Hw'. destruct (Hd w' Hw') as (w2 & Hd2 & Hw2).
  exists w2. split; [| exact Hw2].
  unfold obf_var_value. rewrite Hd2. now rewrite to_T__to.
Qed.

Lemma obf_var_holds_representable
    (T_ : IntType) (Inj : Injection) (this : Rep) (x : Z) (w : World) :
  ok w -> holds T_ Inj this x -> to_T_ T_ x = x.
Proof.
  intros Hw Hh. destruct (Hh w Hw) as (w' & Hv & _).
  unfold obf_var_value in Hv.
  destruct (surjection _ _ _ _ _ Inj this w) as [u w0].
  apply (f_equal fst) in Hv. cbn in Hv. subst x. apply to_T__idem.
Qed.

(** C10 (as amended): for every [obf_var] holding the logical value [x], when
    the post-decrement operator runs in a world in which no debugger is
    detected (the byte [obf_peb[2]] is 0, or the anti-debug code is compiled
    out), it returns a copy holding [x] and leaves the variable holding [x + 1]
    (reduced to the type): it assigns [value() + 1], and so does exactly what
    the post-increment operator does.  The post-decrement of [obf_var_dbg]
    behaves the same way, in every world. *)
Theorem post_decrement_adds_one
    (fuel : nat) (T_ : IntType) (seed cycles : Z) (Inj : Injection)
    (this : Rep) (w : World) (x : Z) :
  obf_var_Injection OBFUSCATE_SEED obf_gen_const OBF_COMPILE_TIME_TESTS fuel T_ seed cycles
  = Some Inj ->
  ok w ->
  holds T_ Inj this x ->
  (let '(ret, this', w') := post_decrement T_ Inj this w in
   ok w' /\
   holds T_ Inj ret x /\
   holds T_ Inj this' (to_T_ T_ (x + 1)) /\
   post_decrement T_ Inj this w = post_increment T_ Inj this w) /\
  (let '(ret, this') := obf_var_dbg_post_decrement T_ x in
   obf_var_dbg_value T_ ret = x /\
   obf_var_dbg_value T_ this' = to_T_ T_ (x + 1) /\
   obf_var_dbg_post_decrement T_ x = obf_var_dbg_post_increment T_ x).
Proof.
  intros Hb Hw Hh.
  pose proof (obf_var_holds_representable T_ Inj this x w Hw Hh) as Hx.
  assert (Heq : post_decrement T_ Inj this w = post_increment T_ Inj this w)
    by reflexivity.
  split.
  - rewrite <- Heq. clear Heq. unfold obf_var_post_decrement.
    destruct (Hh w Hw) as (w1 & -> & Hw1).
    destruct (obf_var_construct_holds fuel T_ seed cycles Inj x w1 Hb Hw1)
      as (ret & w2 & -> & Hw2 & Hret).
    destruct (Hh w2 Hw2) as (w3 & -> & Hw3).
    destruct (obf_var_construct_holds fuel T_ seed cycles Inj (to_T_ T_ (x + 1)) w3 Hb Hw3)
      as (this' & w4 & Ha & Hw4 & Hthis).
    unfold obf_var_assign. unfold obf_var_construct in Ha. rewrite Ha.
    rewrite Hx in Hret. rewrite to_T__idem in Hthis.
    split; [exact Hw4 |]. split; [exact Hret |]. split; [exact Hthis |].
    reflexivity.
  - unfold obf_var_dbg_post_decrement, obf_var_dbg_post_increment, obf_var_dbg_construct,
      obf_var_dbg_assign, obf_var_dbg_value.
    auto.
Qed.

End Variables.

Lemma post_decrement_adds_one_witness :
  let w0 := initial_world 0x0c7dfa61a867b125 (fun _ s => s) 100 0 in
  let this :=
    fst (obf_var_construct 0x0c7dfa61a867b125 (fun _ s => s) false 100 uint32
           example_var_tree 41 w0) in
  obf_var_Injection 0x0c7dfa61a867b125 (fun _ s => s) 100 60 uint32 1 30
  = Some example_var_tree /\
  world_ok 0x0c7dfa61a867b125 (fun _ s => s) false 100 w0 /\
  obf_var_holds 0x0c7dfa61a867b125 (fun _ s => s) false 100 uint32 example_var_tree this 41 /\
  (let '(ret, this', w') :=
     obf_var_post_decrement 0x0c7dfa61a867b125 (fun _ s => s) false 100 uint32
       example_var_tree this w0 in
   world_ok 0x0c7dfa61a867b125 (fun _ s => s) false 100 w' /\
   obf_var_holds 0x0c7dfa61a867b125 (fun _ s => s) false 100 uint32 example_var_tree ret 41 /\
   obf_var_holds 0x0c7dfa61a867b125 (fun _ s => s) false 100 uint32 example_var_tree this'
     (to_T_ uint32 (41 + 1)) /\
   obf_var_post_decrement 0x0c7dfa61a867b125 (fun _ s => s) false 100 uint32
     example_var_tree this w0
   = obf_var_post_increment 0x0c7dfa61a867b125 (fun _ s => s) false 100 uint32
       example_var_tree this w0) /\
  (let '(ret, this') := obf_var_dbg_post_decrement uint32 41 in
   obf_var_dbg_value uint32 ret = 41 /\
   obf_var_dbg_value uint32 this' = to_T_ uint32 (41 + 1) /\
   obf_var_dbg_post_decrement uint32 41 = obf_var_dbg_post_increment uint32 41).
Proof.
  intros w0 this.
  assert (Hb : obf_var_Injection 0x0c7dfa61a867b125 (fun _ s => s) 100 60 uint32 1 30
               = Some example_var_tree) by (vm_compute; reflexivity).
  assert (Hw : world_ok 0x0c7dfa61a867b125 (fun _ s => s) false 100 w0)
    by (apply initial_world_ok; right; reflexivity).
  assert (Hh : obf_var_holds 0x0c7dfa61a867b125 (fun _ s => s) false 100 uint32
                 example_var_tree this 41).
  { destruct (obf_var_construct_holds 0x0c7dfa61a867b125 (fun _ s => s) false 100
                60 uint32 1 30 example_var_tree 41 w0 Hb Hw) as (r & w1 & He & _ & Hr).
    subst this. rewrite He. exact Hr. }
  split; [exact Hb |]. split; [exact Hw |]. split; [exact Hh |].
  exact (post_decrement_adds_one 0x0c7dfa61a867b125 (fun _ s => s) false 100
           60 uint32 1 30 example_var_tree this w0 41 Hb Hw Hh).
Defined.

(** C10 (as stated) fails under a debugger: the variable
    [obf_var<uint32_t, 12, 100>] holds 41; its tree starts with a
    multiplicative node whose [injection] reads a literal through the
    debugger-presence leaf.  When the post-decrement runs with the debug byte
    at 1, where the variable still reads 41, the copy it returns reads
    4294939662 and not 41, and the variable is left reading 4294938988 and not
    42, with the debug byte at 0 as well as at 1. *)
Lemma post_decrement_fails_under_debugger :
  let w0 := initial_world 0x0c7dfa61a867b125 (fun _ s => s) 100 0 in
  let w1 := initial_world 0x0c7dfa61a867b125 (fun _ s => s) 100 1 in
  let this :=
    fst (obf_var_construct 0x0c7dfa61a867b125 (fun _ s => s) false 100 uint32
           example_var_tree_100 41 w0) in
  let res :=
    obf_var_post_decrement 0x0c7dfa61a867b125 (fun _ s => s) false 100 uint32
      example_var_tree_100 this w1 in
  let ret := fst (fst res) in
  let this' := snd (fst res) in
  obf_var_Injection 0x0c7dfa61a867b125 (fun _ s => s) 100 120 uint32 12 100
  = Some example_var_tree_100 /\
  WhichType 0x0c7dfa61a867b125 (fun _ s => s) 100 uint32_t 4025353432212273003 50
  = Some (literal_version3 3) /\
  obf_var_holds 0x0c7dfa61a867b125 (fun _ s => s) false 100 uint32
    example_var_tree_100 this 41 /\
  fst (obf_var_value 0x0c7dfa61a867b125 (fun _ s => s) false 100 uint32
         example_var_tree_100 this w1) = 41 /\
  fst (obf_var_value 0x0c7dfa61a867b125 (fun _ s => s) false 100 uint32
         example_var_tree_100 ret w0) = 4294939662 /\
  fst (obf_var_value 0x0c7dfa61a867b125 (fun _ s => s) false 100 uint32
         example_var_tree_100 ret w1) = 4294939662 /\
  fst (obf_var_value 0x0c7dfa61a867b125 (fun _ s => s) false 100 uint32
         example_var_tree_100 this' w0) = 4294938988 /\
  fst (obf_var_value 0x0c7dfa61a867b125 (fun _ s => s) false 100 uint32
         example_var_tree_100 this' w1) = 4294938988 /\
  ~ obf_var_holds 0x0c7dfa61a867b125 (fun _ s => s) false 100 uint32
      example_var_tree_100 ret 41 /\
  ~ obf_var_holds 0x0c7dfa61a867b125 (fun _ s => s) false 100 uint32
      example_var_tree_100 this' (to_T_ uint32 (41 + 1)).
Proof.
  intros w0 w1 this res ret this'.
  assert (Hb : obf_var_Injection 0x0c7dfa61a867b125 (fun _ s => s) 100 120 uint32 12 100
               = Some example_var_tree_100) by (vm_compute; reflexivity).
  assert (Hw : world_ok 0x0c7dfa61a867b125 (fun _ s => s) false 100 w0)
    by (apply initial_world_ok; right; reflexivity).
  split; [exact Hb |]. split; [vm_compute; reflexivity |]. split.
  { destruct (obf_var_construct_holds 0x0c7dfa61a867b125 (fun _ s => s) false 100
                120 uint32 12 100 example_var_tree_100 41 w0 Hb Hw)
      as (r & w' & He & _ & Hr).
    subst this. rewrite He. exact Hr. }
  split; [vm_compute; reflexivity |]. split; [vm_compute; reflexivity |].
  split; [vm_compute; reflexivity |]. split; [vm_compute; reflexivity |].
  split; [vm_compute; reflexivity |]. split.
  - intros H. destruct (H w0 Hw) as (w' & Hv & _).
    apply (f_equal fst) in Hv. vm_compute in Hv. discriminate.
  - intros H. destruct (H w0 Hw) as (w' & Hv & _).
    apply (f_equal fst) in Hv. vm_compute in Hv. discriminate.
Qed.

(** ** Binary64 arithmetic *)

Lemma binary_round_aux_sign (prec emax : Z) (sx : bool) (mx ex : Z) (lx : location) :
  match binary_round_aux prec emax sx mx ex lx with
  | S754_finite s _ _ => s = sx
  | _ => True
  end.
Proof.
  unfold binary_round_aux.
  destruct (shr_fexp prec emax mx ex lx) as [mrs' e'].
  destruct (shr_fexp prec emax _ e' loc_Exact) as [mrs'' e''].
  destruct (shr_m mrs''); auto.
  destruct (Z.leb e'' (Z.sub emax prec)); auto.
Qed.

Lemma double_of_Z_not_negative (z : Z) : 0 <= z -> not_negative (double_of_Z z).
Proof.
  intros Hz. unfold double_of_Z, binary_normalize.
  destruct z as [| p | p]; [exact I | | lia].
  unfold binary_round. destruct (shl_align _ _ _) as [mz ez].
  pose proof (binary_round_aux_sign 53 1024 false (Z.pos mz) ez loc_Exact) as H.
  unfold not_negative. destruct (binary_round_aux _ _ _ _ _ _); auto.
Qed.

Lemma double_div_not_negative (x y : spec_float) :
  not_negative x -> not_negative y -> not_negative (double_div x y).
Proof.
  unfold double_div, SFdiv, not_negative.
  destruct x as [sx | sx | | sx mx ex], y as [sy | sy | | sy my ey]; intros Hx Hy; auto.
  subst. destruct (SFdiv_core_binary _ _ _ _ _ _) as [[mz ez] lz].
  pose proof (binary_round_aux_sign 53 1024 (xorb false false) mz ez lz) as H.
  destruct (binary_round_aux _ _ _ _ _ _); auto.
Qed.

Lemma double_mul_not_negative (x y : spec_float) :
  not_negative x -> not_negative y -> not_negative (double_mul x y).
Proof.
  unfold double_mul, SFmul, not_negative.
  destruct x as [sx | sx | | sx mx ex], y as [sy | sy | | sy my ey]; intros Hx Hy; auto.
  subst.
  pose proof (binary_round_aux_sign 53 1024 (xorb false false)
                (Z.pos (Pos.mul mx my)) (Z.add ex ey) loc_Exact) as H.
  destruct (binary_round_aux _ _ _ _ _ _); auto.
Qed.

Lemma double_trunc_not_negative (d : spec_float) (z : Z) :
  not_negative d -> double_trunc d = Some z -> 0 <= z.
Proof.
  unfold not_negative, double_trunc.
  destruct d as [s | s | | s m e]; intros Hd H; try discriminate.
  - apply Some_inj in H. lia.
  - subst s. apply Some_inj in H. subst z.
    cbv zeta. destruct (Z.leb_spec 0 e).
    + apply Z.mul_nonneg_nonneg; [lia |]. apply Z.pow_nonneg. lia.
    + apply Z.div_pos; [lia |]. apply Z.pow_pos_nonneg; lia.
Qed.

Lemma int32_t_small (z : Z) : 0 <= z < 2 ^ 31 -> int32_t z = z.
Proof.
  intros H. unfold int32_t, wrap. cbv zeta.
  assert (H32 : 2 ^ 32 = 2 * 2 ^ 31) by reflexivity.
  rewrite Z.mod_small by lia.
  destruct (Z.ltb_spec z (2 ^ 31)); lia.
Qed.


(** *** Digits and shifts *)

Lemma digits2_pos_spec (p : positive) :
  2 ^ (Z.pos (digits2_pos p) - 1) <= Z.pos p < 2 ^ Z.pos (digits2_pos p).
Proof.
  induction p as [p IH | p IH |]; cbn [digits2_pos].
  - rewrite Pos2Z.inj_succ. change (Z.pos p~1) with (2 * Z.pos p + 1).
    replace (Z.succ (Z.pos (digits2_pos p)) - 1)
      with (Z.succ (Z.pos (digits2_pos p) - 1)) by lia.
    rewrite !Z.pow_succ_r by lia.
    set (X := 2 ^ (Z.pos (digits2_pos p) - 1)) in *.
    set (Y := 2 ^ Z.pos (digits2_pos p)) in *. lia.
  - rewrite Pos2Z.inj_succ. change (Z.pos p~0) with (2 * Z.pos p).
    replace (Z.succ (Z.pos (digits2_pos p)) - 1)
      with (Z.succ (Z.pos (digits2_pos p) - 1)) by lia.
    rewrite !Z.pow_succ_r by lia.
    set (X := 2 ^ (Z.pos (digits2_pos p) - 1)) in *.
    set (Y := 2 ^ Z.pos (digits2_pos p)) in *. lia.
  - cbn. lia.
Qed.

Lemma Zdigits2_spec (m : Z) :
  0 < m -> 0 < Zdigits2 m /\ 2 ^ (Zdigits2 m - 1) <= m < 2 ^ Zdigits2 m.
Proof.
  destruct m as [| p | p]; try lia. intros _. cbn [Zdigits2].
  split; [lia | apply digits2_pos_spec].
Qed.

Lemma Zdigits2_unique (m k : Z) :
  0 < k -> 2 ^ (k - 1) <= m < 2 ^ k -> Zdigits2 m = k.
Proof.
  intros Hk Hm.
  assert (0 < m) by (pose proof (Z.pow_pos_nonneg 2 (k - 1)); lia).
  destruct (Zdigits2_spec m) as [Hd Hs]; [assumption |].
  destruct (Z.lt_trichotomy (Zdigits2 m) k) as [Hlt | [Heq | Hgt]]; [| exact Heq |].
  - pose proof (Z.pow_le_mono_r 2 (Zdigits2 m) (k - 1)). lia.
  - pose proof (Z.pow_le_mono_r 2 k (Zdigits2 m - 1)). lia.
Qed.

Lemma Zdigits2_le (m D : Z) : 0 < m < 2 ^ D -> Zdigits2 m <= D.
Proof.
  intros Hm. destruct (Zdigits2_spec m) as [Hd Hs]; [lia |].
  destruct (Z.le_gt_cases (Zdigits2 m) D) as [Hle | Hgt]; [exact Hle |].
  destruct (Z.le_gt_cases 0 D) as [HD | HD].
  - pose proof (Z.pow_le_mono_r 2 D (Zdigits2 m - 1)). lia.
  - rewrite (Z.pow_neg_r 2 D) in Hm by lia. lia.
Qed.

Lemma Zdigits2_gt (m k : Z) : 0 <= k -> 2 ^ k <= m -> k < Zdigits2 m.
Proof.
  intros Hk Hm.
  assert (0 < m) by (pose proof (Z.pow_pos_nonneg 2 k); lia).
  destruct (Zdigits2_spec m) as [Hd Hs]; [assumption |].
  destruct (Z.le_gt_cases (Zdigits2 m) k) as [Hle | Hgt]; [| exact Hgt].
  pose proof (Z.pow_le_mono_r 2 (Zdigits2 m) k). lia.
Qed.

Lemma iter_xO (k p : positive) : Z.pos (Pos.iter xO p k) = Z.pos p * 2 ^ Z.pos k.
Proof.
  induction k as [| k IH] using Pos.peano_ind.
  - change (Z.pos (Pos.iter xO p 1)) with (2 * Z.pos p). change (2 ^ 1) with 2. ring.
  - rewrite Pos.iter_succ. change (Z.pos (Pos.iter xO p k)~0) with (2 * Z.pos (Pos.iter xO p k)).
    rewrite IH, Pos2Z.inj_succ, Z.pow_succ_r by lia. ring.
Qed.

Lemma shr_1_m (mrs : shr_record) :
  0 <= shr_m mrs -> shr_m (shr_1 mrs) = shr_m mrs / 2.
Proof.
  destruct mrs as [[| [p | p |] | p] r s]; cbn [shr_m]; intros H; try lia;
    rewrite <- Z.div2_div; reflexivity.
Qed.

Lemma iter_pos_shr_1_m (p : positive) :
  forall mrs, 0 <= shr_m mrs ->
    shr_m (iter_pos shr_1 p mrs) = shr_m mrs / 2 ^ Z.pos p.
Proof.
  assert (Hpow : forall q, 0 < 2 ^ Z.pos q) by (intros q; apply Z.pow_pos_nonneg; lia).
  induction p as [p IH | p IH |]; intros mrs H; cbn [iter_pos].
  - assert (H1 : 0 <= shr_m (shr_1 mrs)) by (rewrite shr_1_m by lia; apply Z.div_pos; lia).
    assert (H2 : 0 <= shr_m (iter_pos shr_1 p (shr_1 mrs))).
    { rewrite IH by lia. apply Z.div_pos; [lia | apply Hpow]. }
    rewrite IH, IH, shr_1_m by lia.
    pose proof (Hpow p).
    rewrite !Z.div_div by lia.
    change (Z.pos p~1) with (2 * Z.pos p + 1).
    replace (2 * Z.pos p + 1) with (1 + Z.pos p + Z.pos p) by lia.
    rewrite !Z.pow_add_r by lia. change (2 ^ 1) with 2. f_equal. ring.
  - assert (H2 : 0 <= shr_m (iter_pos shr_1 p mrs)).
    { rewrite IH by lia. apply Z.div_pos; [lia | apply Hpow]. }
    rewrite IH, IH by lia.
    pose proof (Hpow p).
    rewrite !Z.div_div by lia.
    change (Z.pos p~0) with (2 * Z.pos p).
    replace (2 * Z.pos p) with (Z.pos p + Z.pos p) by lia.
    rewrite !Z.pow_add_r by lia. f_equal.
  - rewrite shr_1_m by lia. reflexivity.
Qed.

Lemma shr_record_of_loc_m (m : Z) (l : location) : shr_m (shr_record_of_loc m l) = m.
Proof. destruct l as [| []]; reflexivity. Qed.

Lemma loc_of_shr_record_of_loc (m : Z) (l : location) :
  loc_of_shr_record (shr_record_of_loc m l) = l.
Proof. destruct l as [| []]; reflexivity. Qed.

Lemma round_nearest_even_bounds (m : Z) (l : location) :
  m <= round_nearest_even m l <= m + 1.
Proof. destruct l as [| []]; cbn; try destruct (Z.even m); lia. Qed.

(** *** Rounding of a mantissa of at least 53 bits *)

Lemma shr_fexp_normal (m e : Z) (l : location) :
  2 ^ 52 <= m -> -1074 <= e ->
  exists mrs n,
    shr_fexp 53 1024 m e l = (mrs, e + n) /\
    n = Zdigits2 m - 53 /\ 0 <= n /\
    2 ^ 52 <= shr_m mrs < 2 ^ 53 /\
    shr_m mrs * 2 ^ n <= m /\
    (n = 0 -> mrs = shr_record_of_loc m l).
Proof.
  intros Hm He.
  destruct (Zdigits2_spec m) as [Hd Hs]; [lia |].
  pose proof (Zdigits2_gt m 52 ltac:(lia) Hm) as Hd52.
  unfold shr_fexp, fexp, emin.
  replace (Z.max (Zdigits2 m + e - 53) (3 - 1024 - 53) - e) with (Zdigits2 m - 53) by lia.
  destruct (Zdigits2 m - 53) as [| k | k] eqn:En; [| | lia]; cbn [shr].
  - exists (shr_record_of_loc m l), 0. rewrite shr_record_of_loc_m, Z.add_0_r.
    replace (Zdigits2 m) with 53 in Hs by lia.
    change (53 - 1) with 52 in Hs. change (2 ^ 0) with 1.
    repeat split; try lia.
  - exists (iter_pos shr_1 k (shr_record_of_loc m l)), (Z.pos k).
    rewrite iter_pos_shr_1_m by (rewrite shr_record_of_loc_m; lia).
    rewrite shr_record_of_loc_m.
    assert (Hk : 0 < 2 ^ Z.pos k) by (apply Z.pow_pos_nonneg; lia).
    replace (Zdigits2 m - 1) with (52 + Z.pos k) in Hs by lia.
    replace (Zdigits2 m) with (53 + Z.pos k) in Hs by lia.
    rewrite !Z.pow_add_r in Hs by lia.
    repeat split; try lia.
    + apply Z.div_le_lower_bound; lia.
    + apply Z.div_lt_upper_bound; lia.
    + rewrite Z.mul_comm. apply Z.mul_div_le. lia.
Qed.

(** [binary_round_aux] on a positive mantissa of at least 53 bits, away from
    the subnormal and overflow ranges: the result is a normal number whose
    value exceeds [m * 2^e] by a factor of at most [1 + 2^-52]. *)
Lemma binary_round_aux_normal (s : bool) (m e : Z) (l : location) (D : Z) :
  2 ^ 52 <= m < 2 ^ D -> -1074 <= e -> e + D <= 1023 ->
  exists mr er,
    binary_round_aux 53 1024 s m e l = S754_finite s mr er /\
    e <= er <= e + D - 52 /\
    2 ^ 52 <= Z.pos mr < 2 ^ 53 /\
    2 ^ 52 * (Z.pos mr * 2 ^ (er - e)) <= (2 ^ 52 + 1) * m /\
    (l = loc_Exact -> m < 2 ^ 53 -> Z.pos mr = m /\ er = e).
Proof.
  intros Hm He HD.
  destruct (shr_fexp_normal m e l) as (mrs & n & E1 & En & Hn & Hmrs & Hle & Hn0); [lia .. |].
  pose proof (Zdigits2_le m D ltac:(lia)) as HdD.
  unfold binary_round_aux. rewrite E1.
  pose proof (round_nearest_even_bounds (shr_m mrs) (loc_of_shr_record mrs)) as Hr.
  set (m2 := round_nearest_even (shr_m mrs) (loc_of_shr_record mrs)) in *.
  destruct (shr_fexp_normal m2 (e + n) loc_Exact)
    as (mrs2 & n2 & E2 & En2 & Hn2 & Hmrs2 & Hle2 & Hn20); [lia .. |].
  rewrite E2.
  assert (Hn21 : n2 <= 1).
  { pose proof (Zdigits2_le m2 54 ltac:(change (2 ^ 54) with (2 * 2 ^ 53); lia)). lia. }
  destruct (shr_m mrs2) as [| mr | mr] eqn:Emr; [lia | | lia].
  destruct (Z.leb_spec (e + n + n2) (1024 - 53)) as [_ | Hov]; [| lia].
  exists mr, (e + n + n2). split; [reflexivity |]. split; [lia |]. split; [lia |].
  assert (Hpn : 0 < 2 ^ n) by (apply Z.pow_pos_nonneg; lia).
  split.
  - replace (e + n + n2 - e) with (n2 + n) by lia. rewrite Z.pow_add_r by lia.
    assert (H1 : Z.pos mr * 2 ^ n2 * 2 ^ n <= (shr_m mrs + 1) * 2 ^ n).
    { apply Z.mul_le_mono_nonneg_r; lia. }
    assert (H2 : 2 ^ 52 * 2 ^ n <= shr_m mrs * 2 ^ n).
    { apply Z.mul_le_mono_nonneg_r; lia. }
    set (X := 2 ^ n) in *. set (Y := 2 ^ n2) in *. clearbody X Y.
    replace (Z.pos mr * (Y * X)) with (Z.pos mr * Y * X) by ring.
    nia.
  - intros -> Hm53.
    assert (Hd : Zdigits2 m = 53).
    { apply Zdigits2_unique; [lia | change (53 - 1) with 52; lia]. }
    assert (Hz : n = 0) by lia. assert (Hmrs0 := Hn0 Hz). subst mrs.
    unfold m2 in *. cbn [shr_record_of_loc shr_m loc_of_shr_record round_nearest_even] in *.
    assert (Hz2 : n2 = 0) by lia. rewrite (Hn20 Hz2) in Emr.
    cbn [shr_record_of_loc shr_m] in Emr. lia.
Qed.

(** Integers below [2^53] convert exactly, to a normalised mantissa. *)
Lemma double_of_Z_exact (z : Z) :
  0 < z < 2 ^ 53 ->
  exists m e,
    double_of_Z z = S754_finite false m e /\
    -52 <= e <= 0 /\ 2 ^ 52 <= Z.pos m < 2 ^ 53 /\ Z.pos m = z * 2 ^ (- e).
Proof.
  intros Hz. destruct z as [| p | p]; try lia.
  unfold double_of_Z, binary_normalize, binary_round.
  pose proof (digits2_pos_spec p) as Hs.
  pose proof (Zdigits2_le (Z.pos p) 53 ltac:(lia)) as Hd. cbn [Zdigits2] in Hd.
  unfold fexp, emin.
  replace (Z.max (Z.pos (digits2_pos p) + 0 - 53) (3 - 1024 - 53))
    with (Z.pos (digits2_pos p) - 53) by lia.
  unfold shl_align. rewrite Z.sub_0_r.
  destruct (Z.pos (digits2_pos p) - 53) as [| k | k] eqn:Ek; [| lia |].
  - replace (Z.pos (digits2_pos p)) with 53 in Hs by lia. change (53 - 1) with 52 in Hs.
    destruct (binary_round_aux_normal false (Z.pos p) 0 loc_Exact 53)
      as (mr & er & E & _ & Hmr & _ & Hex); [lia .. |].
    destruct (Hex eq_refl ltac:(lia)) as [Hmr' ->].
    exists mr, 0. rewrite E. change (2 ^ (- 0)) with 1. repeat split; lia.
  - assert (Hk : 0 < 2 ^ Z.pos k) by (apply Z.pow_pos_nonneg; lia).
    assert (Hp : 2 ^ (Z.pos (digits2_pos p) - 1) * 2 ^ Z.pos k = 2 ^ 52).
    { rewrite <- Z.pow_add_r by lia. f_equal. lia. }
    assert (Hq : 2 ^ Z.pos (digits2_pos p) * 2 ^ Z.pos k = 2 ^ 53).
    { rewrite <- Z.pow_add_r by lia. f_equal. lia. }
    pose proof (iter_xO k p) as Hit.
    assert (HM : 2 ^ 52 <= Z.pos (Pos.iter xO p k) < 2 ^ 53).
    { rewrite Hit, <- Hp, <- Hq. split.
      - apply Z.mul_le_mono_nonneg_r; lia.
      - apply Z.mul_lt_mono_pos_r; lia. }
    destruct (binary_round_aux_normal false (Z.pos (Pos.iter xO p k)) (Z.neg k) loc_Exact 53)
      as (mr & er & E & _ & Hmr & _ & Hex); [lia .. |].
    destruct (Hex eq_refl ltac:(lia)) as [Hmr' ->].
    exists mr, (Z.neg k). rewrite E. change (- Z.neg k) with (Z.pos k).
    repeat split; lia.
Qed.

(** *** Quotient and product of integers held in doubles *)

Lemma SFdiv_core_binary_normal (m1 e1 m2 e2 : Z) :
  Zdigits2 m1 = 53 -> Zdigits2 m2 = 53 -> -1021 <= e1 - e2 ->
  exists l,
    SFdiv_core_binary 53 1024 m1 e1 m2 e2 = (m1 * 2 ^ 53 / m2, e1 - e2 - 53, l).
Proof.
  intros H1 H2 He. unfold SFdiv_core_binary. rewrite H1, H2. cbv zeta.
  unfold fexp, emin.
  replace (Z.min (Z.max (53 + e1 - (53 + e2) - 53) (3 - 1024 - 53)) (e1 - e2))
    with (e1 - e2 - 53) by lia.
  replace (e1 - e2 - (e1 - e2 - 53)) with 53 by lia. cbv iota.
  rewrite Z.shiftl_mul_pow2 by lia.
  unfold Z.div. destruct (Z.div_eucl (m1 * 2 ^ 53) m2) as [q r].
  eexists. reflexivity.
Qed.

(** The double nearest to [L / S] is at most [(1 + 2^-52) * L / S]; the
    inequality is scaled by [2^105] to stay within the integers. *)
Lemma double_div_upper (L S : Z) :
  0 < L < 2 ^ 53 -> 0 < S < 2 ^ 53 ->
  exists mq eq,
    double_div (double_of_Z L) (double_of_Z S) = S754_finite false mq eq /\
    -105 <= eq <= 54 /\ Z.pos mq < 2 ^ 53 /\
    2 ^ 52 * S * (Z.pos mq * 2 ^ (eq + 105)) <= (2 ^ 52 + 1) * L * 2 ^ 105.
Proof.
  intros HL HS.
  destruct (double_of_Z_exact L HL) as (mL & eL & EL & HeL & HmL & HvL).
  destruct (double_of_Z_exact S HS) as (mS & eS & ES & HeS & HmS & HvS).
  unfold double_div, SFdiv. rewrite EL, ES.
  destruct (SFdiv_core_binary_normal (Z.pos mL) eL (Z.pos mS) eS) as [l Ecore].
  { apply Zdigits2_unique; [lia | change (53 - 1) with 52; lia]. }
  { apply Zdigits2_unique; [lia | change (53 - 1) with 52; lia]. }
  { lia. }
  rewrite Ecore. cbn [xorb].
  set (mqc := Z.pos mL * 2 ^ 53 / Z.pos mS) in *.
  assert (Hqc : 2 ^ 52 <= mqc < 2 ^ 54).
  { unfold mqc. split.
    - apply Z.div_le_lower_bound; lia.
    - apply Z.div_lt_upper_bound; lia. }
  assert (Hqm : Z.pos mS * mqc <= Z.pos mL * 2 ^ 53).
  { unfold mqc. apply Z.mul_div_le. lia. }
  destruct (binary_round_aux_normal false mqc (eL - eS - 53) l 54)
    as (mq & eq & E & Heq & Hmq & Hup & _); [lia .. |].
  exists mq, eq. split; [exact E |]. split; [lia |]. split; [lia |].
  replace (eq + 105) with ((eq - (eL - eS - 53)) + (- eS) + (52 + eL)) by lia.
  rewrite !Z.pow_add_r by lia.
  assert (H105 : 2 ^ 105 = 2 ^ 53 * 2 ^ (- eL) * 2 ^ (52 + eL)).
  { rewrite <- !Z.pow_add_r by lia. f_equal. lia. }
  rewrite H105.
  assert (Hu : 0 < 2 ^ (eq - (eL - eS - 53))) by (apply Z.pow_pos_nonneg; lia).
  assert (Hc : 0 < 2 ^ (- eS)) by (apply Z.pow_pos_nonneg; lia).
  assert (Hb : 0 < 2 ^ (- eL)) by (apply Z.pow_pos_nonneg; lia).
  assert (Hw : 0 < 2 ^ (52 + eL)) by (apply Z.pow_pos_nonneg; lia).
  set (U := 2 ^ (eq - (eL - eS - 53))) in *.
  set (C := 2 ^ (- eS)) in *. set (B := 2 ^ (- eL)) in *. set (W := 2 ^ (52 + eL)) in *.
  clearbody U C B W.
  apply Z.le_trans with ((2 ^ 52 + 1) * (Z.pos mS * mqc) * W).
  - rewrite HvS.
    replace (2 ^ 52 * S * (Z.pos mq * (U * C * W)))
      with (2 ^ 52 * (Z.pos mq * U) * (S * C * W)) by ring.
    replace ((2 ^ 52 + 1) * (S * C * mqc) * W)
      with ((2 ^ 52 + 1) * mqc * (S * C * W)) by ring.
    apply Z.mul_le_mono_nonneg_r; [| exact Hup].
    apply Z.mul_nonneg_nonneg; [apply Z.mul_nonneg_nonneg |]; lia.
  - rewrite HvL in Hqm.
    replace ((2 ^ 52 + 1) * L * (2 ^ 53 * B * W))
      with ((2 ^ 52 + 1) * (L * B * 2 ^ 53) * W) by ring.
    apply Z.mul_le_mono_nonneg_r; [lia |].
    apply Z.mul_le_mono_nonneg_l; [lia | exact Hqm].
Qed.

Lemma double_trunc_upper (m : positive) (e G : Z) :
  0 <= G -> 0 <= e + G ->
  exists t,
    double_trunc (S754_finite false m e) = Some t /\
    0 <= t /\ t * 2 ^ G <= Z.pos m * 2 ^ (e + G).
Proof.
  intros HG HeG. unfold double_trunc. cbv zeta. eexists. split; [reflexivity |].
  destruct (Z.leb_spec 0 e) as [He | He].
  - assert (0 < 2 ^ e) by (apply Z.pow_pos_nonneg; lia).
    split; [lia |]. rewrite Z.pow_add_r by lia. lia.
  - assert (Hp : 0 < 2 ^ (- e)) by (apply Z.pow_pos_nonneg; lia).
    assert (Hq : 0 < 2 ^ (e + G)) by (apply Z.pow_pos_nonneg; lia).
    split; [apply Z.div_pos; lia |].
    replace G with (- e + (e + G)) at 1 by lia. rewrite Z.pow_add_r by lia.
    pose proof (Z.mul_div_le (Z.pos m) (2 ^ (- e)) Hp) as Hd.
    rewrite Z.mul_assoc. apply Z.mul_le_mono_nonneg_r; lia.
Qed.

(** One scaled share: [r] times a factor of at most [(1 + 2^-52) * L / S],
    truncated, is at most [(1 + 2^-52)^2 * r * L / S]. *)
Lemma scaled_share_upper (L S r : Z) (mq : positive) (eq : Z) :
  -105 <= eq <= 54 -> Z.pos mq < 2 ^ 53 ->
  2 ^ 52 * S * (Z.pos mq * 2 ^ (eq + 105)) <= (2 ^ 52 + 1) * L * 2 ^ 105 ->
  0 <= S -> 0 < r < 2 ^ 53 ->
  exists t,
    double_trunc (double_mul (double_of_Z r) (S754_finite false mq eq)) = Some t /\
    0 <= t /\ 2 ^ 104 * S * t <= (2 ^ 52 + 1) * (2 ^ 52 + 1) * (r * L).
Proof.
  intros Heq Hmq Hq HS Hr.
  destruct (double_of_Z_exact r Hr) as (mr & er & Er & Her & Hmr & Hvr).
  unfold double_mul, SFmul. rewrite Er. cbn [xorb].
  assert (Hprod : 2 ^ 52 <= Z.pos (mr * mq) < 2 ^ 106).
  { rewrite Pos2Z.inj_mul. change (2 ^ 106) with (2 ^ 53 * 2 ^ 53). nia. }
  destruct (binary_round_aux_normal false (Z.pos (mr * mq)) (er + eq) loc_Exact 106)
    as (mp & ep & E & Hep & _ & Hup & _); [lia .. |].
  rewrite E.
  destruct (double_trunc_upper mp ep (- er + 105)) as (t & Et & Ht0 & Ht); [lia .. |].
  exists t. split; [exact Et |]. split; [exact Ht0 |].
  replace (ep + (- er + 105)) with ((ep - (er + eq)) + (eq + 105)) in Ht by lia.
  rewrite !Z.pow_add_r in Ht by lia.
  rewrite Pos2Z.inj_mul, Hvr in Hup.
  assert (HA : 0 < 2 ^ (- er)) by (apply Z.pow_pos_nonneg; lia).
  assert (HV : 0 < 2 ^ (ep - (er + eq))) by (apply Z.pow_pos_nonneg; lia).
  assert (HQ : 0 < 2 ^ (eq + 105)) by (apply Z.pow_pos_nonneg; lia).
  set (A := 2 ^ (- er)) in *. set (V := 2 ^ (ep - (er + eq))) in *.
  set (Q := 2 ^ (eq + 105)) in *. clearbody A V Q.
  apply (Z.mul_le_mono_pos_r _ _ (A * 2 ^ 105)); [lia |].
  apply Z.le_trans with (2 ^ 104 * S * (Z.pos mp * (V * Q))).
  { replace (2 ^ 104 * S * t * (A * 2 ^ 105)) with (2 ^ 104 * S * (t * (A * 2 ^ 105))) by ring.
    apply Z.mul_le_mono_nonneg_l; [lia | exact Ht]. }
  apply Z.le_trans with (2 ^ 52 * S * Q * ((2 ^ 52 + 1) * (r * A * Z.pos mq))).
  { replace (2 ^ 104 * S * (Z.pos mp * (V * Q)))
      with (2 ^ 52 * S * Q * (2 ^ 52 * (Z.pos mp * V))) by (change (2 ^ 104) with (2 ^ 52 * 2 ^ 52); ring).
    apply Z.mul_le_mono_nonneg_l; [| exact Hup].
    apply Z.mul_nonneg_nonneg; [apply Z.mul_nonneg_nonneg |]; lia. }
  replace (2 ^ 52 * S * Q * ((2 ^ 52 + 1) * (r * A * Z.pos mq)))
    with ((2 ^ 52 + 1) * r * A * (2 ^ 52 * S * (Z.pos mq * Q))) by ring.
  replace ((2 ^ 52 + 1) * (2 ^ 52 + 1) * (r * L) * (A * 2 ^ 105))
    with ((2 ^ 52 + 1) * r * A * ((2 ^ 52 + 1) * L * 2 ^ 105)) by ring.
  apply Z.mul_le_mono_nonneg_l; [| exact Hq].
  apply Z.mul_nonneg_nonneg; [apply Z.mul_nonneg_nonneg |]; lia.
Qed.

(** ** Budget splitting *)

(** The first loop draws [raw_shares] when the weights fit the cycle type. *)
Lemma obf_random_split_draw_raw (seed : Z) (elements : list ObfDescriptor) :
  Forall (fun e => 0 < weight e < 2 ^ 31) elements ->
  forall i,
    obf_random_split_draw seed elements i = Some (raw_shares seed elements i) /\
    Forall2 (fun e r => 1 <= r <= weight e) elements (raw_shares seed elements i).
Proof.
  induction 1 as [| e rest He _ IH]; intros i; cbn [obf_random_split_draw raw_shares].
  - split; [reflexivity | constructor].
  - destruct (IH (S i)) as [IH1 IH2].
    rewrite obf_weak_random_some by lia. cbn [bind]. rewrite IH1. cbn [bind].
    pose proof (Z.mod_pos_bound
                  (Z.shiftr (obf_compile_time_prng seed (Pos.of_succ_nat i)) 32)
                  (weight e) ltac:(lia)) as Hr.
    rewrite (int32_t_small (_ mod _)) by lia.
    rewrite int32_t_small by lia.
    split; [reflexivity |]. constructor; [lia | exact IH2].
Qed.

Lemma obf_random_split_scale_spec (q : spec_float) (raw : list Z) :
  forall ret,
    not_negative q ->
    Forall (fun r => 0 <= r) raw ->
    obf_random_split_scale q raw = Some ret ->
    Forall2
      (fun r share =>
         OBFCYCLES_of_double (double_mul (double_of_Z r) q) = Some share /\ 0 <= share)
      raw ret.
Proof.
  induction raw as [| r raw IH]; intros ret Hq Hraw H; cbn [obf_random_split_scale] in H.
  - apply Some_inj in H. subst. constructor.
  - inversion Hraw as [| ? ? Hr Hraw']; subst. bind_inv H. apply Some_inj in H. subst ret.
    constructor; [| now apply IH].
    split; [exact E |].
    unfold OBFCYCLES_of_double in E. bind_inv E. apply Some_inj in E. subst.
    eapply double_trunc_not_negative; [| eassumption].
    apply double_mul_not_negative; [now apply double_of_Z_not_negative | exact Hq].
Qed.

(** When no subtraction overflows, [leftovers] is the budget less the floors. *)
Lemma leftovers_Zsum (elements : list ObfDescriptor) :
  forall cycles,
    leftovers_fit cycles elements ->
    fold_left (fun l e => int32_t (l - min_cycles e)) elements cycles
    = cycles - Zsum (map min_cycles elements).
Proof.
  induction elements as [| e rest IH]; intros cycles Hfit;
    cbn [fold_left map Zsum fold_right]; [lia |].
  destruct Hfit as [Hr Hfit].
  assert (E : int32_t (cycles - min_cycles e) = cycles - min_cycles e).
  { unfold int32_t, wrap. cbv zeta.
    assert (H32 : 2 ^ 32 = 2 * 2 ^ 31) by reflexivity.
    destruct (Z.leb_spec 0 (cycles - min_cycles e)).
    - rewrite Z.mod_small by lia.
      destruct (Z.ltb_spec (cycles - min_cycles e) (2 ^ 31)); lia.
    - rewrite <- (Z.mod_add _ 1) by lia. rewrite Z.mod_small by lia.
      destruct (Z.ltb_spec (cycles - min_cycles e + 1 * 2 ^ 32) (2 ^ 31)); lia. }
  rewrite E, IH by exact Hfit. fold (Zsum (map min_cycles rest)). lia.
Qed.

Lemma leftovers_fit_range (elements : list ObfDescriptor) :
  forall cycles,
    - 2 ^ 31 <= cycles < 2 ^ 31 ->
    leftovers_fit cycles elements ->
    - 2 ^ 31 <= cycles - Zsum (map min_cycles elements) < 2 ^ 31.
Proof.
  induction elements as [| e rest IH]; intros cycles Hc Hfit;
    cbn [map Zsum fold_right]; [lia |].
  destruct Hfit as [Hr Hfit]. specialize (IH _ Hr Hfit).
  fold (Zsum (map min_cycles rest)). lia.
Qed.


Lemma Zsum_cons (x : Z) (l : list Z) : Zsum (x :: l) = x + Zsum l.
Proof. reflexivity. Qed.

Lemma raw_shares_sum (elements : list ObfDescriptor) (raw : list Z) :
  Forall2 (fun e r => 1 <= r <= weight e) elements raw ->
  Forall (fun r => 0 < r <= Zsum raw) raw /\ Zsum raw <= Zsum (map weight elements).
Proof.
  induction 1 as [| e r es rs Hr _ [IH1 IH2]]; [split; [constructor | reflexivity] |].
  cbn [map]. rewrite !Zsum_cons.
  assert (0 <= Zsum rs).
  { apply Zsum_nonneg. eapply Forall_impl; [| exact IH1]. cbn. lia. }
  split; [| lia]. constructor; [lia |].
  eapply Forall_impl; [| exact IH1]. cbn. lia.
Qed.

(** With a scale factor of zero every share is zero. *)
Lemma obf_random_split_scale_zero (raw : list Z) :
  Forall (fun r => 0 < r < 2 ^ 53) raw ->
  exists ret,
    obf_random_split_scale (S754_zero false) raw = Some ret /\
    Forall (fun share => 0 <= share) ret /\ Zsum ret = 0.
Proof.
  induction 1 as [| r raw Hr _ (ret & E & Hnn & Hsum)]; cbn [obf_random_split_scale].
  - exists []. repeat split. constructor.
  - destruct (double_of_Z_exact r Hr) as (mr & er & Er & _).
    rewrite Er, E. exists (0 :: ret). split; [reflexivity |].
    split; [constructor; [lia | exact Hnn] |]. rewrite Zsum_cons. lia.
Qed.

(** With a positive leftover [L] and a sum of raw shares [S], the second loop
    succeeds and its shares add up to at most [(1 + 2^-52)^2 * L]. *)
Lemma obf_random_split_scale_total (L S : Z) (mq : positive) (eq : Z) (raw : list Z) :
  -105 <= eq <= 54 -> Z.pos mq < 2 ^ 53 ->
  2 ^ 52 * S * (Z.pos mq * 2 ^ (eq + 105)) <= (2 ^ 52 + 1) * L * 2 ^ 105 ->
  0 < L < 2 ^ 31 -> 0 < S < 2 ^ 53 ->
  Forall (fun r => 0 < r <= S) raw ->
  exists ret,
    obf_random_split_scale (S754_finite false mq eq) raw = Some ret /\
    Forall (fun share => 0 <= share) ret /\
    2 ^ 104 * S * Zsum ret <= (2 ^ 52 + 1) * (2 ^ 52 + 1) * (Zsum raw * L).
Proof.
  intros Heq Hmq Hq HL HS.
  induction 1 as [| r raw Hr _ (ret & E & Hnn & Hsum)]; cbn [obf_random_split_scale].
  - exists []. split; [reflexivity |]. split; [constructor |]. cbn. lia.
  - destruct (scaled_share_upper L S r mq eq) as (t & Et & Ht0 & Ht); try assumption; [lia .. |].
    assert (Hrange : t <= L).
    { assert (Hc : S * (2 ^ 104 * t) <= S * ((2 ^ 52 + 1) * (2 ^ 52 + 1) * L)).
      { apply Z.le_trans with ((2 ^ 52 + 1) * (2 ^ 52 + 1) * (r * L)); [lia |].
        replace (S * ((2 ^ 52 + 1) * (2 ^ 52 + 1) * L))
          with ((2 ^ 52 + 1) * (2 ^ 52 + 1) * (S * L)) by ring.
        apply Z.mul_le_mono_nonneg_l; [lia |].
        apply Z.mul_le_mono_nonneg_r; lia. }
      apply Z.mul_le_mono_pos_l in Hc; lia. }
    unfold OBFCYCLES_of_double. rewrite Et. cbn [bind].
    destruct (Z.leb_spec (- 2 ^ 31) t); [| lia].
    destruct (Z.ltb_spec t (2 ^ 31)); [| lia].
    cbn [andb]. rewrite E. cbn [bind].
    exists (t :: ret). split; [reflexivity |].
    split; [constructor; assumption |].
    rewrite !Zsum_cons. lia.
Qed.

Lemma obf_random_split_scale_length (q : spec_float) (raw : list Z) :
  forall ret, obf_random_split_scale q raw = Some ret -> length ret = length raw.
Proof.
  induction raw as [| r raw IH]; intros ret H; cbn [obf_random_split_scale] in H.
  - apply Some_inj in H. now subst.
  - bind_inv H. apply Some_inj in H. subst ret. cbn [length]. f_equal. now apply IH.
Qed.

(** A budget below the sum of the floors fails the assertion
    [leftovers >= 0], as long as no subtraction overflows. *)
Lemma obf_random_split_floors_exceed_budget
    (seed cycles : Z) (elements : list ObfDescriptor) :
  leftovers_fit cycles elements ->
  cycles < Zsum (map min_cycles elements) ->
  obf_random_split seed cycles elements = None.
Proof.
  intros Hfit H. unfold obf_random_split. rewrite leftovers_Zsum by exact Hfit.
  destruct (Z.leb_spec 0 (cycles - Zsum (map min_cycles elements))); [lia | reflexivity].
Qed.

(** When a subtraction overflows, [leftovers] wraps: with a budget of
    [-2^31] and one sibling of floor 1 it becomes [2^31 - 1], the assertion
    [leftovers >= 0] holds and a share is returned although the floor exceeds
    the budget. *)
Lemma obf_random_split_overflow :
  - 2 ^ 31 < Zsum (map min_cycles [sibling 1 100]) /\
  obf_random_split 1 (- 2 ^ 31) [sibling 1 100] = Some [2147483647].
Proof. vm_compute. split; reflexivity. Qed.




(** *** The derived seeds of the siblings are distinct *)









(** *** How often a raw share is drawn *)






(** * Further properties of the engine *)

(** ** The cost scale and the seeds *)

(** X1: [obf_exp_cycles(exp)] is 0 for a negative [exp]; for [exp] from 0 to
    18 it is [10^(exp/2)] when [exp] is even and [3 * 10^(exp/2)] when it is
    odd, a positive value that fits [OBFCYCLES] and grows with [exp] (from 19 on
    the product no longer fits 32 bits); the macros [OBF0] to [OBF6] (at scale
    0) get the budgets 1, 3, 10, 30, 100, 300, 1000. *)
Theorem obf_exp_cycles_scale (exp : Z) :
  (exp < 0 -> obf_exp_cycles exp = 0) /\
  (0 <= exp <= 18 ->
   obf_exp_cycles exp = (if Z.odd exp then 3 else 1) * 10 ^ (exp / 2)) /\
  (0 <= exp <= 18 -> 0 < obf_exp_cycles exp < 2 ^ 31) /\
  (0 <= exp < 18 -> obf_exp_cycles exp < obf_exp_cycles (exp + 1)) /\
  map obf_exp_cycles [0; 1; 2; 3; 4; 5; 6] = [1; 3; 10; 30; 100; 300; 1000].
Proof.
  split; [| split; [| split; [| split]]].
  - intros H. unfold obf_exp_cycles. now destruct (Z.ltb_spec exp 0); [| lia].
  - intros H.
    assert (Hc : exp = 0 \/ exp = 1 \/ exp = 2 \/ exp = 3 \/ exp = 4 \/ exp = 5 \/
                 exp = 6 \/ exp = 7 \/ exp = 8 \/ exp = 9 \/ exp = 10 \/ exp = 11 \/
                 exp = 12 \/ exp = 13 \/ exp = 14 \/ exp = 15 \/ exp = 16 \/
                 exp = 17 \/ exp = 18) by lia.
    repeat (destruct Hc as [-> | Hc]; [vm_compute; reflexivity |]).
    subst. vm_compute. reflexivity.
  - intros H.
    assert (Hc : exp = 0 \/ exp = 1 \/ exp = 2 \/ exp = 3 \/ exp = 4 \/ exp = 5 \/
                 exp = 6 \/ exp = 7 \/ exp = 8 \/ exp = 9 \/ exp = 10 \/ exp = 11 \/
                 exp = 12 \/ exp = 13 \/ exp = 14 \/ exp = 15 \/ exp = 16 \/
                 exp = 17 \/ exp = 18) by lia.
    repeat (destruct Hc as [-> | Hc]; [vm_compute; split; reflexivity |]).
    subst. vm_compute. split; reflexivity.
  - intros H.
    assert (Hc : exp = 0 \/ exp = 1 \/ exp = 2 \/ exp = 3 \/ exp = 4 \/ exp = 5 \/
                 exp = 6 \/ exp = 7 \/ exp = 8 \/ exp = 9 \/ exp = 10 \/ exp = 11 \/
                 exp = 12 \/ exp = 13 \/ exp = 14 \/ exp = 15 \/ exp = 16 \/
                 exp = 17) by lia.
    repeat (destruct Hc as [-> | Hc]; [vm_compute; reflexivity |]).
    subst. vm_compute. reflexivity.
  - reflexivity.
Qed.

(** At [exp = 19] the product [3 * 10^9] does not fit [OBFCYCLES]: the 32-bit
    result is negative. *)
Lemma obf_exp_cycles_overflow : obf_exp_cycles 19 = -1294967296.
Proof. reflexivity. Qed.

(** Multiplication by a number coprime to [2^64] followed by an addition is
    one-to-one on 64-bit values. *)
Lemma affine_injective (a c x y : Z) :
  Z.gcd (2 ^ 64) a = 1 ->
  0 <= x < 2 ^ 64 -> 0 <= y < 2 ^ 64 ->
  wrap 64 (a * x + c) = wrap 64 (a * y + c) -> x = y.
Proof.
  intros Hg Hx Hy H. unfold wrap in H.
  assert (Hd : (2 ^ 64 | a * (x - y))).
  { apply Z.mod_divide; [lia |].
    replace (a * (x - y)) with ((a * x + c) - (a * y + c)) by ring.
    rewrite Zminus_mod, H, Z.sub_diag. reflexivity. }
  apply Z.gauss in Hd; [| exact Hg].
  destruct Hd as [k Hk].
  assert (k = 0) by nia. lia.
Qed.

Lemma lcg_step_range (ret : Z) : 0 <= lcg_step ret < 2 ^ 64.
Proof. unfold lcg_step, OBFSEED. apply wrap_range. lia. Qed.

Lemma lcg_step_injective (x y : Z) :
  0 <= x < 2 ^ 64 -> 0 <= y < 2 ^ 64 -> lcg_step x = lcg_step y -> x = y.
Proof.
  unfold lcg_step, OBFSEED. intros Hx Hy H.
  apply (affine_injective 6364136223846793005 1442695040888963407); try assumption.
  reflexivity.
Qed.

Lemma obf_compile_time_prng_range (seed : Z) (iteration : positive) :
  0 <= obf_compile_time_prng seed iteration < 2 ^ 64.
Proof.
  unfold obf_compile_time_prng.
  induction iteration as [| n IH] using Pos.peano_ind.
  - apply lcg_step_range.
  - rewrite Pos.iter_succ. apply lcg_step_range.
Qed.

Lemma obf_compile_time_prng_inj (iteration : positive) :
  forall s1 s2,
    0 <= s1 < 2 ^ 64 -> 0 <= s2 < 2 ^ 64 ->
    obf_compile_time_prng s1 iteration = obf_compile_time_prng s2 iteration ->
    s1 = s2.
Proof.
  unfold obf_compile_time_prng.
  induction iteration as [| n IH] using Pos.peano_ind; intros s1 s2 H1 H2 H.
  - now apply lcg_step_injective.
  - rewrite !Pos.iter_succ in H. apply lcg_step_injective in H.
    + now apply IH.
    + apply (obf_compile_time_prng_range s1 n).
    + apply (obf_compile_time_prng_range s2 n).
Qed.

(** X2: [obf_compile_time_prng] never maps two different 64-bit seeds to the
    same derived seed, whatever the iteration count; its values are 64-bit, and
    deriving [b] more rounds from the seed derived in [a] rounds is deriving
    [a + b] rounds. *)
Theorem obf_compile_time_prng_one_to_one (a b : positive) (s1 s2 : Z) :
  0 <= s1 < 2 ^ 64 -> 0 <= s2 < 2 ^ 64 ->
  (obf_compile_time_prng s1 a = obf_compile_time_prng s2 a -> s1 = s2) /\
  0 <= obf_compile_time_prng s1 a < 2 ^ 64 /\
  obf_compile_time_prng (obf_compile_time_prng s1 a) b
  = obf_compile_time_prng s1 (a + b).
Proof.
  intros H1 H2. split; [now apply obf_compile_time_prng_inj |].
  split; [apply obf_compile_time_prng_range |].
  unfold obf_compile_time_prng. rewrite Pos.add_comm. symmetry. apply Pos.iter_add.
Qed.

Lemma obf_compile_time_prng_one_to_one_witness :
  0 <= 5 < 2 ^ 64 /\ 0 <= 7 < 2 ^ 64 /\
  (obf_compile_time_prng 5 3 = obf_compile_time_prng 7 3 -> 5 = 7) /\
  0 <= obf_compile_time_prng 5 3 < 2 ^ 64 /\
  obf_compile_time_prng (obf_compile_time_prng 5 3) 1 = obf_compile_time_prng 5 (3 + 1).
Proof.
  assert (H1 : 0 <= 5 < 2 ^ 64) by (split; [lia | reflexivity]).
  assert (H2 : 0 <= 7 < 2 ^ 64) by (split; [lia | reflexivity]).
  split; [exact H1 |]. split; [exact H2 |].
  exact (obf_compile_time_prng_one_to_one 3 1 5 7 H1 H2).
Defined.

Lemma lxor_cancel_l (a b c : Z) : Z.lxor a b = Z.lxor a c -> b = c.
Proof.
  intros H.
  rewrite <- (Z.lxor_0_l b), <- (Z.lxor_0_l c), <- (Z.lxor_nilpotent a),
    !Z.lxor_assoc, H.
  reflexivity.
Qed.

Lemma lxor_range (a b : Z) :
  0 <= a < 2 ^ 64 -> 0 <= b < 2 ^ 64 -> 0 <= Z.lxor a b < 2 ^ 64.
Proof.
  intros Ha Hb.
  assert (H0 : 0 <= Z.lxor a b) by (apply Z.lxor_nonneg; lia).
  split; [exact H0 |].
  destruct (Z.eq_dec (Z.lxor a b) 0) as [-> | Hne]; [reflexivity |].
  apply Z.log2_lt_pow2; [lia |].
  eapply Z.le_lt_trans; [apply Z.log2_lxor; lia |].
  apply Z.max_lub_lt.
  - destruct (Z.eq_dec a 0) as [-> | ?]; [reflexivity | apply Z.log2_lt_pow2; lia].
  - destruct (Z.eq_dec b 0) as [-> | ?]; [reflexivity | apply Z.log2_lt_pow2; lia].
Qed.

Lemma djb2_loop_range (file : list byte) :
  forall ret, 0 <= ret < 2 ^ 64 -> 0 <= djb2_loop file ret < 2 ^ 64.
Proof.
  induction file as [| b rest IH]; intros ret Hr; cbn [djb2_loop]; [exact Hr |].
  destruct (Byte.eqb b x00); [exact Hr |].
  apply IH. apply wrap_range. lia.
Qed.

Lemma djb2_loop_injective (file : list byte) :
  forall r1 r2,
    0 <= r1 < 2 ^ 64 -> 0 <= r2 < 2 ^ 64 ->
    djb2_loop file r1 = djb2_loop file r2 -> r1 = r2.
Proof.
  induction file as [| b rest IH]; intros r1 r2 H1 H2 H; cbn [djb2_loop] in H;
    [exact H |].
  destruct (Byte.eqb b x00); [exact H |].
  apply IH in H; try (apply wrap_range; lia).
  unfold OBFSEED in H. rewrite !Z.shiftl_mul_pow2 in H by lia.
  apply (affine_injective 33 (char_value b)); try assumption; [reflexivity |].
  replace (33 * r1) with (r1 * 2 ^ 5 + r1) by (change (2 ^ 5) with 32; ring).
  replace (33 * r2) with (r2 * 2 ^ 5 + r2) by (change (2 ^ 5) with 32; ring).
  exact H.
Qed.

(** X3: on a platform that passes [__FILE__] and [__LINE__], two sites of the
    same file on different lines never get the same seed: for a 64-bit build
    seed, [obf_seed_from_file_line] is one-to-one in the line number, and its
    value is a 64-bit number. *)
Theorem obf_seed_from_file_line_distinct_lines
    (OBFUSCATE_SEED : Z) (file : list byte) (line1 line2 : Z) :
  0 <= OBFUSCATE_SEED < 2 ^ 64 ->
  - 2 ^ 31 <= line1 < 2 ^ 31 -> - 2 ^ 31 <= line2 < 2 ^ 31 ->
  line1 <> line2 ->
  obf_seed_from_file_line OBFUSCATE_SEED file line1
  <> obf_seed_from_file_line OBFUSCATE_SEED file line2 /\
  0 <= obf_seed_from_file_line OBFUSCATE_SEED file line1 < 2 ^ 64.
Proof.
  intros HS H1 H2 Hne. unfold obf_seed_from_file_line. cbv zeta.
  assert (Hw : forall l, 0 <= OBFSEED l < 2 ^ 64) by (intros l; apply wrap_range; lia).
  split; [| apply obf_compile_time_prng_range].
  intros H. apply obf_compile_time_prng_inj in H;
    try (apply djb2_loop_range; apply lxor_range; auto).
  apply djb2_loop_injective in H; try (apply lxor_range; auto).
  apply lxor_cancel_l in H. unfold OBFSEED, wrap in H.
  apply Hne.
  assert (Hd : (2 ^ 64 | line1 - line2)).
  { apply Z.mod_divide; [lia |]. rewrite Zminus_mod, H, Z.sub_diag. reflexivity. }
  destruct Hd as [k Hk]. assert (k = 0) by lia. lia.
Qed.

Lemma obf_seed_from_file_line_distinct_lines_witness :
  0 <= 0x0c7dfa61a867b125 < 2 ^ 64 /\
  - 2 ^ 31 <= 10 < 2 ^ 31 /\ - 2 ^ 31 <= 11 < 2 ^ 31 /\ 10 <> 11 /\
  obf_seed_from_file_line 0x0c7dfa61a867b125 [x61; x2e; x63] 10
  <> obf_seed_from_file_line 0x0c7dfa61a867b125 [x61; x2e; x63] 11 /\
  0 <= obf_seed_from_file_line 0x0c7dfa61a867b125 [x61; x2e; x63] 10 < 2 ^ 64.
Proof.
  assert (HS : 0 <= 0x0c7dfa61a867b125 < 2 ^ 64) by (split; [lia | reflexivity]).
  assert (H1 : - 2 ^ 31 <= 10 < 2 ^ 31) by (split; [discriminate | reflexivity]).
  assert (H2 : - 2 ^ 31 <= 11 < 2 ^ 31) by (split; [discriminate | reflexivity]).
  assert (Hne : 10 <> 11) by discriminate.
  split; [exact HS |]. split; [exact H1 |]. split; [exact H2 |]. split; [exact Hne |].
  exact (obf_seed_from_file_line_distinct_lines 0x0c7dfa61a867b125 [x61; x2e; x63]
           10 11 HS H1 H2 Hne).
Defined.

(** X4: [obf_weak_random(seed, n)] uses only the upper half of the seed: for a
    64-bit seed and a positive [n] the draw lies in [[0, n)] and is below
    [2^32], so a range wider than [2^32] is never covered; [n = 0] is a division
    by zero. *)
Theorem obf_weak_random_upper_half (seed n : Z) :
  0 <= seed < 2 ^ 64 -> 0 < n ->
  obf_weak_random seed 0 = None /\
  exists r,
    obf_weak_random seed n = Some r /\ 0 <= r < n /\ r < 2 ^ 32 /\
    r = (seed / 2 ^ 32) mod n.
Proof.
  intros Hs Hn. split; [reflexivity |].
  rewrite obf_weak_random_some by exact Hn.
  rewrite Z.shiftr_div_pow2 by lia.
  eexists. split; [reflexivity |].
  pose proof (Z.mod_pos_bound (seed / 2 ^ 32) n Hn) as Hr.
  assert (Hq : 0 <= seed / 2 ^ 32 < 2 ^ 32).
  { split; [apply Z.div_pos; lia |].
    apply Z.div_lt_upper_bound; [lia |]. change (2 ^ 32 * 2 ^ 32) with (2 ^ 64). lia. }
  split; [exact Hr |]. split; [| reflexivity].
  eapply Z.le_lt_trans; [apply Z.mod_le; lia | lia].
Qed.

Lemma obf_weak_random_upper_half_witness :
  0 <= 2 ^ 64 - 1 < 2 ^ 64 /\ 0 < 2 ^ 40 /\
  obf_weak_random (2 ^ 64 - 1) 0 = None /\
  exists r,
    obf_weak_random (2 ^ 64 - 1) (2 ^ 40) = Some r /\ 0 <= r < 2 ^ 40 /\ r < 2 ^ 32 /\
    r = ((2 ^ 64 - 1) / 2 ^ 32) mod 2 ^ 40.
Proof.
  assert (Hs : 0 <= 2 ^ 64 - 1 < 2 ^ 64) by (split; [discriminate | reflexivity]).
  assert (Hn : 0 < 2 ^ 40) by reflexivity.
  split; [exact Hs |]. split; [exact Hn |].
  exact (obf_weak_random_upper_half (2 ^ 64 - 1) (2 ^ 40) Hs Hn).
Defined.

(** ** Weighted choice and the constants of a build *)

Lemma prefix_weight_0 (ws : list Z) : prefix_weight ws 0 = 0.
Proof. reflexivity. Qed.

Lemma prefix_weight_S (w : Z) (ws : list Z) (k : nat) :
  prefix_weight (w :: ws) (S k) = w + prefix_weight ws k.
Proof. reflexivity. Qed.

Lemma obf_random_from_list_walk_prefix (weights : list Z) :
  forall refWeight i j,
    Forall (fun w => 0 <= w) weights ->
    0 <= refWeight < 2 ^ 64 ->
    obf_random_from_list_walk weights refWeight i = Some j ->
    (i <= j)%nat /\ (j - i < length weights)%nat /\
    prefix_weight weights (j - i) <= refWeight < prefix_weight weights (S (j - i)).
Proof.
  induction weights as [| w rest IH]; intros refWeight i j Hnn Hr H;
    cbn [obf_random_from_list_walk] in H; [discriminate |].
  inversion Hnn as [| ? ? Hw Hrest]; subst.
  destruct (Z.ltb_spec refWeight w) as [Hlt | Hge].
  - apply Some_inj in H. subst j. rewrite Nat.sub_diag.
    rewrite prefix_weight_S, !prefix_weight_0. cbn [length]. lia.
  - rewrite size_t_small in H by lia.
    apply IH in H; [| assumption | lia].
    destruct H as (Hij & Hlen & Hp).
    replace (j - i)%nat with (S (j - S i)) by lia.
    rewrite !prefix_weight_S. cbn [length]. lia.
Qed.

(** X5: [obf_random_from_list] is a weighted choice.  For non-negative weights
    whose sum [W] is positive and below [2^64] it returns the index [j] at
    which the running sum of the weights first exceeds [(seed >> 32) % W]; the
    weight at [j] is positive, so an entry of weight 0 is never chosen.  When
    all weights are 0 the draw divides by zero. *)
Theorem obf_random_from_list_weighted (seed : Z) (weights : list Z) :
  Forall (fun w => 0 <= w) weights ->
  Zsum weights < 2 ^ 64 ->
  (Zsum weights = 0 -> obf_random_from_list seed weights = None) /\
  (0 < Zsum weights ->
   exists j w,
     obf_random_from_list seed weights = Some j /\
     nth_error weights j = Some w /\ 0 < w /\
     prefix_weight weights j <= Z.shiftr seed 32 mod Zsum weights
       < prefix_weight weights (S j)).
Proof.
  intros Hnn Hlt. pose proof (Zsum_nonneg weights Hnn) as H0. split.
  - intros Hz. unfold obf_random_from_list.
    rewrite sum_weights_Zsum, Hz. reflexivity.
  - intros Hpos.
    destruct (obf_random_from_list_total seed weights Hnn ltac:(lia)) as [j Hj].
    destruct (obf_random_from_list_pos seed weights j Hj) as (w & Hw & Hwpos).
    exists j, w. split; [exact Hj |]. split; [exact Hw |]. split; [exact Hwpos |].
    unfold obf_random_from_list in Hj.
    rewrite sum_weights_Zsum, size_t_small in Hj by lia.
    rewrite obf_weak_random_some in Hj by lia. cbn [bind] in Hj.
    pose proof (Z.mod_pos_bound (Z.shiftr seed 32) (Zsum weights) Hpos) as Hr.
    destruct (Z.ltb_spec (Z.shiftr seed 32 mod Zsum weights) (Zsum weights)); [| lia].
    apply obf_random_from_list_walk_prefix in Hj; [| assumption | lia].
    rewrite Nat.sub_0_r in Hj. apply Hj.
Qed.

Lemma obf_random_from_list_weighted_witness :
  Forall (fun w => 0 <= w) [100; 0; 100; 100] /\
  Zsum [100; 0; 100; 100] < 2 ^ 64 /\
  (Zsum [100; 0; 100; 100] = 0 -> obf_random_from_list (2 ^ 39) [100; 0; 100; 100] = None) /\
  (0 < Zsum [100; 0; 100; 100] ->
   exists j w,
     obf_random_from_list (2 ^ 39) [100; 0; 100; 100] = Some j /\
     nth_error [100; 0; 100; 100] j = Some w /\ 0 < w /\
     prefix_weight [100; 0; 100; 100] j
       <= Z.shiftr (2 ^ 39) 32 mod Zsum [100; 0; 100; 100]
       < prefix_weight [100; 0; 100; 100] (S j)).
Proof.
  assert (Hnn : Forall (fun w => 0 <= w) [100; 0; 100; 100])
    by (repeat constructor; lia).
  assert (Hlt : Zsum [100; 0; 100; 100] < 2 ^ 64) by reflexivity.
  split; [exact Hnn |]. split; [exact Hlt |].
  exact (obf_random_from_list_weighted (2 ^ 39) [100; 0; 100; 100] Hnn Hlt).
Defined.

Lemma obf_find_idx_from_spec (value : Z) (arr : list Z) :
  forall i,
    (~ In value arr /\ obf_find_idx_from arr value i = size_t_minus1) \/
    (exists k,
        obf_find_idx_from arr value i = Z.of_nat (i + k) /\
        nth_error arr k = Some value /\
        forall k', (k' < k)%nat -> nth_error arr k' <> Some value).
Proof.
  induction arr as [| a rest IH]; intros i; cbn [obf_find_idx_from].
  - left. split; [intros [] | reflexivity].
  - destruct (Z.eqb_spec a value) as [-> | Hne].
    + right. exists 0%nat. rewrite Nat.add_0_r.
      split; [reflexivity |]. split; [reflexivity |]. intros k' Hk'. lia.
    + destruct (IH (S i)) as [[Hn Hr] | (k & Hr & Hk & Hfirst)].
      * left. split; [| exact Hr]. intros [Heq | Hin]; [congruence | contradiction].
      * right. exists (S k). rewrite Hr.
        split; [f_equal; lia |]. split; [exact Hk |].
        intros [| k'] Hk'; cbn [nth_error]; [congruence | apply Hfirst; lia].
Qed.

(** X6: [obf_find_idx_in_array] returns the index of the first element equal to
    [value], and [size_t(-1)] when there is none; for an array of fewer than
    [2^64 - 1] elements the two cases cannot be confused. *)
Theorem obf_find_idx_in_array_first (arr : list Z) (value : Z) :
  (~ In value arr -> obf_find_idx_in_array arr value = size_t_minus1) /\
  (In value arr ->
   exists k,
     obf_find_idx_in_array arr value = Z.of_nat k /\
     nth_error arr k = Some value /\
     forall k', (k' < k)%nat -> nth_error arr k' <> Some value) /\
  (Z.of_nat (length arr) < 2 ^ 64 ->
   (obf_find_idx_in_array arr value = size_t_minus1 <-> ~ In value arr)).
Proof.
  unfold obf_find_idx_in_array.
  destruct (obf_find_idx_from_spec value arr 0) as [[Hn Hr] | (k & Hr & Hk & Hfirst)].
  - split; [intros _; exact Hr |]. split; [intros Hin; contradiction |].
    intros _. split; [intros _; exact Hn | intros _; exact Hr].
  - assert (Hin : In value arr) by (eapply nth_error_In; exact Hk).
    split; [intros Hn; contradiction |].
    split; [intros _; exists k; auto |].
    intros Hlen. rewrite Hr. cbn [Nat.add].
    assert (Hk' : (k < length arr)%nat) by (apply nth_error_Some; congruence).
    assert (Hs : size_t_minus1 = 2 ^ 64 - 1) by reflexivity.
    split; [intros Heq; lia | intros Hn; contradiction].
Qed.

(** X7: [obf_const_x] returns one of the six odd candidates 3, 5, 7, 15, 25, 31
    and never one listed in [excluded], as long as at most five values are
    excluded (values that are no candidates are ignored); when every candidate
    is excluded all weights are 0 and the draw fails. *)
Theorem obf_const_x_avoids_excluded (seed : Z) (excluded : list Z) :
  ((length excluded <= 5)%nat ->
   exists c,
     obf_const_x seed excluded = Some c /\
     In c candidates /\ ~ In c excluded /\ Z.odd c = true /\ 3 <= c <= 31) /\
  ((forall c, In c candidates -> In c excluded) ->
   obf_const_x seed excluded = None).
Proof.
  split.
  - intros Hlen.
    destruct (obf_const_x_spec seed excluded Hlen) as (c & Hc & Hin & Hex).
    exists c. split; [exact Hc |]. split; [exact Hin |]. split; [exact Hex |].
    apply candidates_odd. exact Hin.
  - intros Hall. unfold obf_const_x. cbv zeta.
    destruct (obf_const_x_weights excluded [100; 100; 100; 100; 100; 100])
      as (Hl & _ & _ & Hzero & _);
      [reflexivity | repeat constructor; right; reflexivity |].
    set (ws := fold_left _ excluded _) in *. clearbody ws.
    assert (Hz : forall j c, nth_error candidates j = Some c -> nth_error ws j = Some 0).
    { intros j c Hj. apply (Hzero c j); [| exact Hj].
      apply Hall. eapply nth_error_In. exact Hj. }
    pose proof (Hz 0%nat 3 eq_refl) as H0. pose proof (Hz 1%nat 5 eq_refl) as H1.
    pose proof (Hz 2%nat 7 eq_refl) as H2. pose proof (Hz 3%nat 15 eq_refl) as H3.
    pose proof (Hz 4%nat 25 eq_refl) as H4. pose proof (Hz 5%nat 31 eq_refl) as H5.
    destruct ws as [| a0 [| a1 [| a2 [| a3 [| a4 [| a5 [| a6 ws]]]]]]]; try discriminate.
    cbn in H0, H1, H2, H3, H4, H5.
    apply Some_inj in H0, H1, H2, H3, H4, H5. subst. reflexivity.
Qed.

(** X8: [obf_random_const] returns the element of [lst] at index
    [(seed >> 32) % N], hence always an element of the list; on an empty list it
    divides by zero. *)
Theorem obf_random_const_element (seed : Z) (lst : list Z) :
  obf_random_const seed [] = None /\
  (lst <> [] ->
   exists c,
     obf_random_const seed lst = Some c /\ In c lst /\
     nth_error lst (Z.to_nat (Z.shiftr seed 32 mod Z.of_nat (length lst))) = Some c).
Proof.
  split; [reflexivity |]. intros Hne.
  assert (Hlen : 0 < Z.of_nat (length lst)) by (destruct lst; [congruence | cbn; lia]).
  unfold obf_random_const. rewrite obf_weak_random_some by exact Hlen. cbn [bind].
  pose proof (Z.mod_pos_bound (Z.shiftr seed 32) _ Hlen) as Hr.
  destruct (nth_error lst (Z.to_nat (Z.shiftr seed 32 mod Z.of_nat (length lst))))
    as [c |] eqn:Hc.
  - exists c. split; [reflexivity |]. split; [| reflexivity].
    eapply nth_error_In. exact Hc.
  - apply nth_error_None in Hc. lia.
Qed.

(** ** Strategy selection *)

(** X9: the strategy [obf_random_obf_from_list] selects is never the excluded
    one, has a positive weight and a [min_cycles] within the budget; and
    recursive strategies take precedence: a non-recursive one is selected only
    when no recursive descriptor of positive weight is within the budget and
    not excluded. *)
Theorem obf_random_obf_from_list_prefers_recursive
    (seed cycles : Z) (descr : list ObfDescriptor) (exclude_version : Z) (which : nat) :
  Forall (fun d => 0 <= weight d) descr ->
  Zsum (map weight descr) < 2 ^ 64 ->
  obf_random_obf_from_list seed cycles descr exclude_version = Some which ->
  exists d,
    nth_error descr which = Some d /\
    Z.of_nat which <> exclude_version /\
    0 < weight d /\ min_cycles d <= cycles /\
    (is_recursive d = false ->
     forall j d',
       nth_error descr j = Some d' ->
       is_recursive d' = true -> Z.of_nat j <> exclude_version ->
       min_cycles d' <= cycles -> weight d' = 0).
Proof.
  intros Hnn Hlt H.
  destruct (obf_random_obf_from_list_selected seed cycles descr exclude_version which H)
    as (d & Hd & Hw & Hmin & Hex & Hrec).
  exists d. split; [exact Hd |]. split; [exact Hex |]. split; [exact Hw |].
  split; [exact Hmin |].
  intros Hnr j d' Hj Hr' Hj' Hmin'.
  specialize (Hrec Hnr).
  destruct (weights_of_nonneg true cycles exclude_version descr Hnn 0) as [Hnn' Hle].
  pose proof (Zsum_nonneg _ Hnn') as H0.
  rewrite size_t_small in Hrec by lia.
  assert (He : eligible cycles exclude_version (0 + j) d' = true).
  { unfold eligible. cbn [Nat.add].
    destruct (Z.eqb_spec (Z.of_nat j) exclude_version); [contradiction |].
    destruct (Z.leb_spec (min_cycles d') cycles); [reflexivity | lia]. }
  pose proof (weights_of_ge true cycles exclude_version descr Hnn 0 j d' Hj He Hr') as Hge.
  assert (0 <= weight d').
  { eapply Forall_forall in Hnn; [exact Hnn |]. eapply nth_error_In. exact Hj. }
  lia.
Qed.

Lemma obf_random_obf_from_list_prefers_recursive_witness :
  Forall (fun d => 0 <= weight d) ObfLiteralContext_descr /\
  Zsum (map weight ObfLiteralContext_descr) < 2 ^ 64 /\
  obf_random_obf_from_list 1 5 ObfLiteralContext_descr size_t_minus1 = Some 0%nat /\
  exists d,
    nth_error ObfLiteralContext_descr 0 = Some d /\
    Z.of_nat 0 <> size_t_minus1 /\
    0 < weight d /\ min_cycles d <= 5 /\
    (is_recursive d = false ->
     forall j d',
       nth_error ObfLiteralContext_descr j = Some d' ->
       is_recursive d' = true -> Z.of_nat j <> size_t_minus1 ->
       min_cycles d' <= 5 -> weight d' = 0).
Proof.
  assert (Hnn : Forall (fun d => 0 <= weight d) ObfLiteralContext_descr)
    by (repeat constructor; cbn; lia).
  assert (Hlt : Zsum (map weight ObfLiteralContext_descr) < 2 ^ 64) by reflexivity.
  assert (H : obf_random_obf_from_list 1 5 ObfLiteralContext_descr size_t_minus1
              = Some 0%nat) by (vm_compute; reflexivity).
  split; [exact Hnn |]. split; [exact Hlt |]. split; [exact H |].
  exact (obf_random_obf_from_list_prefers_recursive 1 5 ObfLiteralContext_descr
           size_t_minus1 0 Hnn Hlt H).
Defined.

(** ** Callers of the splitter, and the inverse *)

(** The two loops of [obf_random_split] succeed on positive weights that fit
    the cycle type. *)
Lemma obf_random_split_succeeds
    (seed cycles : Z) (elements : list ObfDescriptor) :
  Forall (fun e => 0 < weight e < 2 ^ 31) elements ->
  Zsum (map weight elements) < 2 ^ 53 ->
  - 2 ^ 31 <= cycles < 2 ^ 31 ->
  leftovers_fit cycles elements ->
  Zsum (map min_cycles elements) <= cycles ->
  exists ret,
    obf_random_split seed cycles elements = Some ret /\
    length ret = length elements /\
    Forall (fun share => 0 <= share) ret /\
    Zsum ret <= cycles - Zsum (map min_cycles elements).
Proof.
  intros Hw Hsum Hcyc Hfit Hfloor.
  pose proof (leftovers_fit_range elements cycles Hcyc Hfit) as HLr.
  unfold obf_random_split. rewrite leftovers_Zsum by exact Hfit.
  set (L := cycles - Zsum (map min_cycles elements)) in *.
  assert (HL : 0 <= L) by (unfold L; lia). clearbody L.
  destruct (obf_random_split_draw_raw seed elements Hw 0) as [Hdraw Hraw].
  set (raw := raw_shares seed elements 0) in *.
  destruct (raw_shares_sum elements raw Hraw) as [Hpos HS].
  assert (Hlen : length raw = length elements).
  { symmetry. clear -Hraw. induction Hraw; cbn; congruence. }
  destruct (Z.leb_spec 0 L) as [_ | Hneg]; [| lia]. clear Hfloor.
  rewrite Hdraw. cbn [bind].
  rewrite (sum_weights_Zsum raw).
  assert (Hfinish : forall q ret,
             obf_random_split_scale q raw = Some ret ->
             length ret = length raw ->
             Forall (fun share => 0 <= share) ret -> Zsum ret <= L ->
             exists ret',
               (ret <- obf_random_split_scale q raw ;;
                assert! (int32_t (sum_weights ret) <=? L) ;; Some ret) = Some ret' /\
               length ret' = length elements /\
               Forall (fun share => 0 <= share) ret' /\ Zsum ret' <= L).
  { intros q ret E Hl Hnn Hle. rewrite E. cbn [bind].
    pose proof (Zsum_nonneg ret Hnn) as H0.
    rewrite sum_weights_Zsum, size_t_small, int32_t_small
      by (change (2 ^ 64) with (2 ^ 33 * 2 ^ 31); lia).
    destruct (Z.leb_spec (Zsum ret) L); [| lia].
    exists ret. repeat split; [congruence | assumption | assumption]. }
  destruct raw as [| r0 raw'] eqn:Eraw.
  { apply (Hfinish _ []); [reflexivity | reflexivity | constructor | cbn; lia]. }
  rewrite <- Eraw in *.
  assert (HSpos : 0 < Zsum raw < 2 ^ 53).
  { split; [| lia]. rewrite Eraw in Hpos. inversion Hpos; subst. rewrite <- Eraw in *. lia. }
  rewrite size_t_small by (change (2 ^ 64) with (2 ^ 11 * 2 ^ 53); lia).
  destruct (Z.eq_dec L 0) as [HL0 | HL0].
  - subst L.
    destruct (double_of_Z_exact (Zsum raw) HSpos) as (mS & eS & ES & _).
    rewrite ES. change (double_div (double_of_Z 0) (S754_finite false mS eS))
      with (S754_zero false).
    destruct (obf_random_split_scale_zero raw) as (ret & E & Hnn & Hz).
    { eapply Forall_impl; [| exact Hpos]. cbn. lia. }
    apply (Hfinish _ ret E); [| exact Hnn | rewrite Hz; apply Z.le_refl].
    now apply obf_random_split_scale_length in E.
  - destruct (double_div_upper L (Zsum raw)) as (mq & eq & Eq & Heq & Hmq & Hq);
      [change (2 ^ 53) with (2 ^ 22 * 2 ^ 31); lia | lia |].
    rewrite Eq.
    destruct (obf_random_split_scale_total L (Zsum raw) mq eq raw)
      as (ret & E & Hnn & Hle); try assumption; [lia |].
    apply (Hfinish _ ret E); [| exact Hnn |].
    + now apply obf_random_split_scale_length in E.
    + assert (Hc : Zsum raw * (2 ^ 104 * Zsum ret)
                   <= Zsum raw * ((2 ^ 52 + 1) * (2 ^ 52 + 1) * L)) by lia.
      apply Z.mul_le_mono_pos_l in Hc; lia.
Qed.

(** The extended Euclid of [obf_mul_inverse_mod2n] terminates on every odd
    number, with an inverse. *)
Lemma obf_mul_inverse_mod2n_total (T : UInt) (num : Z) :
  0 <= num < 2 ^ bits T ->
  Z.odd num = true ->
  exists inv, obf_mul_inverse_mod2n T num = Some inv /\ to T (num * inv) = to T 1.
Proof.
  intros Hr Hodd.
  assert (Hone : to T 1 = 1) by (destruct T; reflexivity).
  pose proof (pow_bits_pos T) as HM. pose proof (bits_pos T) as HW.
  assert (Hland : Z.land num 1 = 1).
  { change 1 with (Z.ones 1) at 1. rewrite Z.land_ones by lia.
    rewrite Zmod_odd, Hodd. reflexivity. }
  assert (Hnum0 : 0 < num).
  { destruct (Z.eq_dec num 0) as [-> |]; [discriminate | lia]. }
  assert (Heven : Z.even (2 ^ bits T) = true).
  { replace (bits T) with (1 + (bits T - 1)) by lia.
    rewrite Z.pow_add_r by lia. rewrite Z.even_mul. reflexivity. }
  assert (Hneg : forall k, 0 < k <= 2 ^ bits T -> to T (0 - k) = 2 ^ bits T - k).
  { intros k Hk. unfold to, wrap.
    replace (0 - k) with (2 ^ bits T - k + (-1) * 2 ^ bits T) by ring.
    rewrite Z.mod_add by lia. apply Z.mod_small. lia. }
  unfold obf_mul_inverse_mod2n. rewrite Hland. cbn [Z.eqb negb]. cbv zeta.
  rewrite (Hneg 1) by lia.
  destruct (Z.eqb_spec num (2 ^ bits T - 1)) as [-> | Hne].
  - exists (2 ^ bits T - 1). split; [reflexivity |].
    unfold to, wrap.
    replace ((2 ^ bits T - 1) * (2 ^ bits T - 1))
      with (1 + (2 ^ bits T - 2) * 2 ^ bits T) by ring.
    now rewrite Z.mod_add by lia.
  - assert (Hle : num <= 2 ^ bits T - 3).
    { destruct (Z.eq_dec num (2 ^ bits T - 2)) as [E |]; [| lia].
      exfalso. rewrite E in Hodd.
      replace (2 ^ bits T - 2) with (2 ^ bits T + 2 * (-1)) in Hodd by ring.
      rewrite Z.odd_add_mul_2, <- Z.negb_even, Heven in Hodd. discriminate. }
    assert (H256 : 256 <= 2 ^ bits T).
    { change 256 with (2 ^ 8). apply Z.pow_le_mono_r; [lia |].
      destruct (bits_cases T) as [-> | [-> | [-> | ->]]]; lia. }
    pose proof (Z.mod_pos_bound (2 ^ bits T - 2) num ltac:(lia)) as Hm2.
    pose proof (Z.mod_pos_bound (2 ^ bits T) num ltac:(lia)) as Hm.
    rewrite (Hneg 2) by lia. rewrite (Hneg num) by lia.
    rewrite (to_small T ((2 ^ bits T - 2) mod num)) by lia.
    assert (Ht1 : to T (arith T ((2 ^ bits T - 2) mod num + 2) mod num)
                  = 2 ^ bits T mod num).
    { assert (Ha : arith T ((2 ^ bits T - 2) mod num + 2)
                   = (2 ^ bits T - 2) mod num + 2).
      { unfold arith. destruct (bits T <? 32); [reflexivity |].
        apply to_small. lia. }
      rewrite Ha, Z.add_mod_idemp_l by lia.
      replace (2 ^ bits T - 2 + 2) with (2 ^ bits T) by ring.
      apply to_small. lia. }
    rewrite Ht1.
    assert (Hq : to T (to T ((2 ^ bits T - num) / num) + 1)
                 = to T (2 ^ bits T / num)).
    { rewrite to_add_l. f_equal.
      replace (2 ^ bits T - num) with (2 ^ bits T + (-1) * num) by ring.
      rewrite Z.div_add by lia. ring. }
    rewrite Hq.
    destruct (obf_mul_inverse_loop_total T num (Z.to_nat (2 * bits T + 2))
                num (2 ^ bits T mod num)
                (to T (1 - to T (to T (2 ^ bits T / num) * 0))) 0
                (to T (0 - to T (to T (2 ^ bits T / num) * 1))) 1)
      as (inv & Hloop & Hinv).
    + lia.
    + rewrite Z2Nat.id by lia.
      replace (2 * bits T + 2 - 1) with (bits T + bits T + 1) by ring.
      rewrite !Z.pow_add_r by lia. change (2 ^ 1) with 2. nia.
    + rewrite Z.gcd_comm, Z.gcd_mod by lia.
      apply Z.coprime_pow_r; [lia |].
      apply Z.coprime_mod_l_iff.
      rewrite Zmod_odd, Hodd. apply Z.coprime_1_l.
    + now rewrite Z.mul_1_l.
    + rewrite Z.mul_1_r, to_to, to_sub_r, to_mul_l.
      replace ((0 - 2 ^ bits T / num) * num)
        with (2 ^ bits T mod num + (- 1) * 2 ^ bits T)
        by (rewrite Z.mod_eq by lia; ring).
      unfold to, wrap. now rewrite Z.mod_add by lia.
    + exists inv. rewrite Hloop. cbn [bind].
      rewrite (Z.mul_comm num inv), Hinv, Z.eqb_refl. split; reflexivity.
Qed.

Lemma split_two_some (seed cycles : Z) :
  0 <= cycles < 2 ^ 31 ->
  exists a b,
    split_two seed cycles = Some (a, b) /\ 0 <= a /\ 0 <= b /\ a + b <= cycles.
Proof.
  intros Hc.
  destruct (obf_random_split_succeeds seed cycles split2)
    as (ret & E & Hlen & Hnn & Hsum);
    [repeat constructor; cbn; lia | reflexivity | lia | cbn; lia | cbn; lia |].
  destruct ret as [| a [| b [| c ret]]]; try discriminate.
  inversion Hnn as [| ? ? Ha Hnn']; subst. inversion Hnn' as [| ? ? Hb _]; subst.
  cbn in Hsum. exists a, b. unfold split_two. rewrite E. cbn [bind].
  destruct (Z.leb_spec (a + b) cycles); [| lia].
  repeat split; lia.
Qed.

Lemma split_three_some (seed cycles : Z) :
  0 <= cycles < 2 ^ 31 ->
  exists a b c,
    obf_random_split seed cycles split3 = Some [a; b; c] /\
    0 <= a /\ 0 <= b /\ 0 <= c /\ a + b + c <= cycles.
Proof.
  intros Hc.
  destruct (obf_random_split_succeeds seed cycles split3)
    as (ret & E & Hlen & Hnn & Hsum);
    [repeat constructor; cbn; lia | reflexivity | lia | cbn; lia | cbn; lia |].
  destruct ret as [| a [| b [| c [| d ret]]]]; try discriminate.
  inversion Hnn as [| ? ? Ha Hnn']; subst. inversion Hnn' as [| ? ? Hb Hnn'']; subst.
  inversion Hnn'' as [| ? ? Hc' _]; subst.
  cbn in Hsum. exists a, b, c. split; [exact E |]. repeat split; lia.
Qed.

(** No share the splitter returns is negative. *)
Lemma obf_random_split_not_negative
    (seed cycles : Z) (elements : list ObfDescriptor) (ret : list Z) :
  Forall (fun e => 0 < weight e < 2 ^ 31) elements ->
  obf_random_split seed cycles elements = Some ret ->
  Forall (fun share => 0 <= share) ret.
Proof.
  intros Hw H. unfold obf_random_split in H.
  set (L := fold_left (fun l e => int32_t (l - min_cycles e)) elements cycles) in H.
  destruct (obf_random_split_draw_raw seed elements Hw 0) as [Hdraw Hraw].
  rewrite Hdraw in H. cbn [bind] in H.
  destruct (Z.leb_spec 0 L) as [Hl | Hl]; [| discriminate].
  set (raw := raw_shares seed elements 0) in *.
  set (q := double_div (double_of_Z L) (double_of_Z (sum_weights raw))) in H.
  bind_inv H. clear E0. apply Some_inj in H. subst l.
  assert (Hq : not_negative q).
  { apply double_div_not_negative; apply double_of_Z_not_negative; [exact Hl |].
    rewrite sum_weights_Zsum. apply size_t_range. }
  assert (Hnn : Forall (fun r => 0 <= r) raw).
  { clear -Hraw. induction Hraw; constructor; [lia | assumption]. }
  pose proof (obf_random_split_scale_spec q raw ret Hq Hnn E) as Hs.
  clear -Hs. induction Hs as [| r share raw ret [_ Hshare] _ IH]; constructor; assumption.
Qed.

(** X10: the [static_assert]s that follow every call of [obf_random_split] in
    the injections of versions 2, 3 and 5 never fail: for every seed and every
    budget from 0 to [2^31 - 1] the two-way split returns two non-negative
    shares whose sum stays within the budget, and so does the three-way split of
    version 3; a negative budget fails the splitter's own assertion. *)
Theorem split_two_within_budget (seed cycles : Z) :
  (cycles < 0 -> split_two seed cycles = None) /\
  (0 <= cycles < 2 ^ 31 ->
   (exists a b,
       split_two seed cycles = Some (a, b) /\ 0 <= a /\ 0 <= b /\ a + b <= cycles) /\
   (exists a b c,
       obf_random_split seed cycles split3 = Some [a; b; c] /\
       0 <= a /\ 0 <= b /\ 0 <= c /\ a + b + c <= cycles)).
Proof.
  split.
  - intros Hneg. unfold split_two.
    destruct (Z.le_gt_cases (- 2 ^ 31) cycles) as [Hr | Hr].
    + rewrite obf_random_split_floors_exceed_budget; [reflexivity | cbn; lia | cbn; lia].
    + destruct (obf_random_split seed cycles split2) as [ret |] eqn:E; [| reflexivity].
      apply obf_random_split_not_negative in E; [| repeat constructor; cbn; lia].
      cbn [bind].
      destruct ret as [| a [| b [| c ret]]]; try reflexivity.
      inversion E as [| ? ? Ha E']; subst. inversion E' as [| ? ? Hb _]; subst.
      destruct (Z.leb_spec (a + b) cycles); [lia | reflexivity].
  - intros Hc. split; [now apply split_two_some | now apply split_three_some].
Qed.

Lemma to_1 (T : UInt) : to T 1 = 1.
Proof. destruct T; reflexivity. Qed.

Lemma inverse_unique (T : UInt) (num a b : Z) :
  0 <= a < 2 ^ bits T -> 0 <= b < 2 ^ bits T ->
  to T (num * a) = 1 -> to T (num * b) = 1 -> a = b.
Proof.
  intros Ha Hb H1 H2.
  assert (Ea : to T (a * (num * b)) = a).
  { rewrite <- to_mul_r, H2, Z.mul_1_r. now apply to_small. }
  assert (Eb : to T (b * (num * a)) = b).
  { rewrite <- to_mul_r, H1, Z.mul_1_r. now apply to_small. }
  assert (E : to T (a * (num * b)) = to T (b * (num * a))) by (f_equal; ring).
  congruence.
Qed.

(** X11: [obf_mul_inverse_mod2n] rejects even numbers by its first assertion;
    on an odd number of the type it returns the only value of the type whose
    product with it is 1 modulo [2^bits]; that value is odd, and inverting it
    gives the number back. *)
Theorem obf_mul_inverse_mod2n_involution (T : UInt) (num : Z) :
  0 <= num < 2 ^ bits T ->
  (Z.even num = true -> obf_mul_inverse_mod2n T num = None) /\
  (Z.odd num = true ->
   exists inv,
     obf_mul_inverse_mod2n T num = Some inv /\
     0 <= inv < 2 ^ bits T /\ Z.odd inv = true /\
     (forall inv', 0 <= inv' < 2 ^ bits T -> to T (num * inv') = 1 -> inv' = inv) /\
     obf_mul_inverse_mod2n T inv = Some num).
Proof.
  intros Hr. split.
  - intros He. unfold obf_mul_inverse_mod2n.
    assert (Hland : Z.land num 1 = 0).
    { change 1 with (Z.ones 1) at 1. rewrite Z.land_ones by lia.
      change (2 ^ 1) with 2. rewrite Zmod_even, He. reflexivity. }
    rewrite Hland. reflexivity.
  - intros Ho.
    destruct (obf_mul_inverse_mod2n_total T num Hr Ho) as (inv & E & Hinv).
    pose proof (obf_mul_inverse_mod2n_range T num inv Hr E) as Hri.
    rewrite to_1 in Hinv.
    assert (Hoi : Z.odd inv = true).
    { pose proof (pow_bits_pos T) as HM. pose proof (bits_pos T) as HW.
      unfold to, wrap in Hinv.
      assert (Hodd : Z.odd ((num * inv) mod 2 ^ bits T) = true) by (rewrite Hinv; reflexivity).
      rewrite Z.mod_eq in Hodd by lia.
      set (q := num * inv / 2 ^ bits T) in Hodd. clearbody q.
      assert (Hp : 2 ^ bits T = 2 * 2 ^ (bits T - 1)).
      { rewrite <- Z.pow_succ_r by lia. f_equal. lia. }
      rewrite Hp in Hodd.
      replace (num * inv - 2 * 2 ^ (bits T - 1) * q)
        with (num * inv + 2 * (- 2 ^ (bits T - 1) * q)) in Hodd by ring.
      rewrite Z.odd_add_mul_2, Z.odd_mul, Ho in Hodd. exact Hodd. }
    exists inv. split; [exact E |]. split; [exact Hri |]. split; [exact Hoi |].
    split.
    + intros inv' Hr' H'. now apply (inverse_unique T num).
    + destruct (obf_mul_inverse_mod2n_total T inv Hri Hoi) as (num' & E' & Hinv').
      pose proof (obf_mul_inverse_mod2n_range T inv num' Hri E') as Hrn.
      rewrite to_1 in Hinv'. rewrite E'. f_equal.
      apply (inverse_unique T inv); try assumption.
      now rewrite Z.mul_comm.
Qed.

Lemma obf_mul_inverse_mod2n_involution_witness :
  0 <= 25 < 2 ^ bits uint16_t /\
  (Z.even 25 = true -> obf_mul_inverse_mod2n uint16_t 25 = None) /\
  (Z.odd 25 = true ->
   exists inv,
     obf_mul_inverse_mod2n uint16_t 25 = Some inv /\
     0 <= inv < 2 ^ bits uint16_t /\ Z.odd inv = true /\
     (forall inv', 0 <= inv' < 2 ^ bits uint16_t -> to uint16_t (25 * inv') = 1 ->
                   inv' = inv) /\
     obf_mul_inverse_mod2n uint16_t inv = Some 25).
Proof.
  assert (Hr : 0 <= 25 < 2 ^ bits uint16_t) by (split; [lia | reflexivity]).
  split; [exact Hr |].
  exact (obf_mul_inverse_mod2n_involution uint16_t 25 Hr).
Defined.

(** ** The rough square root and the rolling-counter context *)

Lemma obf_compile_time_approximation_above (x : Z) (xref : list Z) :
  forall yref,
    Forall (fun b => b <= x) xref ->
    obf_compile_time_approximation x xref yref = None.
Proof.
  induction xref as [| x0 xref' IH]; intros yref H; [reflexivity |].
  destruct yref as [| y0 yref']; [reflexivity |].
  cbn [obf_compile_time_approximation].
  inversion H as [| ? ? _ H']; subst.
  destruct xref' as [| x1 xref'']; [reflexivity |].
  destruct yref' as [| y1 yref'']; [reflexivity |].
  inversion H' as [| ? ? Hx1 _]; subst.
  destruct (Z.ltb_spec x x1) as [Hlt | _]; [lia |].
  rewrite andb_false_r. apply IH. exact H'.
Qed.

Lemma sqrt_xref_bound : Forall (fun b => b <= 2 ^ 62) sqrt_xref.
Proof.
  apply Forall_forall. intros b Hb.
  assert (H : forallb (fun b => b <=? 2 ^ 62) sqrt_xref = true) by (vm_compute; reflexivity).
  rewrite forallb_forall in H. apply Z.leb_le. now apply H.
Qed.

(** X12: the table of [obf_sqrt_very_rough_approximation] holds the squares
    [4^(i-1)] computed in 64 bits, which are 0 from [4^32] on; so for every
    argument from [2^62] up no interval of the table matches and the function
    runs off its loop without a value, while on each of the reference points
    [4^k] up to [4^30] it returns [2^k] exactly. *)
Theorem obf_sqrt_very_rough_approximation_domain (x0 : Z) (k : Z) :
  (2 ^ 62 <= x0 -> obf_sqrt_very_rough_approximation x0 = None) /\
  (0 <= k <= 30 -> obf_sqrt_very_rough_approximation (4 ^ k) = Some (2 ^ k)) /\
  nth_error sqrt_xref 32 = Some (2 ^ 62) /\ nth_error sqrt_xref 33 = Some 0.
Proof.
  split; [| split; [| split; reflexivity]].
  - intros H. unfold obf_sqrt_very_rough_approximation.
    apply obf_compile_time_approximation_above.
    eapply Forall_impl; [| apply sqrt_xref_bound]. cbv beta. intros b Hb. lia.
  - intros H.
    assert (Hc : k = 0 \/ k = 1 \/ k = 2 \/ k = 3 \/ k = 4 \/ k = 5 \/ k = 6 \/ k = 7 \/
                 k = 8 \/ k = 9 \/ k = 10 \/ k = 11 \/ k = 12 \/ k = 13 \/ k = 14 \/
                 k = 15 \/ k = 16 \/ k = 17 \/ k = 18 \/ k = 19 \/ k = 20 \/ k = 21 \/
                 k = 22 \/ k = 23 \/ k = 24 \/ k = 25 \/ k = 26 \/ k = 27 \/ k = 28 \/
                 k = 29 \/ k = 30) by lia.
    repeat (destruct Hc as [-> | Hc]; [vm_compute; reflexivity |]).
    subst. vm_compute. reflexivity.
Qed.

Section RollingCounterDomain.

Variable obf_gen_const : UInt -> Z -> Z.
Variable OBF_COMPILE_TIME_TESTS : nat.

(** X13: at 64 bits the rolling-counter context cannot be instantiated with a
    modulus of 1, 2 or 3: [MAXMUL1 = T(-1) / MOD] is then at least [2^62], where
    the rough square root has no value.  ([obf_gen_const], which supplies the
    modulus, is not defined in the header.) *)
Theorem ObfLiteralContext_version4_small_modulus (seed : Z) :
  1 <= Z.land (to uint64_t (obf_gen_const uint64_t (obf_compile_time_prng seed 1)))
         (2 ^ 32 - 1) <= 3 ->
  ObfLiteralContext_version4 obf_gen_const OBF_COMPILE_TIME_TESTS uint64_t seed = None.
Proof.
  intros Hm. unfold ObfLiteralContext_version4. cbv zeta.
  change (to uint64_t (arith uint64_t (Z.shiftl 1 (sizeof uint64_t * 4)) - 1))
    with (2 ^ 32 - 1).
  set (MOD := Z.land _ (2 ^ 32 - 1)) in *. clearbody MOD.
  destruct (Z.eqb_spec MOD 0) as [-> | _]; [lia |].
  rewrite obf_weak_random_some by lia. cbn [bind].
  assert (Hmax : 2 ^ 62 <= max_value uint64_t / MOD).
  { change (max_value uint64_t) with (2 ^ 64 - 1).
    apply Z.div_le_lower_bound; lia. }
  unfold obf_sqrt_very_rough_approximation.
  rewrite obf_compile_time_approximation_above; [reflexivity |].
  eapply Forall_impl; [| apply sqrt_xref_bound]. cbv beta. intros b Hb. lia.
Qed.

End RollingCounterDomain.

Lemma ObfLiteralContext_version4_small_modulus_witness :
  1 <= Z.land (to uint64_t ((fun _ _ => 3) uint64_t (obf_compile_time_prng 1 1)))
         (2 ^ 32 - 1) <= 3 /\
  ObfLiteralContext_version4 (fun _ _ => 3) 100 uint64_t 1 = None.
Proof.
  assert (Hm : 1 <= Z.land (to uint64_t ((fun _ _ => 3) uint64_t (obf_compile_time_prng 1 1)))
                      (2 ^ 32 - 1) <= 3) by (vm_compute; split; discriminate).
  split; [exact Hm |].
  exact (ObfLiteralContext_version4_small_modulus (fun _ _ => 3) 100 1 Hm).
Defined.

(** ** Which leaf context a literal gets *)

Lemma eligible_weight_le (rec : bool) (cycles exclude_version : Z)
    (descr : list ObfDescriptor) (j : nat) (d : ObfDescriptor) :
  Forall (fun d => 0 <= weight d) descr ->
  nth_error descr j = Some d ->
  Z.of_nat j <> exclude_version -> min_cycles d <= cycles ->
  is_recursive d = rec ->
  weight d <= Zsum (weights_of rec cycles exclude_version descr 0).
Proof.
  intros Hnn Hj Hex Hmin Hrec.
  apply (weights_of_ge rec cycles exclude_version descr Hnn 0 j d Hj); [| exact Hrec].
  unfold eligible. cbn [Nat.add].
  destruct (Z.eqb_spec (Z.of_nat j) exclude_version); [contradiction |].
  destruct (Z.leb_spec (min_cycles d) cycles); [reflexivity | lia].
Qed.

(** Selection succeeds as soon as one descriptor of positive weight is within
    the budget and not excluded. *)
Lemma obf_random_obf_from_list_some (seed cycles : Z)
    (descr : list ObfDescriptor) (exclude_version : Z) (j : nat) (d : ObfDescriptor) :
  Forall (fun d => 0 <= weight d) descr ->
  Zsum (map weight descr) < 2 ^ 64 ->
  nth_error descr j = Some d ->
  Z.of_nat j <> exclude_version -> min_cycles d <= cycles -> 0 < weight d ->
  exists which,
    obf_random_obf_from_list seed cycles descr exclude_version = Some which.
Proof.
  intros Hnn Hlt Hj Hex Hmin Hw.
  apply obf_random_obf_from_list_total; try assumption.
  destruct (weights_of_nonneg true cycles exclude_version descr Hnn 0) as [Ht _].
  destruct (weights_of_nonneg false cycles exclude_version descr Hnn 0) as [Hf _].
  apply Zsum_nonneg in Ht, Hf.
  pose proof (eligible_weight_le (is_recursive d) cycles exclude_version descr j d
                Hnn Hj Hex Hmin eq_refl) as Hge.
  destruct (is_recursive d); lia.
Qed.

(** A non-recursive choice means that no recursive descriptor of positive weight
    was available. *)
Lemma obf_random_obf_from_list_recursive_first (seed cycles : Z)
    (descr : list ObfDescriptor) (exclude_version : Z) (which j : nat)
    (d d' : ObfDescriptor) :
  Forall (fun d => 0 <= weight d) descr ->
  Zsum (map weight descr) < 2 ^ 64 ->
  obf_random_obf_from_list seed cycles descr exclude_version = Some which ->
  nth_error descr which = Some d ->
  nth_error descr j = Some d' ->
  is_recursive d' = true -> Z.of_nat j <> exclude_version ->
  min_cycles d' <= cycles -> 0 < weight d' ->
  is_recursive d = true.
Proof.
  intros Hnn Hlt H Hd Hj Hr' Hex' Hmin' Hw'.
  destruct (obf_random_obf_from_list_selected seed cycles descr exclude_version which H)
    as (d0 & Hd0 & _ & _ & _ & Hrec).
  rewrite Hd in Hd0. apply Some_inj in Hd0. subst d0.
  destruct (is_recursive d) eqn:Hr; [reflexivity |].
  specialize (Hrec eq_refl).
  destruct (weights_of_nonneg true cycles exclude_version descr Hnn 0) as [Hnn' Hle].
  pose proof (Zsum_nonneg _ Hnn') as H0.
  rewrite size_t_small in Hrec by lia.
  pose proof (eligible_weight_le true cycles exclude_version descr j d'
                Hnn Hj Hex' Hmin' Hr') as Hge.
  lia.
Qed.

Lemma ObfLiteralContext_descr_weights :
  Forall (fun d => 0 <= weight d) ObfLiteralContext_descr /\
  Zsum (map weight ObfLiteralContext_descr) < 2 ^ 64.
Proof. split; [repeat constructor; cbn; lia | reflexivity]. Qed.

Lemma size_t_minus1_eq : size_t_minus1 = 2 ^ 64 - 1.
Proof. reflexivity. Qed.

(** X14: the leaf context of a literal depends on its budget as follows: a
    negative budget fails the assertion [sum_nr > 0]; below 6 cycles the
    identity context (version 0) is taken; from 6 cycles on the identity is
    never taken, and version 3 needs 10 cycles, version 2 needs 20 and the
    rolling counter (version 4) needs 100. *)
Theorem ObfLiteralContext_which_by_budget (seed cycles : Z) :
  (cycles < 0 -> ObfLiteralContext_which seed cycles = None) /\
  (0 <= cycles < 6 -> ObfLiteralContext_which seed cycles = Some 0%nat) /\
  (6 <= cycles ->
   exists which,
     ObfLiteralContext_which seed cycles = Some which /\
     (1 <= which <= 4)%nat /\
     (which = 3%nat -> 10 <= cycles) /\
     (which = 2%nat -> 20 <= cycles) /\
     (which = 4%nat -> 100 <= cycles)).
Proof.
  destruct ObfLiteralContext_descr_weights as [Hnn Hlt].
  unfold ObfLiteralContext_which.
  set (s := obf_compile_time_prng seed 1). clearbody s.
  assert (Hsel : forall which,
             obf_random_obf_from_list s cycles ObfLiteralContext_descr size_t_minus1
             = Some which ->
             (which = 0%nat /\ 0 <= cycles) \/ (which = 1%nat /\ 6 <= cycles) \/
             (which = 2%nat /\ 20 <= cycles) \/ (which = 3%nat /\ 10 <= cycles) \/
             (which = 4%nat /\ 100 <= cycles)).
  { intros which H.
    destruct (obf_random_obf_from_list_selected _ _ _ _ _ H) as (d & Hd & _ & Hmin & _).
    destruct which as [| [| [| [| [| which]]]]]; cbn in Hd;
      try (apply Some_inj in Hd; subst d; cbn in Hmin; lia).
    destruct which; discriminate. }
  split; [| split].
  - intros Hneg.
    pose proof Hsel as Hsel'.
    destruct (obf_random_obf_from_list s cycles ObfLiteralContext_descr size_t_minus1)
      as [which |]; [| reflexivity].
    specialize (Hsel' which eq_refl). lia.
  - intros Hc.
    destruct (obf_random_obf_from_list_some s cycles ObfLiteralContext_descr size_t_minus1
                0 obf_literal_context_version0_descr Hnn Hlt eq_refl)
      as [which H]; [rewrite size_t_minus1_eq; cbn; lia | cbn; lia | cbn; lia |].
    rewrite H. f_equal. apply Hsel in H. lia.
  - intros Hc.
    destruct (obf_random_obf_from_list_some s cycles ObfLiteralContext_descr size_t_minus1
                1 obf_literal_context_version1_descr Hnn Hlt eq_refl)
      as [which H]; [rewrite size_t_minus1_eq; cbn; lia | cbn; lia | cbn; lia |].
    exists which. split; [exact H |].
    pose proof (Hsel which H) as Hw.
    assert (Hne : which <> 0%nat).
    { intros ->.
      assert (Hrec : is_recursive obf_literal_context_version0_descr = true).
      { apply (obf_random_obf_from_list_recursive_first s cycles ObfLiteralContext_descr
                 size_t_minus1 0 1 obf_literal_context_version0_descr
                 obf_literal_context_version1_descr Hnn Hlt H eq_refl eq_refl eq_refl).
        - rewrite size_t_minus1_eq. cbn. lia.
        - cbn. lia.
        - cbn. lia. }
      discriminate Hrec. }
    lia.
Qed.

(** ** Variables on the smallest budgets *)

Lemma obf_random_const_some (seed : Z) (lst : list Z) :
  lst <> [] -> exists c, obf_random_const seed lst = Some c /\ In c lst.
Proof.
  intros Hne.
  assert (Hlen : 0 < Z.of_nat (length lst)) by (destruct lst; [congruence | cbn; lia]).
  unfold obf_random_const. rewrite obf_weak_random_some by exact Hlen. cbn [bind].
  pose proof (Z.mod_pos_bound (Z.shiftr seed 32) _ Hlen) as Hr.
  destruct (nth_error lst (Z.to_nat (Z.shiftr seed 32 mod Z.of_nat (length lst))))
    as [c |] eqn:Hc.
  - exists c. split; [reflexivity |]. eapply nth_error_In. exact Hc.
  - apply nth_error_None in Hc. lia.
Qed.

(** The strategies a variable can afford: the descriptors of positive weight
    with their costs in a variable's context. *)
Lemma obf_injection_descr_var (T : UInt) (s c cycles : Z) (which : nat) (d : ObfDescriptor) :
  nth_error (obf_injection_descr T (ObfVarContext s c) 0) which = Some d ->
  0 < weight d -> min_cycles d <= cycles ->
  (which = 0%nat /\ 0 <= cycles) \/ (which = 1%nat /\ 2 <= cycles) \/
  (which = 2%nat /\ 14 <= cycles) \/ (which = 3%nat /\ 14 <= cycles) \/
  (which = 4%nat /\ 56 <= cycles) \/ (which = 5%nat /\ 6 <= cycles).
Proof.
  intros Hd Hw Hmin.
  destruct which as [| [| [| [| [| [| which]]]]]]; cbn in Hd;
    [| | | | | | destruct which; discriminate];
    apply Some_inj in Hd; subst d;
    unfold obf_injection_version2_descr, obf_injection_version3_descr,
      obf_injection_version5_descr, wide_only in *;
    try destruct (1 <? sizeof T); cbn in Hw, Hmin; lia.
Qed.

Section LowBudgets.

Variable OBFUSCATE_SEED : Z.
Variable obf_gen_const : UInt -> Z -> Z.
Variable OBFUSCATE_DEBUG_DISABLE_ANTI_DEBUG : bool.
Variable OBF_COMPILE_TIME_TESTS : nat.

Local Abbreviation build :=
  (obf_injection OBFUSCATE_SEED obf_gen_const OBF_COMPILE_TIME_TESTS).
Local Abbreviation encode :=
  (injection OBFUSCATE_SEED obf_gen_const OBFUSCATE_DEBUG_DISABLE_ANTI_DEBUG
     OBF_COMPILE_TIME_TESTS).
Local Abbreviation decode :=
  (surjection OBFUSCATE_SEED obf_gen_const OBFUSCATE_DEBUG_DISABLE_ANTI_DEBUG
     OBF_COMPILE_TIME_TESTS).

(** One step of the builder when the additive strategy is drawn. *)
Lemma obf_injection_step_version1
    (fuel : nat) (T : UInt) (ctx : Context) (seed cycles excl cc : Z) :
  context_cycles OBFUSCATE_SEED obf_gen_const OBF_COMPILE_TIME_TESTS T ctx = Some cc ->
  obf_random_obf_from_list (obf_compile_time_prng seed 1) cycles
    (obf_injection_descr T ctx cc) excl = Some 1%nat ->
  build (S fuel) T ctx seed cycles excl =
  (let availCycles := cycles - own_min_cycles ctx cc 1 1 in
   assert! (0 <=? availCycles) ;;
   RecursiveInjection <-
     build fuel T ctx (obf_compile_time_prng seed 1) (availCycles + cc) 1 ;;
   consts <- OBF_CONSTS OBFUSCATE_SEED ;;
   C <- obf_random_const (obf_compile_time_prng seed 2) (1 :: consts) ;;
   Some (version1 (to T C) RecursiveInjection)).
Proof.
  intros Hcc Hwhich. cbn [obf_injection]. rewrite Hcc. cbn [bind].
  rewrite Hwhich. reflexivity.
Qed.

(** In a variable's context a budget below 2 cycles buys the identity only. *)
Lemma obf_injection_var_identity (fuel : nat) (T : UInt) (s c seed cycles excl : Z) :
  excl <> 0 -> 0 <= cycles ->
  (cycles < 2 \/ (excl = 1 /\ cycles < 6)) ->
  build (S fuel) T (ObfVarContext s c) seed cycles excl
  = Some (version0 (ObfVarContext s c)).
Proof.
  intros Hex Hc Hlow. cbn [obf_injection]. unfold context_cycles. cbn [bind].
  destruct (obf_injection_descr_weights T (ObfVarContext s c) 0) as [Hnn Hlt].
  destruct (obf_random_obf_from_list_some (obf_compile_time_prng seed 1) cycles
              (obf_injection_descr T (ObfVarContext s c) 0) excl 0
              (obf_injection_version0_descr (ObfVarContext s c) 0) Hnn ltac:(lia) eq_refl)
    as [which H]; [cbn; lia | cbn; lia | cbn; lia |].
  rewrite H. cbn [bind].
  destruct (obf_random_obf_from_list_selected _ _ _ _ _ H) as (d & Hd & Hw & Hmin & Hne & _).
  pose proof (obf_injection_descr_var T s c cycles which d Hd Hw Hmin) as Hcase.
  assert (which = 0%nat) by (cbn in Hne; lia). subst which.
  unfold own_min_cycles, calc_cycles.
  destruct (Z.leb_spec 0 (cycles - (0 + (0 + 0)))); [reflexivity | lia].
Qed.

(** X15: a variable with a budget of fewer than 2 cycles, which is what the
    macro [OBF0] asks for at scale 0, is not obfuscated at all: whatever the
    seed and the type, its injection is the identity, so the member [val] holds
    the value itself.  A negative budget does not compile. *)
Theorem obf_var_identity_below_two_cycles
    (fuel : nat) (T_ : IntType) (seed cycles : Z) :
  (cycles < 0 ->
   obf_var_Injection OBFUSCATE_SEED obf_gen_const OBF_COMPILE_TIME_TESTS (S fuel)
     T_ seed cycles = None) /\
  (0 <= cycles < 2 ->
   obf_var_Injection OBFUSCATE_SEED obf_gen_const OBF_COMPILE_TIME_TESTS (S fuel)
     T_ seed cycles = Some (version0 (obf_var_Context seed cycles)) /\
   forall x w,
     encode (make_unsigned T_) (version0 (obf_var_Context seed cycles)) x w
     = (scalar x, w) /\
     decode (make_unsigned T_) (version0 (obf_var_Context seed cycles)) (scalar x) w
     = (x, w)) /\
  obf_exp_cycles 0 = 1.
Proof.
  split; [| split; [| reflexivity]].
  - intros Hneg. unfold obf_var_Injection, obf_var_Context.
    cbn [obf_injection]. unfold context_cycles. cbn [bind].
    destruct (obf_random_obf_from_list _ cycles _ size_t_minus1) as [which |] eqn:H;
      [| reflexivity].
    destruct (obf_random_obf_from_list_selected _ _ _ _ _ H) as (d & Hd & Hw & Hmin & _).
    pose proof (obf_injection_descr_var _ _ _ cycles which d Hd Hw Hmin). lia.
  - intros Hc. split.
    + unfold obf_var_Injection, obf_var_Context.
      apply obf_injection_var_identity; [rewrite size_t_minus1_eq | |]; lia.
    + intros x w. split; reflexivity.
Qed.

(** X16: a variable with a budget of 2 to 5 cycles, such as the 3 cycles of
    [OBF1] at scale 0, is protected by one addition only: its tree is the
    additive strategy over the identity, the member [val] holds [x + C] modulo
    [2^bits], and [C] is 1 or one of the odd constants of the build. *)
Theorem obf_var_additive_below_six_cycles
    (fuel : nat) (T_ : IntType) (seed cycles : Z) :
  2 <= cycles < 6 ->
  exists C,
    obf_var_Injection OBFUSCATE_SEED obf_gen_const OBF_COMPILE_TIME_TESTS (S (S fuel))
      T_ seed cycles
    = Some (version1 C (version0 (obf_var_Context seed cycles))) /\
    (C = 1 \/ In C candidates) /\
    (forall x w,
        encode (make_unsigned T_) (version1 C (version0 (obf_var_Context seed cycles))) x w
        = (scalar (to (make_unsigned T_) (x + C)), w)) /\
    (forall y w,
        decode (make_unsigned T_) (version1 C (version0 (obf_var_Context seed cycles)))
          (scalar y) w
        = (to (make_unsigned T_) (y - C), w)).
Proof.
  intros Hc. unfold obf_var_Injection, obf_var_Context.
  set (T := make_unsigned T_). set (s := obf_compile_time_prng seed 1).
  set (seed2 := obf_compile_time_prng seed 2).
  destruct (obf_injection_descr_weights T (ObfVarContext s cycles) 0) as [Hnn Hlt].
  destruct (obf_random_obf_from_list_some (obf_compile_time_prng seed2 1) cycles
              (obf_injection_descr T (ObfVarContext s cycles) 0) size_t_minus1 1
              (obf_injection_version1_descr (ObfVarContext s cycles) 0) Hnn ltac:(lia) eq_refl)
    as [which H]; [rewrite size_t_minus1_eq; cbn; lia | cbn; lia | cbn; lia |].
  destruct (obf_random_obf_from_list_selected _ _ _ _ _ H) as (d & Hd & Hw & Hmin & Hne & _).
  pose proof (obf_injection_descr_var T s cycles cycles which d Hd Hw Hmin) as Hcase.
  assert (Hwhich : which = 1%nat).
  { destruct Hcase as [[-> _] | Hcase]; [| lia].
    assert (Hrec : is_recursive d = true).
    { apply (obf_random_obf_from_list_recursive_first (obf_compile_time_prng seed2 1) cycles
               (obf_injection_descr T (ObfVarContext s cycles) 0) size_t_minus1 0 1 d
               (obf_injection_version1_descr (ObfVarContext s cycles) 0)
               Hnn ltac:(lia) H Hd eq_refl eq_refl).
      - rewrite size_t_minus1_eq. cbn. lia.
      - cbn. lia.
      - cbn. lia. }
    cbn in Hd. apply Some_inj in Hd. subst d. discriminate Hrec. }
  subst which.
  destruct (OBF_CONSTS_spec OBFUSCATE_SEED) as (a & b & c & Hconsts & Ha & Hb & Hc' & _).
  destruct (obf_random_const_some (obf_compile_time_prng seed2 2) [1; a; b; c])
    as (C0 & HC0 & HinC); [discriminate |].
  assert (HC : C0 = 1 \/ In C0 candidates).
  { destruct HinC as [<- | [<- | [<- | [<- | []]]]]; auto. }
  assert (Hrange : 1 <= C0 <= 31).
  { destruct HC as [-> | HC]; [lia |]. apply candidates_odd in HC. lia. }
  assert (HtoC : to T C0 = C0).
  { apply to_small. pose proof (pow_half_bits T). lia. }
  exists C0. split.
  - rewrite (obf_injection_step_version1 (S fuel) T (ObfVarContext s cycles) seed2 cycles
               size_t_minus1 0 eq_refl H).
    cbv zeta. unfold own_min_cycles, calc_cycles.
    destruct (Z.leb_spec 0 (cycles - (0 + (1 + 1)))); [| lia].
    rewrite obf_injection_var_identity by lia.
    cbn [bind]. rewrite Hconsts. cbn [bind]. rewrite HC0. cbn [bind].
    rewrite HtoC. reflexivity.
  - split; [exact HC |]. split; intros; reflexivity.
Qed.

End LowBudgets.

Lemma obf_var_additive_below_six_cycles_witness :
  2 <= obf_exp_cycles 1 < 6 /\
  exists C,
    obf_var_Injection 0x0c7dfa61a867b125 (fun _ s => s) 100 (S (S 0)) uint32 7
      (obf_exp_cycles 1)
    = Some (version1 C (version0 (obf_var_Context 7 (obf_exp_cycles 1)))) /\
    (C = 1 \/ In C candidates) /\
    (forall x w,
        injection 0x0c7dfa61a867b125 (fun _ s => s) false 100 (make_unsigned uint32)
          (version1 C (version0 (obf_var_Context 7 (obf_exp_cycles 1)))) x w
        = (scalar (to (make_unsigned uint32) (x + C)), w)) /\
    (forall y w,
        surjection 0x0c7dfa61a867b125 (fun _ s => s) false 100 (make_unsigned uint32)
          (version1 C (version0 (obf_var_Context 7 (obf_exp_cycles 1)))) (scalar y) w
        = (to (make_unsigned uint32) (y - C), w)).
Proof.
  assert (Hc : 2 <= obf_exp_cycles 1 < 6) by (vm_compute; split; [discriminate | reflexivity]).
  split; [exact Hc |].
  exact (obf_var_additive_below_six_cycles 0x0c7dfa61a867b125 (fun _ s => s) false 100
           0 uint32 7 (obf_exp_cycles 1) Hc).
Defined.

(** ** Literals and the operators of a variable *)

Section Values.

Variable OBFUSCATE_SEED : Z.
Variable obf_gen_const : UInt -> Z -> Z.
Variable OBFUSCATE_DEBUG_DISABLE_ANTI_DEBUG : bool.
Variable OBF_COMPILE_TIME_TESTS : nat.

Local Abbreviation ok :=
  (world_ok OBFUSCATE_SEED obf_gen_const OBFUSCATE_DEBUG_DISABLE_ANTI_DEBUG
     OBF_COMPILE_TIME_TESTS).
Local Abbreviation holds :=
  (obf_var_holds OBFUSCATE_SEED obf_gen_const OBFUSCATE_DEBUG_DISABLE_ANTI_DEBUG
     OBF_COMPILE_TIME_TESTS).
Local Abbreviation var_tree :=
  (obf_var_Injection OBFUSCATE_SEED obf_gen_const OBF_COMPILE_TIME_TESTS).
Local Abbreviation assign :=
  (obf_var_assign OBFUSCATE_SEED obf_gen_const OBFUSCATE_DEBUG_DISABLE_ANTI_DEBUG
     OBF_COMPILE_TIME_TESTS).
Local Abbreviation update :=
  (obf_var_update OBFUSCATE_SEED obf_gen_const OBFUSCATE_DEBUG_DISABLE_ANTI_DEBUG
     OBF_COMPILE_TIME_TESTS).

(** X17: an [obf_literal<T_, C_, seed, cycles>] gives its constant back:
    whatever tree the builder chose, [value()] returns [T(C_)] in every state
    in which no debugger is detected, however many other values were decoded
    in between. *)
Theorem obf_literal_value_is_constant
    (fuel : nat) (T_ : IntType) (seed cycles : Z) (Inj : Injection) (C_ : Z) (w : World) :
  obf_literal_Injection OBFUSCATE_SEED obf_gen_const OBF_COMPILE_TIME_TESTS fuel
    T_ seed cycles = Some Inj ->
  ok w ->
  exists val w1,
    obf_literal_construct OBFUSCATE_SEED obf_gen_const OBFUSCATE_DEBUG_DISABLE_ANTI_DEBUG
      OBF_COMPILE_TIME_TESTS T_ Inj C_ w = (val, w1) /\
    ok w1 /\
    forall w', ok w' ->
      exists w2,
        obf_literal_value OBFUSCATE_SEED obf_gen_const OBFUSCATE_DEBUG_DISABLE_ANTI_DEBUG
          OBF_COMPILE_TIME_TESTS T_ Inj val w' = (to (make_unsigned T_) C_, w2) /\
        ok w2.
Proof.
  intros Hb Hw. unfold obf_literal_Injection in Hb.
  apply obf_injection_well_formed in Hb.
  destruct (injection_surjection_wf OBFUSCATE_SEED obf_gen_const
              OBFUSCATE_DEBUG_DISABLE_ANTI_DEBUG OBF_COMPILE_TIME_TESTS
              Inj _ Hb (to (make_unsigned T_) C_) w Hw (to_range _ _))
    as (r & w1 & He & Hw1 & _ & Hd).
  exists r, w1. split; [exact He |]. split; [exact Hw1 |]. exact Hd.
Qed.

Lemma to_T__range (T_ : IntType) (z : Z) :
  if is_signed T_
  then - 2 ^ (bits (make_unsigned T_) - 1) <= to_T_ T_ z < 2 ^ (bits (make_unsigned T_) - 1)
  else 0 <= to_T_ T_ z < 2 ^ bits (make_unsigned T_).
Proof.
  unfold to_T_. cbv zeta.
  pose proof (to_range (make_unsigned T_) z) as Hr.
  pose proof (bits_pos (make_unsigned T_)) as Hb.
  assert (Hp : 2 ^ bits (make_unsigned T_) = 2 * 2 ^ (bits (make_unsigned T_) - 1)).
  { rewrite <- Z.pow_succ_r by lia. f_equal. lia. }
  destruct (is_signed T_); cbn [andb]; [| exact Hr].
  destruct (Z.leb_spec (2 ^ (bits (make_unsigned T_) - 1)) (to (make_unsigned T_) z)); lia.
Qed.

(** X18: assignment and reading of a variable are inverse to each other:
    after [v = t] (or the construction [obf_var(t)]) the variable holds [t]
    converted to [T_], whatever it held before, and the converting constructor
    from a variable of another type, seed or budget stores that variable's value
    converted to [T_].  What a variable holds is always a value of [T_]. *)
Theorem obf_var_assign_then_value
    (fuel : nat) (T_ : IntType) (seed cycles : Z) (Inj : Injection)
    (this : Rep) (t : Z) (w : World) :
  var_tree fuel T_ seed cycles = Some Inj ->
  ok w ->
  (exists this' w',
      assign T_ Inj this t w = (this', w') /\ ok w' /\
      holds T_ Inj this' (to_T_ T_ t)) /\
  (forall T2 Inj2 other x,
      holds T2 Inj2 other x ->
      exists this' w',
        obf_var_convert OBFUSCATE_SEED obf_gen_const OBFUSCATE_DEBUG_DISABLE_ANTI_DEBUG
          OBF_COMPILE_TIME_TESTS T_ Inj T2 Inj2 other w = (this', w') /\
        ok w' /\ holds T_ Inj this' (to_T_ T_ x)) /\
  (forall x, holds T_ Inj this x ->
             if is_signed T_
             then - 2 ^ (bits (make_unsigned T_) - 1) <= x < 2 ^ (bits (make_unsigned T_) - 1)
             else 0 <= x < 2 ^ bits (make_unsigned T_)).
Proof.
  intros Hb Hw. split; [| split].
  - apply (obf_var_construct_holds OBFUSCATE_SEED obf_gen_const
             OBFUSCATE_DEBUG_DISABLE_ANTI_DEBUG OBF_COMPILE_TIME_TESTS
             fuel T_ seed cycles Inj t w Hb Hw).
  - intros T2 Inj2 other x Hx. unfold obf_var_convert.
    destruct (Hx w Hw) as (w1 & -> & Hw1).
    destruct (obf_var_construct_holds OBFUSCATE_SEED obf_gen_const
                OBFUSCATE_DEBUG_DISABLE_ANTI_DEBUG OBF_COMPILE_TIME_TESTS
                fuel T_ seed cycles Inj (to_T_ T_ x) w1 Hb Hw1)
      as (this' & w' & Hc & Hw' & Hh).
    exists this', w'. unfold obf_var_construct in Hc.
    split; [exact Hc |]. split; [exact Hw' |]. now rewrite to_T__idem in Hh.
  - intros x Hx.
    rewrite <- (obf_var_holds_representable OBFUSCATE_SEED obf_gen_const
                  OBFUSCATE_DEBUG_DISABLE_ANTI_DEBUG OBF_COMPILE_TIME_TESTS
                  T_ Inj this x w Hw Hx).
    apply to_T__range.
Qed.

Lemma arith_T__value (T_ : IntType) (z r : Z) :
  arith_T_ T_ z = Some r -> to_T_ T_ r = to_T_ T_ z.
Proof.
  unfold arith_T_. cbv zeta. intros H.
  destruct (bits (make_unsigned T_) <? 32).
  - destruct (_ && _) in H; [| discriminate]. now apply Some_inj in H as <-.
  - destruct (is_signed T_).
    + destruct (_ && _) in H; [| discriminate]. now apply Some_inj in H as <-.
    + apply Some_inj in H as <-. apply to_T__to.
Qed.

(** [*this = value() op t]: the variable afterwards holds the result, and so
    does the pass-through variable. *)
Lemma obf_var_update_holds
    (fuel : nat) (T_ : IntType) (seed cycles : Z) (Inj : Injection)
    (this : Rep) (w : World) (x : Z) (f : Z -> Z) :
  var_tree fuel T_ seed cycles = Some Inj ->
  ok w ->
  holds T_ Inj this x ->
  arith_T_ T_ (f x) <> None ->
  (exists this' w',
      update T_ Inj f this w = Some (this', w') /\ ok w' /\
      holds T_ Inj this' (to_T_ T_ (f x))) /\
  obf_var_dbg_update T_ f x = Some (to_T_ T_ (f x)).
Proof.
  intros Hb Hw Hh Hr.
  destruct (arith_T_ T_ (f x)) as [r |] eqn:Er; [clear Hr | congruence].
  pose proof (arith_T__value T_ (f x) r Er) as Hv. split.
  - unfold obf_var_update. destruct (Hh w Hw) as (w1 & -> & Hw1).
    rewrite Er. cbn [bind].
    destruct (obf_var_construct_holds OBFUSCATE_SEED obf_gen_const
                OBFUSCATE_DEBUG_DISABLE_ANTI_DEBUG OBF_COMPILE_TIME_TESTS
                fuel T_ seed cycles Inj (to_T_ T_ r) w1 Hb Hw1)
      as (this' & w' & Hc & Hw' & Hh').
    exists this', w'. unfold obf_var_construct in Hc. unfold obf_var_assign.
    rewrite Hc. split; [reflexivity |]. split; [exact Hw' |].
    now rewrite to_T__idem, Hv in Hh'.
  - unfold obf_var_dbg_update, obf_var_dbg_value, obf_var_dbg_assign.
    rewrite Er. cbn [bind]. now rewrite Hv.
Qed.

(** X19: the operators [++v], [--v], [v += t], [v -= t] and [v *= t] compute
    on the decoded value: when the operator runs in a world in which no debugger
    is detected and the result of the operation is defined for the type, the
    variable afterwards holds that result converted to [T_], which is exactly
    what the pass-through variable [obf_var_dbg] holds after the same operator.
    In particular [--v] leaves [v - 1]. *)
Theorem obf_var_operators_as_plain
    (fuel : nat) (T_ : IntType) (seed cycles : Z) (Inj : Injection)
    (this : Rep) (w : World) (x t : Z) :
  var_tree fuel T_ seed cycles = Some Inj ->
  ok w ->
  holds T_ Inj this x ->
  (arith_T_ T_ (x + 1) <> None ->
   (exists this' w',
       obf_var_pre_increment OBFUSCATE_SEED obf_gen_const
         OBFUSCATE_DEBUG_DISABLE_ANTI_DEBUG OBF_COMPILE_TIME_TESTS T_ Inj this w
       = Some (this', w') /\ ok w' /\ holds T_ Inj this' (to_T_ T_ (x + 1))) /\
   obf_var_dbg_update T_ (fun v => v + 1) x = Some (to_T_ T_ (x + 1))) /\
  (arith_T_ T_ (x - 1) <> None ->
   (exists this' w',
       obf_var_pre_decrement OBFUSCATE_SEED obf_gen_const
         OBFUSCATE_DEBUG_DISABLE_ANTI_DEBUG OBF_COMPILE_TIME_TESTS T_ Inj this w
       = Some (this', w') /\ ok w' /\ holds T_ Inj this' (to_T_ T_ (x - 1))) /\
   obf_var_dbg_update T_ (fun v => v - 1) x = Some (to_T_ T_ (x - 1))) /\
  (arith_T_ T_ (x + t) <> None ->
   (exists this' w',
       obf_var_add_assign OBFUSCATE_SEED obf_gen_const
         OBFUSCATE_DEBUG_DISABLE_ANTI_DEBUG OBF_COMPILE_TIME_TESTS T_ Inj t this w
       = Some (this', w') /\ ok w' /\ holds T_ Inj this' (to_T_ T_ (x + t))) /\
   obf_var_dbg_update T_ (fun v => v + t) x = Some (to_T_ T_ (x + t))) /\
  (arith_T_ T_ (x - t) <> None ->
   (exists this' w',
       obf_var_sub_assign OBFUSCATE_SEED obf_gen_const
         OBFUSCATE_DEBUG_DISABLE_ANTI_DEBUG OBF_COMPILE_TIME_TESTS T_ Inj t this w
       = Some (this', w') /\ ok w' /\ holds T_ Inj this' (to_T_ T_ (x - t))) /\
   obf_var_dbg_update T_ (fun v => v - t) x = Some (to_T_ T_ (x - t))) /\
  (arith_T_ T_ (x * t) <> None ->
   (exists this' w',
       obf_var_mul_assign OBFUSCATE_SEED obf_gen_const
         OBFUSCATE_DEBUG_DISABLE_ANTI_DEBUG OBF_COMPILE_TIME_TESTS T_ Inj t this w
       = Some (this', w') /\ ok w' /\ holds T_ Inj this' (to_T_ T_ (x * t))) /\
   obf_var_dbg_update T_ (fun v => v * t) x = Some (to_T_ T_ (x * t))).
Proof.
  intros Hb Hw Hh.
  split; [| split; [| split; [| split]]]; intros Hr;
    first
      [ apply (obf_var_update_holds fuel T_ seed cycles Inj this w x (fun v => v + 1)
                 Hb Hw Hh Hr)
      | apply (obf_var_update_holds fuel T_ seed cycles Inj this w x (fun v => v - 1)
                 Hb Hw Hh Hr)
      | apply (obf_var_update_holds fuel T_ seed cycles Inj this w x (fun v => v + t)
                 Hb Hw Hh Hr)
      | apply (obf_var_update_holds fuel T_ seed cycles Inj this w x (fun v => v - t)
                 Hb Hw Hh Hr)
      | apply (obf_var_update_holds fuel T_ seed cycles Inj this w x (fun v => v * t)
                 Hb Hw Hh Hr) ].
Qed.

End Values.

Lemma obf_literal_value_is_constant_witness :
  let w0 := initial_world 0x0c7dfa61a867b125 (fun _ s => s) 100 0 in
  obf_literal_Injection 0x0c7dfa61a867b125 (fun _ s => s) 100 5 uint32 1 10
  = Some example_literal_tree /\
  world_ok 0x0c7dfa61a867b125 (fun _ s => s) false 100 w0 /\
  exists val w1,
    obf_literal_construct 0x0c7dfa61a867b125 (fun _ s => s) false 100 uint32
      example_literal_tree 5 w0 = (val, w1) /\
    world_ok 0x0c7dfa61a867b125 (fun _ s => s) false 100 w1 /\
    forall w', world_ok 0x0c7dfa61a867b125 (fun _ s => s) false 100 w' ->
      exists w2,
        obf_literal_value 0x0c7dfa61a867b125 (fun _ s => s) false 100 uint32
          example_literal_tree val w' = (to (make_unsigned uint32) 5, w2) /\
        world_ok 0x0c7dfa61a867b125 (fun _ s => s) false 100 w2.
Proof.
  intros w0.
  assert (Hb : obf_literal_Injection 0x0c7dfa61a867b125 (fun _ s => s) 100 5 uint32 1 10
               = Some example_literal_tree) by (vm_compute; reflexivity).
  assert (Hw : world_ok 0x0c7dfa61a867b125 (fun _ s => s) false 100 w0)
    by (apply initial_world_ok; right; reflexivity).
  split; [exact Hb |]. split; [exact Hw |].
  exact (obf_literal_value_is_constant 0x0c7dfa61a867b125 (fun _ s => s) false 100
           5 uint32 1 10 example_literal_tree 5 w0 Hb Hw).
Defined.

Lemma obf_var_assign_then_value_witness :
  let w0 := initial_world 0x0c7dfa61a867b125 (fun _ s => s) 100 0 in
  obf_var_Injection 0x0c7dfa61a867b125 (fun _ s => s) 100 60 uint32 1 30
  = Some example_var_tree /\
  world_ok 0x0c7dfa61a867b125 (fun _ s => s) false 100 w0 /\
  (exists this' w',
      obf_var_assign 0x0c7dfa61a867b125 (fun _ s => s) false 100 uint32 example_var_tree
        (scalar 0) (-1) w0 = (this', w') /\
      world_ok 0x0c7dfa61a867b125 (fun _ s => s) false 100 w' /\
      obf_var_holds 0x0c7dfa61a867b125 (fun _ s => s) false 100 uint32 example_var_tree
        this' (to_T_ uint32 (-1))) /\
  (forall T2 Inj2 other x,
      obf_var_holds 0x0c7dfa61a867b125 (fun _ s => s) false 100 T2 Inj2 other x ->
      exists this' w',
        obf_var_convert 0x0c7dfa61a867b125 (fun _ s => s) false 100 uint32
          example_var_tree T2 Inj2 other w0 = (this', w') /\
        world_ok 0x0c7dfa61a867b125 (fun _ s => s) false 100 w' /\
        obf_var_holds 0x0c7dfa61a867b125 (fun _ s => s) false 100 uint32 example_var_tree
          this' (to_T_ uint32 x)) /\
  (forall x,
      obf_var_holds 0x0c7dfa61a867b125 (fun _ s => s) false 100 uint32 example_var_tree
        (scalar 0) x ->
      if is_signed uint32
      then - 2 ^ (bits (make_unsigned uint32) - 1) <= x < 2 ^ (bits (make_unsigned uint32) - 1)
      else 0 <= x < 2 ^ bits (make_unsigned uint32)).
Proof.
  intros w0.
  assert (Hb : obf_var_Injection 0x0c7dfa61a867b125 (fun _ s => s) 100 60 uint32 1 30
               = Some example_var_tree) by (vm_compute; reflexivity).
  assert (Hw : world_ok 0x0c7dfa61a867b125 (fun _ s => s) false 100 w0)
    by (apply initial_world_ok; right; reflexivity).
  split; [exact Hb |]. split; [exact Hw |].
  exact (obf_var_assign_then_value 0x0c7dfa61a867b125 (fun _ s => s) false 100
           60 uint32 1 30 example_var_tree (scalar 0) (-1) w0 Hb Hw).
Defined.

Lemma obf_var_operators_as_plain_witness :
  let w0 := initial_world 0x0c7dfa61a867b125 (fun _ s => s) 100 0 in
  let this :=
    fst (obf_var_construct 0x0c7dfa61a867b125 (fun _ s => s) false 100 uint32
           example_var_tree 0 w0) in
  obf_var_Injection 0x0c7dfa61a867b125 (fun _ s => s) 100 60 uint32 1 30
  = Some example_var_tree /\
  world_ok 0x0c7dfa61a867b125 (fun _ s => s) false 100 w0 /\
  obf_var_holds 0x0c7dfa61a867b125 (fun _ s => s) false 100 uint32 example_var_tree this 0 /\
  arith_T_ uint32 (0 - 1) <> None /\
  (exists this' w',
      obf_var_pre_decrement 0x0c7dfa61a867b125 (fun _ s => s) false 100 uint32
        example_var_tree this w0 = Some (this', w') /\
      world_ok 0x0c7dfa61a867b125 (fun _ s => s) false 100 w' /\
      obf_var_holds 0x0c7dfa61a867b125 (fun _ s => s) false 100 uint32 example_var_tree
        this' (to_T_ uint32 (0 - 1))) /\
  obf_var_dbg_update uint32 (fun v => v - 1) 0 = Some (to_T_ uint32 (0 - 1)) /\
  to_T_ uint32 (0 - 1) = 4294967295.
Proof.
  intros w0 this.
  assert (Hb : obf_var_Injection 0x0c7dfa61a867b125 (fun _ s => s) 100 60 uint32 1 30
               = Some example_var_tree) by (vm_compute; reflexivity).
  assert (Hw : world_ok 0x0c7dfa61a867b125 (fun _ s => s) false 100 w0)
    by (apply initial_world_ok; right; reflexivity).
  assert (Hh : obf_var_holds 0x0c7dfa61a867b125 (fun _ s => s) false 100 uint32
                 example_var_tree this 0).
  { destruct (obf_var_construct_holds 0x0c7dfa61a867b125 (fun _ s => s) false 100
                60 uint32 1 30 example_var_tree 0 w0 Hb Hw) as (r & w1 & He & _ & Hr).
    subst this. rewrite He. exact Hr. }
  assert (Hr : arith_T_ uint32 (0 - 1) <> None) by (vm_compute; discriminate).
  split; [exact Hb |]. split; [exact Hw |]. split; [exact Hh |]. split; [exact Hr |].
  destruct (obf_var_operators_as_plain 0x0c7dfa61a867b125 (fun _ s => s) false 100
              60 uint32 1 30 example_var_tree this w0 0 0 Hb Hw Hh)
    as (_ & Hdec & _).
  destruct (Hdec Hr) as [H1 H2].
  split; [exact H1 |]. split; [exact H2 | reflexivity].
Defined.

(** ** What decoding leaves alone, and the size of the encoding *)

Section Frames.

Variable OBFUSCATE_SEED : Z.
Variable obf_gen_const : UInt -> Z -> Z.
Variable OBFUSCATE_DEBUG_DISABLE_ANTI_DEBUG : bool.
Variable OBF_COMPILE_TIME_TESTS : nat.

Local Abbreviation build :=
  (obf_injection OBFUSCATE_SEED obf_gen_const OBF_COMPILE_TIME_TESTS).
Local Abbreviation encode :=
  (injection OBFUSCATE_SEED obf_gen_const OBFUSCATE_DEBUG_DISABLE_ANTI_DEBUG
     OBF_COMPILE_TIME_TESTS).
Local Abbreviation decode :=
  (surjection OBFUSCATE_SEED obf_gen_const OBFUSCATE_DEBUG_DISABLE_ANTI_DEBUG
     OBF_COMPILE_TIME_TESTS).

Lemma final_surjection_frame (T : UInt) (ctx : Context) (y : Z) (w : World) :
  obf_peb_2 (snd (final_surjection OBFUSCATE_SEED obf_gen_const
                    OBFUSCATE_DEBUG_DISABLE_ANTI_DEBUG OBF_COMPILE_TIME_TESTS T ctx y w))
  = obf_peb_2 w /\
  c_version1 (snd (final_surjection OBFUSCATE_SEED obf_gen_const
                     OBFUSCATE_DEBUG_DISABLE_ANTI_DEBUG OBF_COMPILE_TIME_TESTS T ctx y w))
  = c_version1 w.
Proof.
  unfold final_surjection.
  destruct ctx as [| seed cycles | seed cycles]; try (split; reflexivity).
  destruct (WhichType _ _ _ T seed cycles) as [v |]; [| split; reflexivity].
  destruct v; cbn [version_final_surjection]; try (split; reflexivity).
  destruct OBFUSCATE_DEBUG_DISABLE_ANTI_DEBUG; split; reflexivity.
Qed.

Lemma surjection_frame (t : Injection) :
  forall T y w,
    obf_peb_2 (snd (decode T t y w)) = obf_peb_2 w /\
    c_version1 (snd (decode T t y w)) = c_version1 w.
Proof.
  induction t as [ctx | C r IHr | sf cf r IHr | lo IHlo hi IHhi r IHr
                  | C CINV lit IHlit r IHr | lo IHlo hi IHhi];
    intros T y w; cbn [surjection].
  - apply final_surjection_frame.
  - specialize (IHr T y w). destruct (decode T r y w) as [v w1]. exact IHr.
  - destruct (obf_half_size_int T) as [halfT |]; [| split; reflexivity].
    specialize (IHr T y w). destruct (decode T r y w) as [v w1]. exact IHr.
  - destruct (obf_half_size_int T) as [halfT |]; [| split; reflexivity].
    specialize (IHr T y w). destruct (decode T r y w) as [v w1]. cbn [snd] in IHr.
    match goal with
    | |- context [decode halfT hi ?a w1] =>
        specialize (IHhi halfT a w1); destruct (decode halfT hi a w1) as [h w2]
    end.
    cbn [snd] in IHhi.
    match goal with
    | |- context [decode halfT lo ?a w2] =>
        specialize (IHlo halfT a w2); destruct (decode halfT lo a w2) as [l w3]
    end.
    cbn [snd] in IHlo |- *.
    destruct IHr as [A1 A2], IHhi as [B1 B2], IHlo as [C1 C2].
    split; congruence.
  - specialize (IHr T y w). destruct (decode T r y w) as [v w1]. exact IHr.
  - destruct (obf_half_size_int T) as [halfT |]; [| split; reflexivity].
    destruct y as [v | y_lo y_hi]; [split; reflexivity |].
    specialize (IHhi halfT y_hi w). destruct (decode halfT hi y_hi w) as [h w1].
    cbn [snd] in IHhi.
    specialize (IHlo halfT y_lo w1). destruct (decode halfT lo y_lo w1) as [l w2].
    cbn [snd] in IHlo |- *.
    destruct IHhi as [B1 B2], IHlo as [C1 C2]. split; congruence.
Qed.

Lemma injection_frame (t : Injection) :
  forall T x w,
    obf_peb_2 (snd (encode T t x w)) = obf_peb_2 w /\
    c_version1 (snd (encode T t x w)) = c_version1 w.
Proof.
  induction t as [ctx | C r IHr | sf cf r IHr | lo IHlo hi IHhi r IHr
                  | C CINV lit IHlit r IHr | lo IHlo hi IHhi];
    intros T x w; cbn [injection].
  - split; reflexivity.
  - apply IHr.
  - destruct (obf_half_size_int T) as [halfT |]; [| split; reflexivity]. apply IHr.
  - destruct (obf_half_size_int T) as [halfT |]; [| split; reflexivity].
    match goal with
    | |- context [encode halfT lo ?a w] =>
        specialize (IHlo halfT a w); destruct (encode halfT lo a w) as [l w1]
    end.
    cbn [snd] in IHlo.
    match goal with
    | |- context [encode halfT hi ?a w1] =>
        specialize (IHhi halfT a w1); destruct (encode halfT hi a w1) as [h w2]
    end.
    cbn [snd] in IHhi.
    match goal with
    | |- context [encode T r ?a w2] => specialize (IHr T a w2)
    end.
    destruct IHr as [A1 A2], IHhi as [B1 B2], IHlo as [C1 C2].
    split; congruence.
  - specialize (IHlit T CINV w). destruct (encode T lit CINV w) as [val w1].
    cbn [snd] in IHlit.
    pose proof (surjection_frame lit T val w1) as Hs.
    destruct (decode T lit val w1) as [value w2]. cbn [snd] in Hs.
    match goal with
    | |- context [encode T r ?a w2] => specialize (IHr T a w2)
    end.
    destruct IHr as [A1 A2], IHlit as [B1 B2], Hs as [C1 C2].
    split; congruence.
  - destruct (obf_half_size_int T) as [halfT |]; [| split; reflexivity].
    match goal with
    | |- context [encode halfT lo ?a w] =>
        specialize (IHlo halfT a w); destruct (encode halfT lo a w) as [l w1]
    end.
    cbn [snd] in IHlo.
    match goal with
    | |- context [encode halfT hi ?a w1] =>
        specialize (IHhi halfT a w1); destruct (encode halfT hi a w1) as [h w2]
    end.
    cbn [snd] in IHhi |- *.
    destruct IHhi as [B1 B2], IHlo as [C1 C2]. split; congruence.
Qed.

(** X20: encoding and decoding never write the debugger byte nor the static
    [c] of a global-volatile (version 1) leaf context: for every strategy tree,
    type and input, both are the same after [injection] and after [surjection]
    as before; the only state a run changes is a rolling counter. *)
Theorem injection_surjection_frame (t : Injection) (T : UInt) (x : Z) (y : Rep) (w : World) :
  (obf_peb_2 (snd (encode T t x w)) = obf_peb_2 w /\
   c_version1 (snd (encode T t x w)) = c_version1 w) /\
  (obf_peb_2 (snd (decode T t y w)) = obf_peb_2 w /\
   c_version1 (snd (decode T t y w)) = c_version1 w).
Proof. split; [apply injection_frame | apply surjection_frame]. Qed.

Lemma obf_injection_sizeof (fuel : nat) :
  forall T ctx seed cycles exclude_version t,
    build fuel T ctx seed cycles exclude_version = Some t ->
    sizeof_return_type T t = sizeof T.
Proof.
  induction fuel as [| fuel IH]; intros T ctx seed cycles exclude_version t H;
    [discriminate |].
  cbn [obf_injection] in H. bind_inv H.
  do 6 (try destruct n as [| n]); bind_inv H; try discriminate H;
    apply Some_inj in H; subst t; cbn [sizeof_return_type]; eauto.
  rewrite E2.
  repeat match goal with
         | Hb : build fuel _ _ _ _ _ = Some _ |- _ => apply IH in Hb
         end.
  destruct T; try discriminate; apply Some_inj in E2; subst; cbn in *; lia.
Qed.

(** X21: the encoded representation is as large as the value: for every tree
    the builder returns, [sizeof(return_type)] equals [sizeof(T)], also when
    the tree splits a value into the two lanes of version 5. *)
Theorem obf_injection_return_type_size
    (fuel : nat) (T : UInt) (ctx : Context) (seed cycles exclude_version : Z)
    (t : Injection) :
  build fuel T ctx seed cycles exclude_version = Some t ->
  sizeof_return_type T t = sizeof T.
Proof. apply obf_injection_sizeof. Qed.

End Frames.

Lemma obf_injection_return_type_size_witness :
  obf_injection 0x0c7dfa61a867b125 (fun _ s => s) 100 60 uint32_t (obf_var_Context 1 30)
    (obf_compile_time_prng 1 2) 30 size_t_minus1 = Some example_var_tree /\
  sizeof_return_type uint32_t example_var_tree = sizeof uint32_t.
Proof.
  assert (Hb : obf_injection 0x0c7dfa61a867b125 (fun _ s => s) 100 60 uint32_t
                 (obf_var_Context 1 30) (obf_compile_time_prng 1 2) 30 size_t_minus1
               = Some example_var_tree) by (vm_compute; reflexivity).
  split; [exact Hb |].
  exact (obf_injection_return_type_size 0x0c7dfa61a867b125 (fun _ s => s) 100 60
           uint32_t (obf_var_Context 1 30) (obf_compile_time_prng 1 2) 30 size_t_minus1
           example_var_tree Hb).
Defined.

(** ** Every variable compiles *)

Lemma obf_injection_descr_selected (T : UInt) (ctx : Context) (cc : Z)
    (which : nat) (d : ObfDescriptor) :
  nth_error (obf_injection_descr T ctx cc) which = Some d ->
  0 < weight d ->
  match which with
  | 0%nat => min_cycles d = own_min_cycles ctx cc 0 0
  | 1%nat => min_cycles d = own_min_cycles ctx cc 1 1
  | 2%nat | 3%nat =>
      min_cycles d = own_min_cycles ctx cc 7 7 /\ exists halfT, obf_half_size_int T = Some halfT
  | 4%nat => min_cycles d = own_min_cycles ctx cc (3 + literal_cycles ctx) 3
  | 5%nat =>
      min_cycles d = own_min_cycles ctx cc 3 3 /\ exists halfT, obf_half_size_int T = Some halfT
  | _ => False
  end.
Proof.
  intros Hd Hw.
  destruct which as [| [| [| [| [| [| which]]]]]]; cbn in Hd;
    [| | | | | | destruct which; discriminate];
    apply Some_inj in Hd; subst d; try reflexivity;
    unfold obf_injection_version2_descr, obf_injection_version3_descr,
      obf_injection_version5_descr, wide_only in *;
    (destruct T; cbn in Hw |- *; [lia | split; [reflexivity | eexists; reflexivity] ..]).
Qed.

Lemma calc_cycles_bounds (ctx : Context) (inj surj : Z) :
  0 <= inj -> surj <= calc_cycles ctx inj surj.
Proof. intros H. destruct ctx; cbn; lia. Qed.

Lemma literal_cycles_nonneg (ctx : Context) : 0 <= literal_cycles ctx.
Proof. destruct ctx; cbn; lia. Qed.

Section Totality.

Variable OBFUSCATE_SEED : Z.
Variable obf_gen_const : UInt -> Z -> Z.
Variable OBF_COMPILE_TIME_TESTS : nat.

Local Abbreviation build :=
  (obf_injection OBFUSCATE_SEED obf_gen_const OBF_COMPILE_TIME_TESTS).
Local Abbreviation cycles_of :=
  (context_cycles OBFUSCATE_SEED obf_gen_const OBF_COMPILE_TIME_TESTS).

Lemma ObfLiteralContext_CC_some (T : UInt) (seed : Z) :
  exists CC, ObfLiteralContext_CC OBFUSCATE_SEED T seed = Some CC.
Proof.
  unfold ObfLiteralContext_CC.
  destruct (OBF_CONSTS_spec OBFUSCATE_SEED) as (a & b & c & Hconsts & _).
  rewrite Hconsts. cbn [bind].
  destruct (obf_random_const_some (obf_compile_time_prng seed 1) [a; b; c])
    as (C0 & HC0 & _); [discriminate |].
  rewrite HC0. cbn [bind]. eexists. reflexivity.
Qed.

(** Below 100 cycles a literal context is one of the versions 0 to 3, which
    always exist. *)
Lemma WhichType_small (T : UInt) (seed cycles : Z) :
  0 <= cycles < 100 ->
  exists v,
    WhichType OBFUSCATE_SEED obf_gen_const OBF_COMPILE_TIME_TESTS T seed cycles = Some v /\
    0 <= version_context_cycles v <= cycles.
Proof.
  intros Hc. unfold WhichType, ObfLiteralContext_which.
  destruct ObfLiteralContext_descr_weights as [Hnn Hlt].
  destruct (obf_random_obf_from_list_some (obf_compile_time_prng seed 1) cycles
              ObfLiteralContext_descr size_t_minus1
              0 obf_literal_context_version0_descr Hnn Hlt eq_refl)
    as [which H]; [rewrite size_t_minus1_eq; cbn; lia | cbn; lia | cbn; lia |].
  rewrite H. cbn [bind].
  destruct (obf_random_obf_from_list_selected _ _ _ _ _ H) as (d & Hd & _ & Hmin & _).
  destruct which as [| [| [| [| [| which]]]]]; cbn in Hd;
    [| | | | | destruct which; discriminate];
    apply Some_inj in Hd; subst d; cbn in Hmin; cbn [ObfLiteralContext_version].
  - eexists. split; [reflexivity |]. cbn. lia.
  - destruct (ObfLiteralContext_CC_some T seed) as [CC ->]. cbn [bind].
    eexists. split; [reflexivity |]. cbn. lia.
  - eexists. split; [reflexivity |]. cbn. lia.
  - destruct (ObfLiteralContext_CC_some T seed) as [CC ->]. cbn [bind].
    eexists. split; [reflexivity |]. cbn. lia.
  - lia.
Qed.

Lemma context_cycles_some (T : UInt) (ctx : Context) (cycles : Z) :
  no_rolling_counter ctx cycles ->
  exists cc,
    cycles_of T ctx = Some cc /\ 0 <= cc /\
    match ctx with ObfLiteralContext _ c => cc <= c | _ => cc = 0 end.
Proof.
  intros H. destruct ctx as [| s c | s c]; cbn [context_cycles].
  - exists 0. repeat split; lia.
  - destruct H as [Hc _]. destruct (WhichType_small T s c Hc) as (v & -> & Hv).
    cbn [bind]. eexists. split; [reflexivity |]. lia.
  - exists 0. repeat split; lia.
Qed.


Lemma no_rolling_counter_le (ctx : Context) (cycles cycles' : Z) :
  no_rolling_counter ctx cycles -> cycles' <= cycles -> no_rolling_counter ctx cycles'.
Proof. destruct ctx; cbn; lia. Qed.

Lemma side_context_some (T : UInt) (ctx : Context) (cycles s c : Z) :
  no_rolling_counter ctx cycles -> 0 <= c <= cycles ->
  (exists cc, cycles_of T (side_context_type ctx s c) = Some cc /\ 0 <= cc <= c) /\
  (exists cc, cycles_of T (recursive_context_type ctx s c) = Some cc /\ 0 <= cc <= c) /\
  (forall k, k <= cycles ->
             no_rolling_counter (side_context_type ctx s c) k /\
             no_rolling_counter (recursive_context_type ctx s c) k).
Proof.
  intros H Hc.
  assert (Hk : forall k, k <= cycles ->
                         no_rolling_counter (side_context_type ctx s c) k /\
                         no_rolling_counter (recursive_context_type ctx s c) k).
  { intros k Hk. destruct ctx; cbn in *; repeat split; lia. }
  split; [| split; [| exact Hk]].
  - destruct (context_cycles_some T (side_context_type ctx s c) cycles)
      as (cc & E & H0 & Hm); [apply Hk; lia |].
    exists cc. split; [exact E |]. destruct ctx; cbn in Hm; lia.
  - destruct (context_cycles_some T (recursive_context_type ctx s c) cycles)
      as (cc & E & H0 & Hm); [apply Hk; lia |].
    exists cc. split; [exact E |]. destruct ctx; cbn in Hm; lia.
Qed.

Lemma literal_context_some (T : UInt) (ctx : Context) :
  no_rolling_counter (literal_context ctx) (literal_cycles ctx) /\
  exists cc,
    cycles_of T (literal_context ctx) = Some cc /\ 0 <= cc <= literal_cycles ctx.
Proof.
  assert (H : no_rolling_counter (literal_context ctx) (literal_cycles ctx))
    by (destruct ctx; cbn; lia).
  split; [exact H |].
  destruct (context_cycles_some T (literal_context ctx) (literal_cycles ctx) H)
    as (cc & E & H0 & Hm).
  exists cc. split; [exact E |]. destruct ctx; cbn in Hm |- *; lia.
Qed.

(** The builder succeeds with enough fuel whenever no rolling-counter context
    can be reached. *)
Lemma obf_injection_total (fuel : nat) :
  forall T ctx seed cycles excl cc,
    no_rolling_counter ctx cycles ->
    cycles_of T ctx = Some cc -> 0 <= cc <= cycles ->
    cycles - cc < Z.of_nat fuel -> cycles < 2 ^ 31 -> excl <> 0 ->
    exists t, build fuel T ctx seed cycles excl = Some t.
Proof.
  induction fuel as [| fuel IH];
    intros T ctx seed cycles excl cc Hctx Hcc Hrange Hfuel Hmax Hex; [lia |].
  cbn [obf_injection]. rewrite Hcc. cbn [bind].
  destruct (obf_injection_descr_weights T ctx cc) as [Hnn Hlt].
  assert (Hid : own_min_cycles ctx cc 0 0 = cc)
    by (unfold own_min_cycles; destruct ctx; cbn; lia).
  destruct (obf_random_obf_from_list_some (obf_compile_time_prng seed 1) cycles
              (obf_injection_descr T ctx cc) excl 0
              (obf_injection_version0_descr ctx cc) Hnn ltac:(lia) eq_refl)
    as [which H]; [cbn; lia | cbn [obf_injection_version0_descr min_cycles]; lia
                   | cbn; lia |].
  rewrite H. cbn [bind].
  destruct (obf_random_obf_from_list_selected _ _ _ _ _ H) as (d & Hd & Hw & Hmin & _).
  pose proof (obf_injection_descr_selected T ctx cc which d Hd Hw) as Hsel.
  pose proof (literal_cycles_nonneg ctx) as Hlit.
  assert (Hown : forall a b, own_min_cycles ctx cc a b = cc + calc_cycles ctx a b)
    by reflexivity.
  destruct which as [| [| [| [| [| [| which]]]]]]; [| | | | | | contradiction].
  - (* version 0 *)
    cbv zeta. rewrite <- Hsel.
    destruct (Z.leb_spec 0 (cycles - min_cycles d)); [| lia].
    eexists. reflexivity.
  - (* version 1 *)
    cbv zeta. rewrite <- Hsel.
    destruct (Z.leb_spec 0 (cycles - min_cycles d)); [| lia].
    rewrite Hown in Hsel. pose proof (calc_cycles_bounds ctx 1 1 ltac:(lia)) as Hcalc.
    destruct (IH T ctx (obf_compile_time_prng seed 1) (cycles - min_cycles d + cc) 1 cc)
      as [r Hr]; try assumption; try lia.
    { eapply no_rolling_counter_le; [exact Hctx | lia]. }
    rewrite Hr. cbn [bind].
    destruct (OBF_CONSTS_spec OBFUSCATE_SEED) as (a & b & c & Hconsts & _).
    rewrite Hconsts. cbn [bind].
    destruct (obf_random_const_some (obf_compile_time_prng seed 2) [1; a; b; c])
      as (C0 & HC0 & _); [discriminate |].
    rewrite HC0. cbn [bind]. eexists. reflexivity.
  - (* version 2 *)
    destruct Hsel as [Hsel [halfT Hhalf]].
    cbv zeta. rewrite <- Hsel.
    destruct (Z.leb_spec 0 (cycles - min_cycles d)); [| lia].
    rewrite Hown in Hsel. pose proof (calc_cycles_bounds ctx 7 7 ltac:(lia)) as Hcalc.
    destruct (split_two_some (obf_compile_time_prng seed 1) (cycles - min_cycles d))
      as (cf & cr & Hs & Hcf & Hcr & Hsum); [lia |].
    rewrite Hs. cbn [bind]. cbv beta iota.
    destruct (IH T ctx (obf_compile_time_prng seed 2) (cr + cc) size_t_minus1 cc)
      as [r Hr]; try assumption; try lia.
    { eapply no_rolling_counter_le; [exact Hctx | lia]. }
    { rewrite size_t_minus1_eq. lia. }
    rewrite Hr. cbn [bind]. rewrite Hhalf. cbn [bind]. eexists. reflexivity.
  - (* version 3 *)
    destruct Hsel as [Hsel [halfT Hhalf]].
    cbv zeta. rewrite <- Hsel.
    destruct (Z.leb_spec 0 (cycles - min_cycles d)); [| lia].
    rewrite Hown in Hsel. pose proof (calc_cycles_bounds ctx 7 7 ltac:(lia)) as Hcalc.
    rewrite Hhalf. cbn [bind].
    destruct (split_three_some (obf_compile_time_prng seed 1) (cycles - min_cycles d))
      as (cr & clo & chi & Hs & Hcr & Hclo & Hchi & Hsum); [lia |].
    rewrite Hs. cbn [bind]. cbv beta iota.
    destruct (Z.leb_spec (cr + clo + chi) (cycles - min_cycles d)); [| lia].
    destruct (IH T ctx (obf_compile_time_prng seed 2) (cr + cc) size_t_minus1 cc)
      as [r Hr]; try assumption; try lia.
    { eapply no_rolling_counter_le; [exact Hctx | lia]. }
    { rewrite size_t_minus1_eq. lia. }
    rewrite Hr. cbn [bind].
    destruct (split_two_some (obf_compile_time_prng seed 2) clo)
      as (loCtx & loInj & Hslo & HloCtx & HloInj & Hlosum); [lia |].
    rewrite Hslo. cbn [bind]. cbv beta iota.
    destruct (side_context_some halfT ctx cycles (obf_compile_time_prng seed 3) loCtx Hctx
                ltac:(lia)) as ((lo_cc & Elo & Hlo) & _ & Hklo).
    rewrite Elo. cbn [bind].
    destruct (IH halfT (side_context_type ctx (obf_compile_time_prng seed 3) loCtx)
                (obf_compile_time_prng seed 4) (loInj + lo_cc) size_t_minus1 lo_cc)
      as [lo HLo]; try assumption; try lia.
    { apply Hklo. lia. }
    { rewrite size_t_minus1_eq. lia. }
    rewrite HLo. cbn [bind].
    rewrite (obf_injection_sizeof _ _ _ _ _ _ _ _ _ _ HLo), Z.eqb_refl.
    destruct (split_two_some (obf_compile_time_prng seed 5) chi)
      as (hiCtx & hiInj & Hshi & HhiCtx & HhiInj & Hhisum); [lia |].
    rewrite Hshi. cbn [bind]. cbv beta iota.
    destruct (side_context_some halfT ctx cycles (obf_compile_time_prng seed 6) hiCtx Hctx
                ltac:(lia)) as ((hi_cc & Ehi & Hhi) & _ & Hkhi).
    rewrite Ehi. cbn [bind].
    destruct (IH halfT (side_context_type ctx (obf_compile_time_prng seed 6) hiCtx)
                (obf_compile_time_prng seed 7) (hiInj + hi_cc) size_t_minus1 hi_cc)
      as [hi HHi]; try assumption; try lia.
    { apply Hkhi. lia. }
    { rewrite size_t_minus1_eq. lia. }
    rewrite HHi. cbn [bind].
    rewrite (obf_injection_sizeof _ _ _ _ _ _ _ _ _ _ HHi), Z.eqb_refl.
    eexists. reflexivity.
  - (* version 4 *)
    cbv zeta. rewrite <- Hsel.
    destruct (Z.leb_spec 0 (cycles - min_cycles d)); [| lia].
    rewrite Hown in Hsel.
    pose proof (calc_cycles_bounds ctx (3 + literal_cycles ctx) 3 ltac:(lia)) as Hcalc.
    assert (Hlitlt : literal_cycles ctx < calc_cycles ctx (3 + literal_cycles ctx) 3)
      by (destruct ctx; cbn; lia).
    destruct (IH T ctx (obf_compile_time_prng seed 1) (cycles - min_cycles d + cc) 4 cc)
      as [r Hr]; try assumption; try lia.
    { eapply no_rolling_counter_le; [exact Hctx | lia]. }
    rewrite Hr. cbn [bind].
    destruct (OBF_CONSTS_spec OBFUSCATE_SEED) as (a & b & c & Hconsts & Ha & Hb & Hc & _).
    rewrite Hconsts. cbn [bind].
    destruct (obf_random_const_some (obf_compile_time_prng seed 2) [a; b; c])
      as (C0 & HC0 & HinC); [discriminate |].
    rewrite HC0. cbn [bind].
    assert (HC : In C0 candidates).
    { destruct HinC as [<- | [<- | [<- | []]]]; assumption. }
    apply candidates_odd in HC. destruct HC as [Hodd HCr].
    assert (HtoC : to T C0 = C0).
    { apply to_small. pose proof (pow_half_bits T). lia. }
    rewrite HtoC.
    assert (Hland : Z.land C0 1 = 1).
    { change 1 with (Z.ones 1) at 1. rewrite Z.land_ones by lia.
      change (2 ^ 1) with 2. rewrite Zmod_odd, Hodd. reflexivity. }
    rewrite Hland. cbn [Z.eqb Pos.eqb].
    destruct (obf_mul_inverse_mod2n_total T C0) as (CINV & HCINV & Hinv);
      [pose proof (pow_half_bits T); lia | exact Hodd |].
    rewrite HCINV. cbn [bind]. rewrite Hinv, Z.eqb_refl.
    destruct (literal_context_some T ctx) as (Hnr & lcc & El & Hl).
    destruct (IH T (literal_context ctx)
                (obf_compile_time_prng (obf_compile_time_prng seed 3) 1)
                (literal_cycles ctx) size_t_minus1 lcc)
      as [lit Hlitb]; try assumption; try lia.
    { rewrite size_t_minus1_eq. lia. }
    rewrite Hlitb. cbn [bind]. eexists. reflexivity.
  - (* version 5 *)
    destruct Hsel as [Hsel [halfT Hhalf]].
    cbv zeta. rewrite <- Hsel.
    destruct (Z.leb_spec 0 (cycles - min_cycles d)); [| lia].
    rewrite Hown in Hsel. pose proof (calc_cycles_bounds ctx 3 3 ltac:(lia)) as Hcalc.
    rewrite Hhalf. cbn [bind].
    destruct (split_two_some (obf_compile_time_prng seed 1) (cycles - min_cycles d))
      as (clo & chi & Hs & Hclo & Hchi & Hsum); [lia |].
    rewrite Hs. cbn [bind]. cbv beta iota.
    destruct (split_two_some (obf_compile_time_prng seed 2) clo)
      as (loCtx & loInj & Hslo & HloCtx & HloInj & Hlosum); [lia |].
    rewrite Hslo. cbn [bind]. cbv beta iota.
    destruct (side_context_some halfT ctx cycles (obf_compile_time_prng seed 3) loCtx Hctx
                ltac:(lia)) as (_ & (lo_cc & Elo & Hlo) & Hklo).
    rewrite Elo. cbn [bind].
    destruct (IH halfT (recursive_context_type ctx (obf_compile_time_prng seed 3) loCtx)
                (obf_compile_time_prng seed 4) (loInj + lo_cc) size_t_minus1 lo_cc)
      as [lo HLo]; try assumption; try lia.
    { apply Hklo. lia. }
    { rewrite size_t_minus1_eq. lia. }
    rewrite HLo. cbn [bind].
    destruct (split_two_some (obf_compile_time_prng seed 5) chi)
      as (hiCtx & hiInj & Hshi & HhiCtx & HhiInj & Hhisum); [lia |].
    rewrite Hshi. cbn [bind]. cbv beta iota.
    destruct (side_context_some halfT ctx cycles (obf_compile_time_prng seed 6) hiCtx Hctx
                ltac:(lia)) as (_ & (hi_cc & Ehi & Hhi) & Hkhi).
    rewrite Ehi. cbn [bind].
    destruct (IH halfT (recursive_context_type ctx (obf_compile_time_prng seed 6) hiCtx)
                (obf_compile_time_prng seed 7) (hiInj + hi_cc) size_t_minus1 hi_cc)
      as [hi HHi]; try assumption; try lia.
    { apply Hkhi. lia. }
    { rewrite size_t_minus1_eq. lia. }
    rewrite HHi. cbn [bind]. eexists. reflexivity.
Qed.

(** X22: every [obf_var<T_, seed, cycles>] has an injection: for every type,
    seed and budget from 0 to 2^31 - 1 no static assertion of the builder
    fails, once the recursion depth allowed exceeds the budget.  The same holds
    for [obf_literal<T_, C_, seed, cycles>] with a budget below 100, where the
    literal contexts never use the rolling counter. *)
Theorem obf_var_always_compiles (fuel : nat) (T_ : IntType) (seed cycles : Z) :
  0 <= cycles < 2 ^ 31 -> cycles < Z.of_nat fuel ->
  (exists t,
     obf_var_Injection OBFUSCATE_SEED obf_gen_const OBF_COMPILE_TIME_TESTS
       fuel T_ seed cycles = Some t) /\
  (cycles < 100 ->
   exists t,
     obf_literal_Injection OBFUSCATE_SEED obf_gen_const OBF_COMPILE_TIME_TESTS
       fuel T_ seed cycles = Some t).
Proof.
  intros Hc Hf. split.
  - unfold obf_var_Injection, obf_var_Context.
    apply (obf_injection_total fuel _ _ _ _ _ 0).
    + exact I.
    + reflexivity.
    + lia.
    + lia.
    + lia.
    + rewrite size_t_minus1_eq. lia.
  - intros Hlit. unfold obf_literal_Injection, obf_literal_Context.
    assert (Hctx : no_rolling_counter
                     (ObfLiteralContext (obf_compile_time_prng seed 1) cycles) cycles)
      by (cbn; lia).
    destruct (context_cycles_some (make_unsigned T_) _ _ Hctx) as (cc & Hcc & Hcc0 & Hle).
    apply (obf_injection_total fuel _ _ _ _ _ cc); try assumption; try lia.
    rewrite size_t_minus1_eq. lia.
Qed.

End Totality.

Lemma obf_var_always_compiles_witness :
  (0 <= 30 < 2 ^ 31) /\ 30 < Z.of_nat 60 /\
  ((exists t,
      obf_var_Injection 0x0c7dfa61a867b125 (fun _ s => s) 100 60 uint32 1 30 = Some t) /\
   (30 < 100 ->
    exists t,
      obf_literal_Injection 0x0c7dfa61a867b125 (fun _ s => s) 100 60 uint32 1 30 = Some t)).
Proof.
  split; [lia |]. split; [lia |].
  apply (obf_var_always_compiles 0x0c7dfa61a867b125 (fun _ s => s) 100 60 uint32 1 30); lia.
Defined.
